(** * AIAR-Guitar: the gesture-to-audio decision pipeline

    A shallow embedding of the front-end decision code:
    - [systems/AudioEngine.ts]: [initialize], [playNote], [releaseNote],
      [playChord], [processStrumMovement], [setVolume], [stopAll],
      [dispose] and the hook [useAudioEngine];
    - [hooks/useWebSocket.ts]: [connect], [ws.onopen], [ws.onclose],
      [ws.onmessage], [disconnect], [sendInference];
    - [components/Vision/HandTracker.tsx]: [processHand], [onResults];
    - [components/UI/HUD.tsx]: the chord fingering and the key handler;
    - [config/constants.ts] and the Zustand store [stores/useStore.ts].

    JavaScript numbers are modelled as exact rationals ([Q]); integer-valued
    numbers that index arrays or name MIDI notes are [Z].  [Math.sqrt] and
    [Math.pow] are not rational functions and are parameters of the
    development.  Where a decision depends on the rounding of double
    arithmetic (the speed threshold, the string bands), the engine is
    modelled a second time with the rounding made explicit ([Double]).
    Mutable objects (the engine singleton, the store, the refs of the
    hooks) are passed explicitly as state; a callback that throws returns
    the exception together with what it wrote before. *)

From Stdlib Require Import QArith Qround Qabs Lqa ZArith List Bool String.
From stdpp Require Import base option list gmap strings.
Import ListNotations.

Local Open Scope Z_scope.

(** ** JavaScript numbers as rationals *)

Module JsNum.

(** [a <= b] and [a < b] on numbers, as booleans. *)
Definition leb (a b : Q) : bool := Qle_bool a b.
Definition ltb (a b : Q) : bool := negb (Qle_bool b a).

(** [Math.min] and [Math.max] of two numbers. *)
Definition min (a b : Q) : Q := if leb a b then a else b.
Definition max (a b : Q) : Q := if leb a b then b else a.

(** [Math.floor]. *)
Definition floor (a : Q) : Z := Qfloor a.

(** A number used as a condition: [0] is falsy. *)
Definition truthy (a : Q) : bool := negb (Qeq_bool a 0).

End JsNum.

(** ** [config/constants.ts] *)

(** [GUITAR_TUNING[i].midi], low E to high e. *)
Definition GUITAR_TUNING : list Z := [40; 45; 50; 55; 59; 64].

Definition EMA_ALPHA : Q := 3 # 10.
Definition STRUM_SPEED_THRESHOLD : Q := 15 # 100.
Definition STRUM_SPEED_MAX : Q := 8 # 10.
Definition STRUM_DEBOUNCE_MS : Q := 50.

Module AUDIO_CONFIG.
Definition minGain : Q := 1 # 10.
Definition maxGain : Q := 9 # 10.
Definition gainGamma : Q := 9 # 10.
Definition maxPolyphony : Z := 6.
End AUDIO_CONFIG.

Module WS_CONFIG.
Definition reconnectBaseDelay : Q := 1000.
Definition reconnectMaxDelay : Q := 8000.
Definition maxReconnectAttempts : nat := 10.
Definition inferenceThrottleMs : Q := 200.
End WS_CONFIG.

Module AI_CONFIG.
Definition confidenceThreshold : Q := 85 # 100.
Definition lowConfidenceThreshold : Q := 4 # 10.
Definition fallbackThreshold : Q := 3 # 10.
End AI_CONFIG.

(** ** [types/landmarks.ts] *)

Record Point3D := mkPoint { px : Q; py : Q; pz : Q }.

Definition origin : Point3D := mkPoint 0 0 0.

(** The members of [enum LandmarkIndex] that the tracker names. *)
Module LandmarkIndex.
Definition WRIST : nat := 0.
Definition THUMB_MCP : nat := 2.
Definition THUMB_TIP : nat := 4.
Definition INDEX_MCP : nat := 5.
Definition INDEX_TIP : nat := 8.
Definition MIDDLE_MCP : nat := 9.
Definition MIDDLE_TIP : nat := 12.
Definition RING_MCP : nat := 13.
Definition RING_TIP : nat := 16.
Definition PINKY_MCP : nat := 17.
Definition PINKY_TIP : nat := 20.
End LandmarkIndex.

Inductive StrumDirection := up | down.

Record StrumEvent := mkStrumEvent {
  timestamp : Q;
  stringIndex : Z;
  fretIndex : Z;
  velocity : Q;
  direction : StrumDirection
}.

Record StrumState := mkStrumState {
  lastPosition : option Point3D;
  lastTimestamp : Q;
  strumVelocity : Q;      (* [StrumState.velocity] *)
  isStrumming : bool
}.

(** ** [types/ws.ts] *)

Record InferenceResult := mkInferenceResult {
  res_timestamp : Q;
  chord_id : string;
  confidence : Q;
  fingering_map : list Z;
  correction_active : bool;
  override_notes : option (list Z)
}.

Inductive ServerMessage :=
| inference_result (r : InferenceResult)
| inference_error (code message : string)
| other_message.          (* any other [type], or a payload that fails to parse *)

(** ** [lib/math.ts]

    The engine and the tracker import these helpers; they are written out
    here from their documentation. *)

(** Modelled from the spec: [clamp] of lib/math.ts, the usual
    [Math.max(min, Math.min(max, value))]. *)
Definition clamp (value lo hi : Q) : Q := JsNum.max lo (JsNum.min hi value).

(** [clamp] at integer arguments, where its result indexes an array. *)
Definition clampZ (value lo hi : Z) : Z := Z.max lo (Z.min hi value).

(** Modelled from the spec: [lerp] of lib/math.ts, linear interpolation. *)
Definition lerp (a b t : Q) : Q := (a + (b - a) * t)%Q.

(** Modelled from the spec: [subtract] of lib/math.ts, the componentwise
    difference of two points. *)
Definition subtract (a b : Point3D) : Point3D :=
  mkPoint (px a - px b) (py a - py b) (pz a - pz b).

(** Modelled from the spec: [getFrettedMidi] of lib/math.ts.  The open-string
    pitch is shifted by [fret] semitones; the negative fret sentinel (a muted
    string) yields a negative note, which [playNote] rejects. *)
Definition getFrettedMidi (openMidi fret : Z) : Z :=
  if fret <? 0 then -1 else openMidi + fret.

(** Modelled from the spec: [normalizeLandmarks] of lib/math.ts (given in
    docs/ARCHITECTURE.md): every coordinate is [(raw - anchor) / scale]. *)
Definition normalizeLandmarks (landmarks : list Point3D) (anchor : Point3D)
    (scaleFactor : Q) : list Point3D :=
  map (fun lm => mkPoint ((px lm - px anchor) / scaleFactor)
                         ((py lm - py anchor) / scaleFactor)
                         ((pz lm - pz anchor) / scaleFactor)) landmarks.

(** One EMA step on a point: [alpha * cur + (1 - alpha) * prev]. *)
Definition emaPoint (alpha : Q) (cur prev : Point3D) : Point3D :=
  mkPoint (alpha * px cur + (1 - alpha) * px prev)
          (alpha * py cur + (1 - alpha) * py prev)
          (alpha * pz cur + (1 - alpha) * pz prev).

Fixpoint zipWith {A B C} (f : A -> B -> C) (l : list A) (l' : list B) : list C :=
  match l, l' with
  | a :: t, b :: t' => f a b :: zipWith f t t'
  | _, _ => []
  end.

(** Modelled from the spec: [smoothLandmarks] of lib/math.ts:
    [smoothed = alpha * current + (1 - alpha) * previous], and the current
    landmarks unchanged when there is no previous observation. *)
Definition smoothLandmarks (current : list Point3D)
    (previous : option (list Point3D)) (alpha : Q) : list Point3D :=
  match previous with
  | None => current
  | Some prev => zipWith (emaPoint alpha) current prev
  end.

(** Modelled from the spec: [flattenLandmarks] of lib/math.ts, the landmarks
    in order, three coordinates each. *)
Definition flattenLandmarks (landmarks : list Point3D) : list Q :=
  flat_map (fun p => [px p; py p; pz p]) landmarks.

(** A rational stand-in for [Math.sqrt], exact whenever its argument is the
    square of a rational; used only to evaluate the model on such inputs. *)
Definition sqrt_exact (q : Q) : Q :=
  Qmake (Z.sqrt (Qnum q * Zpos (Qden q))) (Qden q).

(** A rational stand-in for [Math.pow], exact at bases [0] and [1] (with a
    positive exponent); used only to evaluate the model on such inputs. *)
Definition pow_unit (base exponent : Q) : Q := base.

(** ** [stores/useStore.ts] *)

(** A [ProcessedHand], without its [raw] landmarks and its constant
    [confidence].  An entry of an array read outside its bounds is
    [undefined], here [None]. *)
Record ProcessedHand := mkProcessedHand {
  normalized : list Q;
  wristPosition : option Point3D;
  palmCenter : Point3D;
  fingerTips : list (option Point3D);
  isOpen : bool
}.

Record Store := mkStore {
  (* VisionState *)
  leftHand : option ProcessedHand;
  rightHand : option ProcessedHand;
  isTracking : bool;
  (* AudioState *)
  audioInitialized : bool;          (* [isInitialized] *)
  isMuted : bool;
  masterVolume : Q;
  activeStrings : gset Z;
  lastStrumEvent : option StrumEvent;
  correctionActive : bool;
  currentChord : string;
  overrideNotes : list Z;
  (* WebSocketState *)
  wsConnected : bool;
  lastInferenceResult : option InferenceResult;
  (* UIState *)
  error : option string
}.

(** [defaultVisionState], [defaultAudioState], [defaultWebSocketState],
    [defaultUIState]. *)
Definition defaultStore : Store := {|
  leftHand := None; rightHand := None; isTracking := false;
  audioInitialized := false; isMuted := false; masterVolume := 8 # 10;
  activeStrings := ∅; lastStrumEvent := None; correctionActive := false;
  currentChord := "unknown"; overrideNotes := [];
  wsConnected := false; lastInferenceResult := None;
  error := None
|}.

Definition setLeftHand (hand : option ProcessedHand) (s : Store) : Store :=
  mkStore hand (rightHand s) (isTracking s) (audioInitialized s) (isMuted s)
    (masterVolume s) (activeStrings s) (lastStrumEvent s) (correctionActive s)
    (currentChord s) (overrideNotes s) (wsConnected s) (lastInferenceResult s)
    (error s).

Definition setRightHand (hand : option ProcessedHand) (s : Store) : Store :=
  mkStore (leftHand s) hand (isTracking s) (audioInitialized s) (isMuted s)
    (masterVolume s) (activeStrings s) (lastStrumEvent s) (correctionActive s)
    (currentChord s) (overrideNotes s) (wsConnected s) (lastInferenceResult s)
    (error s).

Definition setIsTracking (tracking : bool) (s : Store) : Store :=
  mkStore (leftHand s) (rightHand s) tracking (audioInitialized s) (isMuted s)
    (masterVolume s) (activeStrings s) (lastStrumEvent s) (correctionActive s)
    (currentChord s) (overrideNotes s) (wsConnected s) (lastInferenceResult s)
    (error s).

Definition setAudioInitialized (initialized : bool) (s : Store) : Store :=
  mkStore (leftHand s) (rightHand s) (isTracking s) initialized (isMuted s)
    (masterVolume s) (activeStrings s) (lastStrumEvent s) (correctionActive s)
    (currentChord s) (overrideNotes s) (wsConnected s) (lastInferenceResult s)
    (error s).

Definition setMuted (muted : bool) (s : Store) : Store :=
  mkStore (leftHand s) (rightHand s) (isTracking s) (audioInitialized s) muted
    (masterVolume s) (activeStrings s) (lastStrumEvent s) (correctionActive s)
    (currentChord s) (overrideNotes s) (wsConnected s) (lastInferenceResult s)
    (error s).

Definition setMasterVolume (volume : Q) (s : Store) : Store :=
  mkStore (leftHand s) (rightHand s) (isTracking s) (audioInitialized s)
    (isMuted s) (JsNum.max 0 (JsNum.min 1 volume)) (activeStrings s)
    (lastStrumEvent s) (correctionActive s) (currentChord s) (overrideNotes s)
    (wsConnected s) (lastInferenceResult s) (error s).

Definition withActiveStrings (a : gset Z) (s : Store) : Store :=
  mkStore (leftHand s) (rightHand s) (isTracking s) (audioInitialized s)
    (isMuted s) (masterVolume s) a (lastStrumEvent s) (correctionActive s)
    (currentChord s) (overrideNotes s) (wsConnected s) (lastInferenceResult s)
    (error s).

Definition addActiveString (i : Z) (s : Store) : Store :=
  withActiveStrings (activeStrings s ∪ {[ i ]}) s.

Definition removeActiveString (i : Z) (s : Store) : Store :=
  withActiveStrings (activeStrings s ∖ {[ i ]}) s.

Definition clearActiveStrings (s : Store) : Store := withActiveStrings ∅ s.

Definition setLastStrumEvent (event : option StrumEvent) (s : Store) : Store :=
  mkStore (leftHand s) (rightHand s) (isTracking s) (audioInitialized s)
    (isMuted s) (masterVolume s) (activeStrings s) event (correctionActive s)
    (currentChord s) (overrideNotes s) (wsConnected s) (lastInferenceResult s)
    (error s).

Definition setCorrectionActive (active : bool) (s : Store) : Store :=
  mkStore (leftHand s) (rightHand s) (isTracking s) (audioInitialized s)
    (isMuted s) (masterVolume s) (activeStrings s) (lastStrumEvent s) active
    (currentChord s) (overrideNotes s) (wsConnected s) (lastInferenceResult s)
    (error s).

Definition setCurrentChord (chord : string) (s : Store) : Store :=
  mkStore (leftHand s) (rightHand s) (isTracking s) (audioInitialized s)
    (isMuted s) (masterVolume s) (activeStrings s) (lastStrumEvent s)
    (correctionActive s) chord (overrideNotes s) (wsConnected s)
    (lastInferenceResult s) (error s).

Definition setOverrideNotes (notes : list Z) (s : Store) : Store :=
  mkStore (leftHand s) (rightHand s) (isTracking s) (audioInitialized s)
    (isMuted s) (masterVolume s) (activeStrings s) (lastStrumEvent s)
    (correctionActive s) (currentChord s) notes (wsConnected s)
    (lastInferenceResult s) (error s).

Definition setWsConnected (connected : bool) (s : Store) : Store :=
  mkStore (leftHand s) (rightHand s) (isTracking s) (audioInitialized s)
    (isMuted s) (masterVolume s) (activeStrings s) (lastStrumEvent s)
    (correctionActive s) (currentChord s) (overrideNotes s) connected
    (lastInferenceResult s) (error s).

Definition setLastInferenceResult (result : option InferenceResult)
    (s : Store) : Store :=
  mkStore (leftHand s) (rightHand s) (isTracking s) (audioInitialized s)
    (isMuted s) (masterVolume s) (activeStrings s) (lastStrumEvent s)
    (correctionActive s) (currentChord s) (overrideNotes s) (wsConnected s)
    result (error s).

Definition setError (e : option string) (s : Store) : Store :=
  mkStore (leftHand s) (rightHand s) (isTracking s) (audioInitialized s)
    (isMuted s) (masterVolume s) (activeStrings s) (lastStrumEvent s)
    (correctionActive s) (currentChord s) (overrideNotes s) (wsConnected s)
    (lastInferenceResult s) e.

(** ** [systems/AudioEngine.ts] *)

(** A [StringVoice]: the Tone.js nodes are represented by the value last
    written to the voice's gain node and by the calls logged in [ToneCall]. *)
Record StringVoice := mkVoice {
  isPlaying : bool;
  lastNoteTime : Q;
  gain : Q
}.

Record AudioEngineState := mkEngineState {
  isInitialized : bool;
  voices : list StringVoice;
  masterGain : Q;
  strumState : StrumState
}.

(** The [AudioEngine] singleton: [this.state] and [this.lastStrumTime]. *)
Record AudioEngine := mkEngine {
  state : option AudioEngineState;
  lastStrumTime : Q
}.

(** Calls made on the Tone.js nodes of a string's voice. *)
Inductive ToneCall :=
| GainSetValueAtTime (stringIndex : Z) (value time : Q)
| SynthTriggerAttack (stringIndex : Z) (midiNote : Z) (time : Q)
| EnvelopeTriggerAttack (stringIndex : Z) (time : Q)
| EnvelopeTriggerRelease (stringIndex : Z) (time : Q).

(** [setTimeout(() => this.releaseNote(stringIndex), delay)]. *)
Inductive Timer :=
| AutoRelease (stringIndex : Z) (delay : Q).

(** Everything the engine reads and writes: itself, the store, the calls it
    has issued to Tone.js (oldest first) and the timers it has set. *)
Record World := mkWorld {
  engine : AudioEngine;
  store : Store;
  tone : list ToneCall;
  timers : list Timer
}.

Definition newEngine : AudioEngine := mkEngine None 0.

Definition initialWorld : World := mkWorld newEngine defaultStore [] [].

Definition withStore (f : Store -> Store) (w : World) : World :=
  mkWorld (engine w) (f (store w)) (tone w) (timers w).

Definition withState (st : option AudioEngineState) (w : World) : World :=
  mkWorld (mkEngine st (lastStrumTime (engine w))) (store w) (tone w) (timers w).

Definition withVoices (vs : list StringVoice) (st : AudioEngineState)
    : AudioEngineState :=
  mkEngineState (isInitialized st) vs (masterGain st) (strumState st).

Definition withStrumState (ss : StrumState) (st : AudioEngineState)
    : AudioEngineState :=
  mkEngineState (isInitialized st) (voices st) (masterGain st) ss.

(** The state is live: [this.state?.isInitialized]. *)
Definition liveState (e : AudioEngine) : option AudioEngineState :=
  match state e with
  | Some st => if isInitialized st then Some st else None
  | None => None
  end.

(** [voices[stringIndex]]: [undefined] outside the array. *)
Definition voiceAt (vs : list StringVoice) (stringIndex : Z)
    : option StringVoice :=
  if stringIndex <? 0 then None else vs !! Z.to_nat stringIndex.

(** The fresh voices built by [GUITAR_TUNING.map(...)] in [initialize]. *)
Definition freshVoices : list StringVoice :=
  map (fun _ => mkVoice false 0 (1 # 2)) GUITAR_TUNING.

(** [initialize()]: the boolean it resolves to, and the world it leaves.
    [toneStarts] tells whether the [try] block ([await Tone.start()] and the
    construction of the Tone.js nodes) runs to its end or throws; in the
    second case the [catch] block returns [false], and nothing has been
    written, since the state and the store are assigned last.  The call is
    taken as one step: no other callback runs while [Tone.start()] is
    pending. *)
Definition initialize (toneStarts : bool) (w : World) : bool * World :=
  match liveState (engine w) with
  | Some _ => (true, w)
  | None =>
      if toneStarts then
        let st := mkEngineState true freshVoices AUDIO_CONFIG.maxGain
                    (mkStrumState None 0 0 false) in
        (true, withStore (setAudioInitialized true) (withState (Some st) w))
      else (false, w)
  end.

(** [releaseNote(stringIndex)]; [now] is the reading of [Tone.now()]. *)
Definition releaseNote (stringIndex : Z) (now : Q) (w : World) : World :=
  match liveState (engine w) with
  | None => w
  | Some st =>
      match voiceAt (voices st) stringIndex with
      | None => w
      | Some voice =>
          if negb (isPlaying voice) then w
          else
            let voice' := mkVoice false (lastNoteTime voice) (gain voice) in
            let st' := withVoices
                         (<[Z.to_nat stringIndex := voice']> (voices st)) st in
            mkWorld (mkEngine (Some st') (lastStrumTime (engine w)))
                    (removeActiveString stringIndex (store w))
                    (tone w ++ [EnvelopeTriggerRelease stringIndex now])
                    (timers w)
      end
  end.

(** The indices of the voices that are playing, in array order. *)
Fixpoint playingFrom (i : Z) (vs : list StringVoice) : list Z :=
  match vs with
  | [] => []
  | v :: rest =>
      if isPlaying v then i :: playingFrom (i + 1) rest
      else playingFrom (i + 1) rest
  end.

(** [stopAll()]. *)
Definition stopAll (now : Q) (w : World) : World :=
  match liveState (engine w) with
  | None => w
  | Some st =>
      withStore clearActiveStrings
        (fold_left (fun acc i => releaseNote i now acc)
                   (playingFrom 0 (voices st)) w)
  end.

(** [dispose()]. *)
Definition dispose (now : Q) (w : World) : World :=
  match state (engine w) with
  | None => w
  | Some _ => withState None (stopAll now w)
  end.

(** [setVolume(volume)]. *)
Definition setVolume (volume : Q) (w : World) : World :=
  match liveState (engine w) with
  | None => w
  | Some st =>
      withState (Some (mkEngineState (isInitialized st) (voices st)
                         (clamp volume 0 1) (strumState st))) w
  end.

Section Engine.

(** [Math.sqrt] and [Math.pow]. *)
Variable js_sqrt : Q -> Q.
Variable js_pow : Q -> Q -> Q.

(** Modelled from the spec: [magnitude] of lib/math.ts, the Euclidean
    norm. *)
Definition magnitude (v : Point3D) : Q :=
  js_sqrt (px v * px v + py v * py v + pz v * pz v).

(** Modelled from the spec: [distance] of lib/math.ts, the Euclidean
    distance between two points. *)
Definition distance (a b : Point3D) : Q := magnitude (subtract a b).

(** Modelled from the spec: [velocityToGain] of lib/math.ts (given in
    docs/ARCHITECTURE.md): [lerp(minGain, maxGain, v^gamma)] on the
    clamped velocity. *)
Definition velocityToGain (velocity minGain maxGain gamma : Q) : Q :=
  let v := clamp velocity 0 1 in
  lerp minGain maxGain (js_pow v gamma).

(** [playNote(stringIndex, fret, velocity)]; [now] is the reading of
    [Tone.now()], in seconds. *)
Definition playNote (stringIndex fret : Z) (velocity now : Q) (w : World)
    : World :=
  match liveState (engine w) with
  | None => w
  | Some st =>
      if (stringIndex <? 0) || (Z.of_nat (length (voices st)) <=? stringIndex)
      then w
      else
        match voiceAt (voices st) stringIndex with
        | None => w
        | Some voice =>
            (* Apply debounce *)
            if JsNum.ltb (now - lastNoteTime voice) (STRUM_DEBOUNCE_MS / 1000)
            then w
            else
              let openStringMidi := nth (Z.to_nat stringIndex) GUITAR_TUNING 0 in
              let midiNote := getFrettedMidi openStringMidi fret in
              if midiNote <? 0 then w      (* Muted string *)
              else
                let g := velocityToGain velocity AUDIO_CONFIG.minGain
                           AUDIO_CONFIG.maxGain AUDIO_CONFIG.gainGamma in
                if isMuted (store w) then w
                else
                  let voice' :=
                    mkVoice true now (g * masterVolume (store w)) in
                  let st' := withVoices
                               (<[Z.to_nat stringIndex := voice']> (voices st))
                               st in
                  mkWorld
                    (mkEngine (Some st') (lastStrumTime (engine w)))
                    (addActiveString stringIndex (store w))
                    (tone w ++
                       [GainSetValueAtTime stringIndex
                          (g * masterVolume (store w)) now;
                        SynthTriggerAttack stringIndex midiNote now;
                        EnvelopeTriggerAttack stringIndex now])
                    (timers w ++ [AutoRelease stringIndex 1500])
        end
  end.

(** The fret chosen for the struck string (lines 276-286 of
    [processStrumMovement]). *)
Definition resolveFret (s : Store) (clampedString : Z) : Z :=
  if correctionActive s
     && (clampedString <? Z.of_nat (length (overrideNotes s)))
  then
    let midiNote := nth (Z.to_nat clampedString) (overrideNotes s) 0 in
    let openMidi := nth (Z.to_nat clampedString) GUITAR_TUNING 0 in
    Z.max 0 (midiNote - openMidi)
  else 0.

(** [processStrumMovement(currentPosition, timestamp)]; [now] is the
    reading of [Tone.now()] inside the nested [playNote]. *)
Definition processStrumMovement (currentPosition : Point3D)
    (timestamp now : Q) (w : World) : World * option StrumEvent :=
  match state (engine w) with
  | None => (w, None)
  | Some st =>
      let ss := strumState st in
      match lastPosition ss with
      | None =>
          let ss' := mkStrumState (Some currentPosition) timestamp
                       (strumVelocity ss) (isStrumming ss) in
          (withState (Some (withStrumState ss' st)) w, None)
      | Some lastPos =>
          (* Calculate velocity *)
          let dt := ((timestamp - lastTimestamp ss) / 1000)%Q in
          if JsNum.leb dt 0 then (w, None)
          else
            let movement := subtract currentPosition lastPos in
            let speed := (magnitude movement / dt)%Q in
            (* Update state *)
            let ss' := mkStrumState (Some currentPosition) timestamp speed
                         (isStrumming ss) in
            let w1 := withState (Some (withStrumState ss' st)) w in
            (* Check for strum *)
            if JsNum.ltb STRUM_SPEED_THRESHOLD speed then
              (* Debounce *)
              if JsNum.ltb (timestamp - lastStrumTime (engine w))
                           STRUM_DEBOUNCE_MS
              then (w1, None)
              else
                let w2 := mkWorld (mkEngine (state (engine w1)) timestamp)
                            (store w1) (tone w1) (timers w1) in
                let normalizedVelocity :=
                  clamp (speed / STRUM_SPEED_MAX) 0 1 in
                let stringIndex :=
                  JsNum.floor ((1 - py currentPosition) * 6) in
                let clampedString := clampZ stringIndex 0 5 in
                let fret := resolveFret (store w2) clampedString in
                let direction :=
                  if JsNum.ltb 0 (py movement) then down else up in
                let strumEvent :=
                  mkStrumEvent timestamp clampedString fret
                    normalizedVelocity direction in
                let w3 := withStore (setLastStrumEvent (Some strumEvent)) w2 in
                (playNote clampedString fret normalizedVelocity now w3,
                 Some strumEvent)
            else (w1, None)
      end
  end.

End Engine.

(** ** Double arithmetic

    A JavaScript number is a binary64 double, and every arithmetic
    operation yields the double nearest to the exact result.  Time stamps,
    MIDI notes and the other integers the engine handles are exact, but a
    speed or a position scaled to the string bands is not, and close to a
    threshold the rounded value decides.  [Double] is the engine with every
    operation on non-integers followed by a rounding [fl]; integer literals
    are doubles and are written as they are.  With [fl] the identity it is
    the exact model; [Binary64.round] is the rounding of doubles. *)

Module Binary64.

(** [n / d] rounded to the nearest integer, ties to even ([0 <= n],
    [0 < d]). *)
Definition roundHalfEven (n d : Z) : Z :=
  let q := n / d in
  let r := n mod d in
  match 2 * r ?= d with
  | Lt => q
  | Gt => q + 1
  | Eq => if Z.even q then q else q + 1
  end.

(** [floor (log2 (n / d))] for [0 < n] and [0 < d]. *)
Definition exponent (n d : Z) : Z :=
  let k := Z.log2 n - Z.log2 d in
  if (if 0 <=? k then d * 2 ^ k <=? n else d <=? n * 2 ^ (- k))
  then k else k - 1.

(** Round to nearest, ties to even, with a 53-bit significand and the
    subnormal spacing [2^-1074]; overflow to infinity is not modelled. *)
Definition round (q : Q) : Q :=
  let n := Z.abs (Qnum q) in
  let d := Zpos (Qden q) in
  if n =? 0 then 0%Q
  else
    let e := Z.max (exponent n d - 52) (-1074) in
    let m := if 0 <=? e then roundHalfEven n (d * 2 ^ e)
             else roundHalfEven (n * 2 ^ (- e)) d in
    let v := if 0 <=? e then inject_Z (m * 2 ^ e)
             else Qmake m (Z.to_pos (2 ^ (- e))) in
    Qred (if Qnum q <? 0 then (- v)%Q else v).

End Binary64.

Module Double.

Section Rounding.

Variable fl : Q -> Q.
Variable js_sqrt : Q -> Q.
Variable js_pow : Q -> Q -> Q.

(** Modelled from the spec: [subtract] of lib/math.ts. *)
Definition subtract (a b : Point3D) : Point3D :=
  mkPoint (fl (px a - px b)) (fl (py a - py b)) (fl (pz a - pz b)).

(** Modelled from the spec: [magnitude] of lib/math.ts. *)
Definition magnitude (v : Point3D) : Q :=
  js_sqrt (fl (fl (fl (px v * px v) + fl (py v * py v)) + fl (pz v * pz v))).

(** Modelled from the spec: [lerp] of lib/math.ts. *)
Definition lerp (a b t : Q) : Q := fl (a + fl (fl (b - a) * t)).

(** Modelled from the spec: [velocityToGain] of lib/math.ts. *)
Definition velocityToGain (velocity minGain maxGain gamma : Q) : Q :=
  let v := clamp velocity 0 1 in
  lerp minGain maxGain (js_pow v gamma).

(** [playNote(stringIndex, fret, velocity)]. *)
Definition playNote (stringIndex fret : Z) (velocity now : Q) (w : World)
    : World :=
  match liveState (engine w) with
  | None => w
  | Some st =>
      if (stringIndex <? 0) || (Z.of_nat (length (voices st)) <=? stringIndex)
      then w
      else
        match voiceAt (voices st) stringIndex with
        | None => w
        | Some voice =>
            (* Apply debounce *)
            if JsNum.ltb (fl (now - lastNoteTime voice))
                         (fl (STRUM_DEBOUNCE_MS / 1000))
            then w
            else
              let openStringMidi := nth (Z.to_nat stringIndex) GUITAR_TUNING 0 in
              let midiNote := getFrettedMidi openStringMidi fret in
              if midiNote <? 0 then w      (* Muted string *)
              else
                let g := velocityToGain velocity (fl AUDIO_CONFIG.minGain)
                           (fl AUDIO_CONFIG.maxGain)
                           (fl AUDIO_CONFIG.gainGamma) in
                if isMuted (store w) then w
                else
                  let voice' :=
                    mkVoice true now (fl (g * masterVolume (store w))) in
                  let st' := withVoices
                               (<[Z.to_nat stringIndex := voice']> (voices st))
                               st in
                  mkWorld
                    (mkEngine (Some st') (lastStrumTime (engine w)))
                    (addActiveString stringIndex (store w))
                    (tone w ++
                       [GainSetValueAtTime stringIndex
                          (fl (g * masterVolume (store w))) now;
                        SynthTriggerAttack stringIndex midiNote now;
                        EnvelopeTriggerAttack stringIndex now])
                    (timers w ++ [AutoRelease stringIndex 1500])
        end
  end.

(** [processStrumMovement(currentPosition, timestamp)]. *)
Definition processStrumMovement (currentPosition : Point3D)
    (timestamp now : Q) (w : World) : World * option StrumEvent :=
  match state (engine w) with
  | None => (w, None)
  | Some st =>
      let ss := strumState st in
      match lastPosition ss with
      | None =>
          let ss' := mkStrumState (Some currentPosition) timestamp
                       (strumVelocity ss) (isStrumming ss) in
          (withState (Some (withStrumState ss' st)) w, None)
      | Some lastPos =>
          (* Calculate velocity *)
          let dt := fl (fl (timestamp - lastTimestamp ss) / 1000) in
          if JsNum.leb dt 0 then (w, None)
          else
            let movement := subtract currentPosition lastPos in
            let speed := fl (magnitude movement / dt) in
            (* Update state *)
            let ss' := mkStrumState (Some currentPosition) timestamp speed
                         (isStrumming ss) in
            let w1 := withState (Some (withStrumState ss' st)) w in
            (* Check for strum *)
            if JsNum.ltb (fl STRUM_SPEED_THRESHOLD) speed then
              (* Debounce *)
              if JsNum.ltb (fl (timestamp - lastStrumTime (engine w)))
                           STRUM_DEBOUNCE_MS
              then (w1, None)
              else
                let w2 := mkWorld (mkEngine (state (engine w1)) timestamp)
                            (store w1) (tone w1) (timers w1) in
                let normalizedVelocity :=
                  clamp (fl (speed / fl STRUM_SPEED_MAX)) 0 1 in
                let stringIndex :=
                  JsNum.floor (fl (fl (1 - py currentPosition) * 6)) in
                let clampedString := clampZ stringIndex 0 5 in
                let fret := resolveFret (store w2) clampedString in
                let direction :=
                  if JsNum.ltb 0 (py movement) then down else up in
                let strumEvent :=
                  mkStrumEvent timestamp clampedString fret
                    normalizedVelocity direction in
                let w3 := withStore (setLastStrumEvent (Some strumEvent)) w2 in
                (playNote clampedString fret normalizedVelocity now w3,
                 Some strumEvent)
            else (w1, None)
      end
  end.

End Rounding.

End Double.

(** ** [hooks/useWebSocket.ts] *)

Definition RECONNECT_DELAY : Q := 3000.
Definition MAX_RECONNECT_ATTEMPTS : nat := 5.

Inductive ReadyState := CONNECTING | OPEN | CLOSING | CLOSED.

(** The refs of the hook: [wsRef] (the socket, by its [readyState]),
    [reconnectAttempts] and [reconnectTimeout] (the delay of the timer last
    set with [setTimeout(connect, delay)]). *)
Record WsClient := mkWsClient {
  wsRef : option ReadyState;
  reconnectAttempts : nat;
  reconnectTimeout : option Q
}.

Definition newWsClient : WsClient := mkWsClient None 0 None.

Definition offlineMessage : string :=
  "Unable to connect to AI service. Running in offline mode.".

Definition connectionFailedMessage : string :=
  "Failed to establish WebSocket connection".

(** [connect()]: a socket that is open or connecting is kept.  [constructed]
    tells whether [new WebSocket(WS_URL)] returns a socket or throws; in the
    second case the [catch] block sets the error and [wsRef] keeps what it
    held. *)
Definition connect (constructed : bool) (cs : WsClient * Store)
    : WsClient * Store :=
  let (c, s) := cs in
  match wsRef c with
  | Some OPEN | Some CONNECTING => (c, s)
  | _ =>
      if constructed then
        (mkWsClient (Some CONNECTING) (reconnectAttempts c)
           (reconnectTimeout c), s)
      else (c, setError (Some connectionFailedMessage) s)
  end.

(** [ws.onopen]. *)
Definition onopen (cs : WsClient * Store) : WsClient * Store :=
  let (c, s) := cs in
  (mkWsClient (Some OPEN) 0 (reconnectTimeout c),
   setError None (setWsConnected true s)).

(** [ws.onclose]: the third component is the delay passed to
    [setTimeout(connect, ...)], if a reconnection was scheduled. *)
Definition onclose (cs : WsClient * Store) : WsClient * Store * option Q :=
  let (c, s) := cs in
  let s1 := setWsConnected false s in
  if (reconnectAttempts c <? MAX_RECONNECT_ATTEMPTS)%nat then
    (mkWsClient None (S (reconnectAttempts c)) (Some RECONNECT_DELAY), s1,
     Some RECONNECT_DELAY)
  else
    (mkWsClient None (reconnectAttempts c) (reconnectTimeout c),
     setError (Some offlineMessage) s1, None).

(** [ws.onmessage], on the parsed payload. *)
Definition onmessage (m : ServerMessage) (s : Store) : Store :=
  match m with
  | inference_result result =>
      let s1 := setLastInferenceResult (Some result) s in
      let s2 := setCurrentChord (chord_id result) s1 in
      let s3 := setCorrectionActive (correction_active result) s2 in
      match override_notes result with
      | Some notes => setOverrideNotes notes s3
      | None => s3
      end
  | inference_error _ _ => s
  | other_message => s
  end.

(** [n] connection losses in a row, none followed by a successful open: each
    loss runs [onclose], and the timer it set, if any, runs [connect], whose
    socket (it has to be constructed to be lost) is lost in turn.  The
    result lists what each loss scheduled. *)
Fixpoint consecutiveLosses (n : nat) (cs : WsClient * Store)
    : WsClient * Store * list (option Q) :=
  match n with
  | O => (cs, [])
  | S k =>
      let '(c1, s1, scheduled) := onclose cs in
      let cs2 := match scheduled with
                 | Some _ => connect true (c1, s1)
                 | None => (c1, s1)
                 end in
      let '(cs', rest) := consecutiveLosses k cs2 in
      (cs', scheduled :: rest)
  end.

(** Modelled from the spec: exponential backoff, the delay of the [k]-th
    reconnection attempt ([k] from 0): the base delay doubled [k] times and
    capped at the maximum (docs: 1s, 2s, 4s, 8s max). *)
Definition backoffDelay (base cap : Q) (k : nat) : Q :=
  JsNum.min cap (base * inject_Z (2 ^ Z.of_nat k)).

(** Modelled from the spec: a Recognition Result is stale at time [now] when
    it is older than the staleness window. *)
Definition stale (window : Q) (r : InferenceResult) (now : Q) : bool :=
  JsNum.ltb window (now - res_timestamp r).

(** ** Exceptions

    An expression that throws yields the exception instead of a value. *)

Inductive JsError :=
| ReferenceError (identifier : string)   (* the identifier is not defined *)
| TypeError.                             (* a property of [undefined] is read *)

Definition Result (A : Type) : Type := (JsError + A)%type.

Definition ok {A} (a : A) : Result A := inr a.

Definition throw {A} (e : JsError) : Result A := inl e.

Definition andThen {A B} (m : Result A) (k : A -> Result B) : Result B :=
  match m with
  | inl e => inl e
  | inr a => k a
  end.

Notation "x <- m ;; k" := (andThen m (fun x => k))
  (at level 100, m at next level, right associativity).

(** Reading a property of a value that may be [undefined]. *)
Definition defined {A} (a : option A) : Result A :=
  match a with
  | Some v => ok v
  | None => throw TypeError
  end.

Fixpoint definedAll {A} (l : list (option A)) : Result (list A) :=
  match l with
  | [] => ok []
  | a :: rest => v <- defined a ;; vs <- definedAll rest ;; ok (v :: vs)
  end.

(** How a module imports a name.  A value import binds the name at run
    time; [import type] is erased when the module is compiled, so a name
    imported that way is not defined at run time. *)
Inductive Import := ValueImport | TypeOnlyImport.

(** ** [components/Vision/HandTracker.tsx] *)

(** Line 26:
    [import type { Point3D, ProcessedHand, HandLandmarks, LandmarkIndex }
     from '@/types/landmarks'].  The enum [LandmarkIndex] is among the
    names imported as types only. *)
Definition HandTracker_LandmarkIndex : Import := TypeOnlyImport.

Inductive Handedness := Left | Right.

(** One entry of [multiHandLandmarks] with its [multiHandedness] label; the
    code only asks whether the label is ['Left']. *)
Record DetectedHand := mkDetectedHand {
  landmarks : list Point3D;
  labelIsLeft : bool
}.

(** [prevLandmarksRef.current]. *)
Record PrevLandmarks := mkPrev {
  prevLeft : option (list Point3D);
  prevRight : option (list Point3D)
}.

Section Tracker.

Variable js_sqrt : Q -> Q.

(** The import of [LandmarkIndex] the module is compiled with; the module
    as written has [HandTracker_LandmarkIndex]. *)
Variable LandmarkIndex_import : Import.

(** [LandmarkIndex.MEMBER], where [value] is what the enum declares. *)
Definition member (value : nat) : Result nat :=
  match LandmarkIndex_import with
  | ValueImport => ok value
  | TypeOnlyImport => throw (ReferenceError "LandmarkIndex")
  end.

(** Modelled from the spec: [distance(a, b)] of lib/math.ts on array
    entries: the coordinates of both are read. *)
Definition distanceOf (a b : option Point3D) : Result Q :=
  a <- defined a ;; b <- defined b ;; ok (distance js_sqrt a b).

(** Modelled from the spec: [normalizeLandmarks(landmarks, anchor,
    scaleFactor)] of lib/math.ts on an anchor read from the array: its
    coordinates are read once per landmark. *)
Definition normalizeFrom (lms : list Point3D) (anchor : option Point3D)
    (scaleFactor : Q) : Result (list Point3D) :=
  match lms with
  | [] => ok []
  | _ => a <- defined anchor ;; ok (normalizeLandmarks lms a scaleFactor)
  end.

(** [fingerTips.every((tip, i) => tip.y < landmarks[mcpIndex[i]].y)]: the
    test stops at the first fingertip that is not above its knuckle. *)
Fixpoint everyAbove (lms : list Point3D)
    (pairs : list (option Point3D * nat)) : Result bool :=
  match pairs with
  | [] => ok true
  | (tip, mcpIndex) :: rest =>
      t <- defined tip ;;
      m <- defined (lms !! mcpIndex) ;;
      if JsNum.ltb (py t) (py m) then everyAbove lms rest else ok false
  end.

Definition sumOf (f : Point3D -> Q) (l : list Point3D) : Q :=
  fold_left (fun sum p => (sum + f p)%Q) l 0%Q.

(** [processHand(landmarks, worldLandmarks, handedness, prevLandmarks)]. *)
Definition processHand (lms : list Point3D) (handedness : Handedness)
    (prevLandmarks : option (list Point3D)) : Result ProcessedHand :=
  (* Get wrist as anchor *)
  iWrist <- member LandmarkIndex.WRIST ;;
  let wrist := lms !! iWrist in
  (* Estimate scale from palm width *)
  iIndexMcp <- member LandmarkIndex.INDEX_MCP ;;
  let indexMcp := lms !! iIndexMcp in
  iPinkyMcp <- member LandmarkIndex.PINKY_MCP ;;
  let pinkyMcp := lms !! iPinkyMcp in
  palmWidth <- distanceOf indexMcp pinkyMcp ;;
  let scaleFactor := if JsNum.ltb 0 palmWidth then palmWidth else 1 # 10 in
  (* Normalize relative to wrist *)
  normalizedLandmarks <- normalizeFrom lms wrist scaleFactor ;;
  (* Apply EMA smoothing *)
  let smoothed := smoothLandmarks normalizedLandmarks prevLandmarks EMA_ALPHA in
  let flatVector := flattenLandmarks smoothed in
  (* Calculate palm center *)
  j1 <- member LandmarkIndex.INDEX_MCP ;;
  j2 <- member LandmarkIndex.MIDDLE_MCP ;;
  j3 <- member LandmarkIndex.RING_MCP ;;
  j4 <- member LandmarkIndex.PINKY_MCP ;;
  mcpJoints <- definedAll [lms !! j1; lms !! j2; lms !! j3; lms !! j4] ;;
  let palmCenter := mkPoint (sumOf px mcpJoints / 4) (sumOf py mcpJoints / 4)
                      (sumOf pz mcpJoints / 4) in
  (* Get fingertips *)
  t1 <- member LandmarkIndex.THUMB_TIP ;;
  t2 <- member LandmarkIndex.INDEX_TIP ;;
  t3 <- member LandmarkIndex.MIDDLE_TIP ;;
  t4 <- member LandmarkIndex.RING_TIP ;;
  t5 <- member LandmarkIndex.PINKY_TIP ;;
  let fingerTips := [lms !! t1; lms !! t2; lms !! t3; lms !! t4; lms !! t5] in
  (* Detect if hand is open *)
  m1 <- member LandmarkIndex.THUMB_MCP ;;
  m2 <- member LandmarkIndex.INDEX_MCP ;;
  m3 <- member LandmarkIndex.MIDDLE_MCP ;;
  m4 <- member LandmarkIndex.RING_MCP ;;
  m5 <- member LandmarkIndex.PINKY_MCP ;;
  isOpen <- everyAbove lms (combine fingerTips [m1; m2; m3; m4; m5]) ;;
  ok (mkProcessedHand flatVector wrist palmCenter fingerTips isOpen).

(** The points stored in [prevLandmarksRef] after a hand is processed
    (lines 194-199 of [onResults]). *)
Definition normalizedPoints (lms : list Point3D) : Result (list Point3D) :=
  iWrist <- member LandmarkIndex.WRIST ;;
  iIndexMcp <- member LandmarkIndex.INDEX_MCP ;;
  iPinkyMcp <- member LandmarkIndex.PINKY_MCP ;;
  d <- distanceOf (lms !! iIndexMcp) (lms !! iPinkyMcp) ;;
  normalizeFrom lms (lms !! iWrist) (if JsNum.truthy d then d else 1 # 10).

(** The body of the loop over the detected hands.  Both computations come
    before the two writes, so a hand either is stored or leaves no trace. *)
Definition onHand (ps : PrevLandmarks * Store) (h : DetectedHand)
    : Result (PrevLandmarks * Store) :=
  let (prev, s) := ps in
  (* MediaPipe labels are mirrored *)
  let isLeft := negb (labelIsLeft h) in
  processedHand <-
    processHand (landmarks h) (if isLeft then Left else Right)
      (if isLeft then prevLeft prev else prevRight prev) ;;
  points <- normalizedPoints (landmarks h) ;;
  ok (if isLeft then
        (mkPrev (Some points) (prevRight prev),
         setLeftHand (Some processedHand) s)
      else
        (mkPrev (prevLeft prev) (Some points),
         setRightHand (Some processedHand) s)).

(** The loop over the detected hands: an exception ends it, and the hands
    stored before stay stored. *)
Fixpoint forHands (hands : list DetectedHand) (ps : PrevLandmarks * Store)
    : option JsError * (PrevLandmarks * Store) :=
  match hands with
  | [] => (None, ps)
  | h :: rest =>
      match onHand ps h with
      | inl e => (Some e, ps)
      | inr ps' => forHands rest ps'
      end
  end.

(** [onResults(results)], without the FPS counter: the exception it
    throws, if any, and the refs and the store as it leaves them. *)
Definition onResults (multiHand : list DetectedHand)
    (ps : PrevLandmarks * Store) : option JsError * (PrevLandmarks * Store) :=
  let (prev, s) := ps in
  match multiHand with
  | [] =>
      (None,
       (mkPrev None None,
        setIsTracking false (setRightHand None (setLeftHand None s))))
  | first :: _ =>
      match forHands multiHand (prev, setIsTracking true s) with
      | (Some e, ps') => (Some e, ps')
      | (None, (prev1, s1)) =>
          (* Clear hands that are no longer detected *)
          (None,
           if (length multiHand =? 1)%nat then
             if labelIsLeft first then
               (mkPrev None (prevRight prev1), setLeftHand None s1)
             else
               (mkPrev (prevLeft prev1) None, setRightHand None s1)
           else (prev1, s1))
      end
  end.

(** The frames of a tracking session, fed to [onResults] in order: what
    each call threw, and the refs and the store at the end. *)
Fixpoint runFrames (frames : list (list DetectedHand))
    (ps : PrevLandmarks * Store)
    : list (option JsError) * (PrevLandmarks * Store) :=
  match frames with
  | [] => ([], ps)
  | f :: rest =>
      let (e, ps1) := onResults f ps in
      let (es, ps2) := runFrames rest ps1 in
      (e :: es, ps2)
  end.

End Tracker.

(** A frame in which MediaPipe found a hand. *)
Definition hasHand (frame : list DetectedHand) : bool :=
  match frame with
  | [] => false
  | _ :: _ => true
  end.

(** What [onResults] throws on a frame, the module being as written. *)
Definition frameError (frame : list DetectedHand) : option JsError :=
  if hasHand frame then Some (ReferenceError "LandmarkIndex") else None.

(** ** The running application

    The engine, the store and the socket hook are driven by callbacks:
    animation frames, timers, user actions and socket events.  A session is
    a sequence of such callbacks. *)

Record App := mkApp {
  world : World;
  client : WsClient
}.

Definition initialApp : App := mkApp initialWorld newWsClient.

Inductive Op :=
| OpInitialize (toneStarts : bool)
| OpDispose (now : Q)
| OpPlayNote (stringIndex fret : Z) (velocity now : Q)
| OpReleaseNote (stringIndex : Z) (now : Q)   (* also the auto-release timer *)
| OpStopAll (now : Q)
| OpSetVolume (volume : Q)
| OpSetMuted (muted : bool)
| OpSetMasterVolume (volume : Q)
| OpStrum (position : Point3D) (timestamp now : Q)
| OpConnect (constructed : bool)               (* also the reconnect timer *)
| OpWsOpen
| OpWsClose
| OpWsMessage (m : ServerMessage).

Definition isResultMessage (o : Op) : bool :=
  match o with
  | OpWsMessage (inference_result _) => true
  | _ => false
  end.

(** A callback that delivers a result with the correction flag on. *)
Definition activatesCorrection (o : Op) : bool :=
  match o with
  | OpWsMessage (inference_result r) => correction_active r
  | _ => false
  end.

(** The recognition result received last in a sequence of callbacks, after
    [earlier]. *)
Definition latestResultAfter (earlier : option InferenceResult)
    (ops : list Op) : option InferenceResult :=
  fold_left
    (fun acc o =>
       match o with
       | OpWsMessage (inference_result r) => Some r
       | _ => acc
       end)
    ops earlier.

Definition latestResult (ops : list Op) : option InferenceResult :=
  latestResultAfter None ops.

(** The override notes received last, after [earlier]: a result without
    [override_notes] leaves those of an earlier result in place. *)
Definition latestNotesAfter (earlier : list Z) (ops : list Op) : list Z :=
  fold_left
    (fun acc o =>
       match o with
       | OpWsMessage (inference_result r) =>
           match override_notes r with
           | Some notes => notes
           | None => acc
           end
       | _ => acc
       end)
    ops earlier.

Definition latestNotes (ops : list Op) : list Z := latestNotesAfter [] ops.

Section Session.

Variable js_sqrt : Q -> Q.
Variable js_pow : Q -> Q -> Q.

Definition step (o : Op) (a : App) : App * option StrumEvent :=
  let w := world a in
  match o with
  | OpInitialize toneStarts =>
      (mkApp (snd (initialize toneStarts w)) (client a), None)
  | OpDispose now => (mkApp (dispose now w) (client a), None)
  | OpPlayNote i fret v now =>
      (mkApp (playNote js_pow i fret v now w) (client a), None)
  | OpReleaseNote i now => (mkApp (releaseNote i now w) (client a), None)
  | OpStopAll now => (mkApp (stopAll now w) (client a), None)
  | OpSetVolume v => (mkApp (setVolume v w) (client a), None)
  | OpSetMuted b => (mkApp (withStore (setMuted b) w) (client a), None)
  | OpSetMasterVolume v =>
      (mkApp (withStore (setMasterVolume v) w) (client a), None)
  | OpStrum p ts now =>
      let (w', ev) := processStrumMovement js_sqrt js_pow p ts now w in
      (mkApp w' (client a), ev)
  | OpConnect constructed =>
      let (c, s) := connect constructed (client a, store w) in
      (mkApp (withStore (fun _ => s) w) c, None)
  | OpWsOpen =>
      let (c, s) := onopen (client a, store w) in
      (mkApp (withStore (fun _ => s) w) c, None)
  | OpWsClose =>
      let '(c, s, _) := onclose (client a, store w) in
      (mkApp (withStore (fun _ => s) w) c, None)
  | OpWsMessage m => (mkApp (withStore (onmessage m) w) (client a), None)
  end.

(** Run a session; the strum events are returned in the order emitted. *)
Fixpoint run (ops : list Op) (a : App) : App * list StrumEvent :=
  match ops with
  | [] => (a, [])
  | o :: rest =>
      let (a1, ev) := step o a in
      let (a2, evs) := run rest a1 in
      (a2, match ev with Some e => e :: evs | None => evs end)
  end.

End Session.

(** The number of voices that are sounding. *)
Definition soundingCount (vs : list StringVoice) : nat :=
  length (filter (fun v => isPlaying v = true) vs).

Definition engineVoices (w : World) : list StringVoice :=
  match state (engine w) with
  | Some st => voices st
  | None => []
  end.

(** A call that releases the envelope of string [i]. *)
Definition isReleaseOf (i : Z) (c : ToneCall) : bool :=
  match c with
  | EnvelopeTriggerRelease j _ => i =? j
  | _ => false
  end.

(** ** Sample data *)

Module Sample.

(** A hand with all landmarks at the wrist except the index knuckle, so
    that the palm width is 1, and the index fingertip at height [y]. *)
Definition hand (y : Q) : list Point3D :=
  [origin; origin; origin; origin; origin;
   mkPoint 1 0 0; origin; origin; mkPoint 0 y 0; origin; origin;
   origin; origin; origin; origin; origin; origin; origin; origin;
   origin; origin].

(** A single hand labelled ['Right'] by MediaPipe: the player's left hand. *)
Definition frame (y : Q) : list DetectedHand := [mkDetectedHand (hand y) false].

(** The index of the fingertip's [y] coordinate in the flat vector. *)
Definition tipY : nat := 25.

Definition cMajorNotes : list Z := [48; 52; 55; 60; 64; 67].

Definition cMajor (timestamp conf : Q) (active : bool) : InferenceResult :=
  mkInferenceResult timestamp "C_Major" conf [0; 3; 2; 0; 1; 0] active
    (Some cMajorNotes).

(** An initialized engine whose strumming hand has not been seen yet. *)
Definition readyState : AudioEngineState :=
  mkEngineState true freshVoices AUDIO_CONFIG.maxGain
    (mkStrumState None 0 0 false).

Definition readyWorld : World := snd (initialize true initialWorld).

Definition readyApp : App := mkApp readyWorld newWsClient.

(** Two positions of the strumming fingertip, 0.3 apart vertically. *)
Definition p0 : Point3D := mkPoint 0 (1 # 2) 0.
Definition p1 : Point3D := mkPoint 0 (8 # 10) 0.

(** The world once the hand has been seen at [p0] at 1000 ms. *)
Definition seededWorld : World :=
  withState
    (Some (withStrumState (mkStrumState (Some p0) 1000 0 false) readyState))
    readyWorld.

(** A session with four samples of the strumming hand: the second and the
    fourth emit an event, the third falls into the debounce interval. *)
Definition session : list Op :=
  [OpStrum p0 1000 1; OpStrum p1 1100 (11 # 10);
   OpStrum p0 1120 (112 # 100); OpStrum p1 1200 (12 # 10)].

(** String 2 is struck at 1 s; ten milliseconds later it is sounding. *)
Definition string2Sounding : World :=
  playNote pow_unit 2 0 1 1 readyWorld.

(** A session in which a recognition result (time stamp 0) arrives first
    and the hand strums more than a second later. *)
Definition lateSession : list Op :=
  OpInitialize true
    :: OpWsMessage (inference_result (cMajor 0 (92 # 100) true))
    :: session.

(** The same session, followed a minute later by another sample of the
    hand. *)
Definition minuteLater : list Op :=
  lateSession ++ [OpStrum p1 59900 (599 # 10)].

(** A session in which the recognizer is never reached: the socket closes
    over and over while the hand strums. *)
Definition offlineSession : list Op :=
  [OpInitialize true; OpConnect true; OpWsClose; OpConnect true; OpWsClose]
    ++ session
    ++ [OpWsMessage (inference_error "ERR_WS_002" "unreachable")].

(** The session that leads there. *)
Definition strikeString2 : list Op := [OpInitialize true; OpPlayNote 2 0 1 1].

(** The event of a strum from [p0] to [p1] in 100 ms: speed 3, string 1. *)
Definition ev1 : StrumEvent := mkStrumEvent 1100 1 0 1 down.

End Sample.

(** ** Well-formed engine states *)

(** The shape [initialize] gives the engine: a live state with one voice per
    string of [GUITAR_TUNING]. *)
Definition engineOk (w : World) : Prop :=
  forall st, state (engine w) = Some st ->
    isInitialized st = true /\ length (voices st) = length GUITAR_TUNING.

(** The strings marked active in the store are strings of the guitar. *)
Definition activeOk (w : World) : Prop :=
  forall i, i ∈ activeStrings (store w) -> 0 <= i <= 5.

Definition schedulerInv (w : World) : Prop := engineOk w /\ activeOk w.

(** ** Further operations of the cited files *)

(** *** [systems/AudioEngine.ts]: [playChord] *)

(** One [setTimeout(() => this.playNote(stringIndex, fret, velocity), delay)]
    set by [playChord]. *)
Record ChordCall := mkChordCall {
  callString : Z;
  callFret : Z;
  callVelocity : Q;
  callDelay : Q
}.

(** The body of [fingering.forEach((fret, stringIndex) => ...)], from
    index [stringIndex] on. *)
Fixpoint chordCalls (stringIndex : Z) (fingering : list Z) (velocity : Q)
    : list ChordCall :=
  match fingering with
  | [] => []
  | fret :: rest =>
      if 0 <=? fret then
        mkChordCall stringIndex fret velocity (inject_Z stringIndex * 20)
          :: chordCalls (stringIndex + 1) rest velocity
      else chordCalls (stringIndex + 1) rest velocity
  end.

(** [playChord(fingering, velocity)]: the timers it sets, in the order set. *)
Definition playChord (fingering : list Z) (velocity : Q) (w : World)
    : list ChordCall :=
  match liveState (engine w) with
  | None => []
  | Some _ => chordCalls 0 fingering velocity
  end.

Section ChordTimers.

Variable js_pow : Q -> Q -> Q.

(** The timers of a chord fire in the order of their delays, which is the
    order they were set in; [times i] is the reading of [Tone.now()] when
    the timer of string [i] fires. *)
Definition fireChord (times : Z -> Q) (calls : list ChordCall) (w : World)
    : World :=
  fold_left
    (fun acc c =>
       playNote js_pow (callString c) (callFret c) (callVelocity c)
         (times (callString c)) acc)
    calls w.

End ChordTimers.

(** *** [systems/AudioEngine.ts]: the effect of [useAudioEngine] *)

Section StrumEffect.

Variable js_sqrt : Q -> Q.
Variable js_pow : Q -> Q -> Q.

(** The effect that runs when [rightHand] changes: the index fingertip,
    [fingerTips[1]], is fed to [processStrumMovement].  [timestamp] is the
    reading of [performance.now()]. *)
Definition strumEffect (timestamp now : Q) (w : World)
    : World * option StrumEvent :=
  if negb (audioInitialized (store w)) then (w, None)
  else
    match rightHand (store w) with
    | None => (w, None)
    | Some hand =>
        match fingerTips hand !! 1%nat with
        | Some (Some indexTip) =>
            processStrumMovement js_sqrt js_pow indexTip timestamp now w
        | _ => (w, None)
        end
    end.

End StrumEffect.

(** *** [hooks/useWebSocket.ts]: [disconnect] and [sendInference] *)

(** [disconnect()]: the pending reconnect timer is cleared and the socket
    closed and dropped. *)
Definition disconnect (cs : WsClient * Store) : WsClient * Store :=
  let (c, s) := cs in
  (mkWsClient None (reconnectAttempts c) None, setWsConnected false s).

(** [sendInference(request)]: what is handed to [ws.send], if anything. *)
Definition sendInference {Request : Type} (request : Request) (c : WsClient)
    : option Request :=
  match wsRef c with
  | Some OPEN => Some request
  | _ => None
  end.

(** *** [config/constants.ts]: the chord table, and its use in the HUD *)

Definition NUM_FRETS : Z := 12.

(** [CHORD_DATABASE]: chord name to [(fingering, notes)]. *)
Definition CHORD_DATABASE : gmap string (list Z * list Z) :=
  list_to_map
    [("C_Major", ([0; 3; 2; 0; 1; 0], [48; 52; 55; 60; 64; 67]));
     ("C_Minor", ([3; 3; 5; 5; 4; 3], [48; 51; 55; 60; 63; 67]));
     ("D_Major", ([-1; -1; 0; 2; 3; 2], [50; 54; 57; 62; 66; 69]));
     ("D_Minor", ([-1; -1; 0; 2; 3; 1], [50; 53; 57; 62; 65; 69]));
     ("E_Major", ([0; 2; 2; 1; 0; 0], [40; 47; 52; 56; 59; 64]));
     ("E_Minor", ([0; 2; 2; 0; 0; 0], [40; 47; 52; 55; 59; 64]));
     ("F_Major", ([1; 3; 3; 2; 1; 1], [41; 48; 53; 57; 60; 65]));
     ("G_Major", ([3; 2; 0; 0; 0; 3], [43; 47; 50; 55; 59; 67]));
     ("G_Minor", ([3; 5; 5; 3; 3; 3], [43; 46; 50; 55; 58; 67]));
     ("A_Major", ([0; 0; 2; 2; 2; 0], [45; 52; 57; 61; 64; 69]));
     ("A_Minor", ([0; 0; 2; 2; 1; 0], [45; 52; 57; 60; 64; 69]));
     ("B_Major", ([-1; 2; 4; 4; 4; 2], [47; 54; 59; 63; 66; 71]));
     ("B_Minor", ([-1; 2; 4; 4; 3; 2], [47; 54; 59; 62; 66; 71]))].

(** [components/UI/HUD.tsx]:
    [CHORD_DATABASE[currentChord]?.fingering || [0, 0, 0, 0, 0, 0]]. *)
Definition hudFingering (currentChord : string) : list Z :=
  match CHORD_DATABASE !! currentChord with
  | Some (fingering, _) => fingering
  | None => [0; 0; 0; 0; 0; 0]
  end.




(** ** Observations used in the statements below *)

(** What the recognizer last told the client: the four store fields that
    [ws.onmessage] writes. *)
Definition aiState (s : Store)
    : bool * list Z * string * option InferenceResult :=
  (correctionActive s, overrideNotes s, currentChord s, lastInferenceResult s).

(** The store's active strings are exactly the strings whose voice is
    playing. *)
Definition activeMirrorsVoices (w : World) : Prop :=
  forall i,
    i ∈ activeStrings (store w) <->
    exists voice,
      voiceAt (engineVoices w) i = Some voice /\ isPlaying voice = true.

(** The release calls in a log. *)
Definition isRelease (c : ToneCall) : bool :=
  match c with
  | EnvelopeTriggerRelease _ _ => true
  | _ => false
  end.

(** The attack calls in a log. *)
Definition isAttack (c : ToneCall) : bool :=
  match c with
  | SynthTriggerAttack _ _ _ => true
  | EnvelopeTriggerAttack _ _ => true
  | _ => false
  end.

(** The store fields the audio engine never writes: it only touches the
    active strings, the last strum event and the initialized flag. *)
Definition engineFrame (s s' : Store) : Prop :=
  leftHand s' = leftHand s /\ rightHand s' = rightHand s /\
  isTracking s' = isTracking s /\ isMuted s' = isMuted s /\
  masterVolume s' = masterVolume s /\
  correctionActive s' = correctionActive s /\
  currentChord s' = currentChord s /\ overrideNotes s' = overrideNotes s /\
  wsConnected s' = wsConnected s /\
  lastInferenceResult s' = lastInferenceResult s /\ error s' = error s.

(** [initialize] as the hook [useAudioEngine] exposes it: guarded by the
    store's [isInitialized] flag. *)
Definition hookInitialize (toneStarts : bool) (w : World) : World :=
  if audioInitialized (store w) then w else snd (initialize toneStarts w).

(** A call of [initialize] that finds [Tone.start()] to succeed. *)
Definition startsEngine (o : Op) : bool :=
  match o with
  | OpInitialize true => true
  | _ => false
  end.

(** The engine has no state and has left no trace: no Tone.js call, no
    timer, no active string, no strum event, and the store's flag is off. *)
Definition engineInert (w : World) : Prop :=
  state (engine w) = None /\ audioInitialized (store w) = false /\
  tone w = [] /\ timers w = [] /\ activeStrings (store w) = ∅ /\
  lastStrumEvent (store w) = None.

(** An engine state goes with the store's initialized flag. *)
Definition engineAnnounced (w : World) : Prop :=
  state (engine w) <> None -> audioInitialized (store w) = true.

(** [w'] has the store's initialized flag of [w], and an engine state
    exactly when [w] has one. *)
Definition engineKept (w w' : World) : Prop :=
  audioInitialized (store w') = audioInitialized (store w) /\
  (state (engine w') = None <-> state (engine w) = None).

(** The store fields the tracker never writes: all but the two hands and
    the tracking flag. *)
Definition trackerFrame (s s' : Store) : Prop :=
  audioInitialized s' = audioInitialized s /\ isMuted s' = isMuted s /\
  masterVolume s' = masterVolume s /\
  activeStrings s' = activeStrings s /\
  lastStrumEvent s' = lastStrumEvent s /\
  aiState s' = aiState s /\
  wsConnected s' = wsConnected s /\ error s' = error s.

(** A number lies in the unit interval. *)
Definition inUnit (x : Q) : Prop := (0 <= x)%Q /\ (x <= 1)%Q.

(** The engine's own operations, as session steps. *)
Definition isEngineOp (o : Op) : bool :=
  match o with
  | OpInitialize _ | OpDispose _ | OpPlayNote _ _ _ _ | OpReleaseNote _ _
  | OpStopAll _ | OpSetVolume _ | OpStrum _ _ _ => true
  | _ => false
  end.

(** A property holds of the engine state, if there is one. *)
Definition holdsOfEngineState (P : AudioEngineState -> Prop) (w : World)
    : Prop :=
  forall st, state (engine w) = Some st -> P st.

(** ** Further sample data *)

Module Scenario.

(** The idle voice [initialize] builds. *)
Definition idleVoice : StringVoice := mkVoice false 0 (1 # 2).

(** A seeded engine with the store muted. *)
Definition mutedWorld : World := withStore (setMuted true) Sample.seededWorld.

(** The D major shape: the two low strings are muted. *)
Definition dMajor : list Z := [-1; -1; 0; 2; 3; 2].

(** The timer of string [i] fires 20 ms after that of string [i - 1],
    starting one second into the audio clock. *)
Definition strumTimes (i : Z) : Q := (1 + inject_Z i * (2 # 100))%Q.

(** The application after a result that activates correction. *)
Definition correctedApp : App :=
  mkApp
    (withStore
       (onmessage (inference_result (Sample.cMajor 0 (92 # 100) true)))
       Sample.readyWorld)
    newWsClient.

(** Engine operations only: a note, a strum, silence, disposal. *)
Definition engineSession : list Op :=
  [OpInitialize true; OpPlayNote 2 0 1 1; OpStrum Sample.p0 1000 2;
   OpStrum Sample.p1 1100 (21 # 10); OpSetVolume (1 # 2); OpReleaseNote 2 3;
   OpStopAll 4; OpDispose 5].

(** The connection is lost for good while the player keeps strumming. *)
Definition lossSession : list Op :=
  [OpConnect true; OpWsClose; OpConnect true; OpWsClose; OpConnect true;
   OpWsClose; OpConnect true; OpWsClose; OpConnect true; OpWsClose;
   OpConnect true; OpWsClose;
   OpWsMessage (inference_error "ERR_WS_002" "unreachable");
   OpSetMuted false; OpStopAll 1]
  ++ Sample.session.

(** A result that activates correction but carries no notes. *)
Definition gMajorWithoutNotes : InferenceResult :=
  mkInferenceResult 10 "G_Major" (95 # 100) [3; 2; 0; 0; 0; 3] true None.

End Scenario.

(** * Properties *)

(** ** Comparisons on numbers *)

Module JsNumFacts.

Lemma leb_le a b : JsNum.leb a b = true <-> (a <= b)%Q.
Proof. unfold JsNum.leb. apply Qle_bool_iff. Qed.

Lemma leb_gt a b : JsNum.leb a b = false <-> (b < a)%Q.
Proof.
  unfold JsNum.leb. split; intros H.
  - apply Qnot_le_lt. intros Hle. apply Qle_bool_iff in Hle. congruence.
  - destruct (Qle_bool a b) eqn:E; [|reflexivity].
    apply Qle_bool_iff in E. apply Qlt_not_le in H. contradiction.
Qed.

Lemma ltb_lt a b : JsNum.ltb a b = true <-> (a < b)%Q.
Proof. unfold JsNum.ltb. rewrite negb_true_iff. apply leb_gt. Qed.

Lemma ltb_ge a b : JsNum.ltb a b = false <-> (b <= a)%Q.
Proof. unfold JsNum.ltb. rewrite negb_false_iff. apply leb_le. Qed.

Lemma min_le_l a b : (JsNum.min a b <= a)%Q.
Proof.
  unfold JsNum.min. destruct (JsNum.leb a b) eqn:E.
  - apply Qle_refl.
  - apply leb_gt in E. apply Qlt_le_weak, E.
Qed.

Lemma max_ge_l a b : (a <= JsNum.max a b)%Q.
Proof.
  unfold JsNum.max. destruct (JsNum.leb a b) eqn:E.
  - apply leb_le, E.
  - apply Qle_refl.
Qed.

Lemma max_le a b c : (a <= c)%Q -> (b <= c)%Q -> (JsNum.max a b <= c)%Q.
Proof. unfold JsNum.max. destruct (JsNum.leb a b); auto. Qed.

(** [clamp] lands between its bounds when they are ordered. *)
Lemma clamp_bounds v lo hi :
  (lo <= hi)%Q -> (lo <= clamp v lo hi)%Q /\ (clamp v lo hi <= hi)%Q.
Proof.
  intros H. unfold clamp. split.
  - apply max_ge_l.
  - apply max_le; [exact H | apply min_le_l].
Qed.

Lemma clampZ_bounds v lo hi :
  lo <= hi -> lo <= clampZ v lo hi <= hi.
Proof. unfold clampZ. lia. Qed.

(** Elapsed milliseconds and elapsed seconds have the same sign. *)
Lemma seconds_nonpos x : JsNum.leb (x / 1000) 0 = true <-> (x <= 0)%Q.
Proof.
  rewrite leb_le. unfold Qdiv. change (/ 1000)%Q with (1 # 1000)%Q.
  split; intros H; lra.
Qed.

End JsNumFacts.

(** ** The outcomes of [connect] and [initialize] *)

(** [connect] keeps everything, or installs a connecting socket, or records
    that the socket could not be constructed. *)
Lemma connect_cases constructed c s :
  connect constructed (c, s) = (c, s) \/
  connect constructed (c, s)
    = (mkWsClient (Some CONNECTING) (reconnectAttempts c) (reconnectTimeout c),
       s) \/
  connect constructed (c, s)
    = (c, setError (Some connectionFailedMessage) s).
Proof.
  unfold connect. destruct (wsRef c) as [[]|], constructed; auto.
Qed.

(** [initialize] keeps the world, or installs the fresh engine state and
    sets the store's flag. *)
Lemma initialize_cases toneStarts w :
  snd (initialize toneStarts w) = w \/
  liveState (engine w) = None /\
  snd (initialize toneStarts w) =
    withStore (setAudioInitialized true)
      (withState
         (Some (mkEngineState true freshVoices AUDIO_CONFIG.maxGain
                  (mkStrumState None 0 0 false))) w).
Proof.
  unfold initialize. destruct (liveState (engine w)); [left; reflexivity|].
  destruct toneStarts; [right; split; reflexivity | left; reflexivity].
Qed.


(** ** Strum detection: [processStrumMovement] *)

Section StrumProperties.

Variable js_sqrt : Q -> Q.
Variable js_pow : Q -> Q -> Q.

Local Notation "'strum'" := (processStrumMovement js_sqrt js_pow).

(** Without an engine state nothing happens. *)
Lemma strum_without_state p ts now w :
  state (engine w) = None -> strum p ts now w = (w, None).
Proof. intros H. unfold processStrumMovement. rewrite H. reflexivity. Qed.


(** What a sample does once the hand has been seen before and time has
    advanced: the strum state is updated, and an event is emitted exactly
    when the speed exceeds the threshold outside the debounce interval. *)
Lemma strum_inversion p ts now w ev :
  snd (strum p ts now w) = Some ev ->
  exists st lastPos,
    state (engine w) = Some st /\
    lastPosition (strumState st) = Some lastPos /\
    (0 < ts - lastTimestamp (strumState st))%Q /\
    let movement := subtract p lastPos in
    let speed :=
      (magnitude js_sqrt movement
         / ((ts - lastTimestamp (strumState st)) / 1000))%Q in
    (STRUM_SPEED_THRESHOLD < speed)%Q /\
    (STRUM_DEBOUNCE_MS <= ts - lastStrumTime (engine w))%Q /\
    ev = mkStrumEvent ts
           (clampZ (JsNum.floor ((1 - py p) * 6)) 0 5)
           (resolveFret (store w)
              (clampZ (JsNum.floor ((1 - py p) * 6)) 0 5))
           (clamp (speed / STRUM_SPEED_MAX) 0 1)
           (if JsNum.ltb 0 (py movement) then down else up) /\
    fst (strum p ts now w) =
      playNote js_pow (stringIndex ev) (fretIndex ev) (velocity ev) now
        (mkWorld
           (mkEngine
              (Some (withStrumState
                       (mkStrumState (Some p) ts speed
                          (isStrumming (strumState st))) st)) ts)
           (setLastStrumEvent (Some ev) (store w)) (tone w) (timers w)).
Proof.
  unfold processStrumMovement.
  destruct (state (engine w)) as [st|] eqn:Hst; [|discriminate].
  destruct (lastPosition (strumState st)) as [lastPos|] eqn:Hlast;
    [|discriminate].
  destruct (JsNum.leb _ 0) eqn:Hdt; [discriminate|].
  destruct (JsNum.ltb STRUM_SPEED_THRESHOLD _) eqn:Hspeed; [|discriminate].
  destruct (JsNum.ltb _ STRUM_DEBOUNCE_MS) eqn:Hdeb; [discriminate|].
  cbn [fst snd]. intros [= <-].
  exists st, lastPos.
  split; [reflexivity|]. split; [exact Hlast|]. split.
  { destruct (Qlt_le_dec 0 (ts - lastTimestamp (strumState st))) as [H|H];
      [exact H|].
    apply JsNumFacts.seconds_nonpos in H. congruence. }
  cbv zeta. split; [apply JsNumFacts.ltb_lt, Hspeed|].
  split; [apply JsNumFacts.ltb_ge, Hdeb|].
  split; reflexivity.
Qed.

(** A scaled position is cut into six bands of width 1; what lies below
    the first band or above the last is taken into it. *)
Lemma string_band (x : Q) (k : Z) :
  0 <= k <= 5 ->
  (inject_Z k <= x)%Q -> (x < inject_Z (k + 1))%Q ->
  clampZ (JsNum.floor x) 0 5 = k.
Proof.
  intros Hk Hlo Hhi. unfold JsNum.floor.
  assert (Qfloor x = k) as ->.
  { pose proof (Qfloor_le x) as H1.
    pose proof (Qlt_floor x) as H2.
    assert (inject_Z (Qfloor x) < inject_Z (k + 1))%Q as H3
      by (eapply Qle_lt_trans; eassumption).
    assert (inject_Z k < inject_Z (Qfloor x + 1))%Q as H4
      by (eapply Qle_lt_trans; eassumption).
    rewrite <- Zlt_Qlt in H3, H4. lia. }
  unfold clampZ. lia.
Qed.

Lemma string_band_below (x : Q) : (x < 0)%Q -> clampZ (JsNum.floor x) 0 5 = 0.
Proof.
  intros Hx. unfold JsNum.floor.
  pose proof (Qfloor_le x) as H1.
  assert (inject_Z (Qfloor x) < inject_Z 0)%Q as H2
    by (eapply Qle_lt_trans; eassumption).
  rewrite <- Zlt_Qlt in H2. unfold clampZ. lia.
Qed.

Lemma string_band_above (x : Q) : (6 <= x)%Q -> clampZ (JsNum.floor x) 0 5 = 5.
Proof.
  intros Hx. unfold JsNum.floor.
  pose proof (Qlt_floor x) as H1.
  assert (inject_Z 6 < inject_Z (Qfloor x + 1))%Q as H2
    by (eapply Qle_lt_trans; eassumption).
  rewrite <- Zlt_Qlt in H2. unfold clampZ. lia.
Qed.

(** The value of [clamp] to the unit interval. *)
Lemma clamp_unit (x : Q) :
  ((x <= 0)%Q -> (clamp x 0 1 == 0)%Q) /\
  ((0 <= x)%Q -> (x <= 1)%Q -> (clamp x 0 1 == x)%Q) /\
  ((1 <= x)%Q -> (clamp x 0 1 == 1)%Q).
Proof.
  unfold clamp, JsNum.max, JsNum.min.
  destruct (JsNum.leb 1 x) eqn:E1.
  - apply JsNumFacts.leb_le in E1.
    change (JsNum.leb 0 1) with true. cbv iota.
    repeat split; intros; lra.
  - apply JsNumFacts.leb_gt in E1.
    destruct (JsNum.leb 0 x) eqn:E0.
    + apply JsNumFacts.leb_le in E0. repeat split; intros; lra.
    + apply JsNumFacts.leb_gt in E0. repeat split; intros; lra.
Qed.

(** The calls [playNote] issues: none, or the gain, the synth attack at the
    fretted pitch and the envelope attack, on the voice of its string. *)
Lemma playNote_tone i fret v now w :
  tone (playNote js_pow i fret v now w) = tone w \/
  exists g,
    tone (playNote js_pow i fret v now w) =
      tone w ++
        [GainSetValueAtTime i g now;
         SynthTriggerAttack i
           (getFrettedMidi (nth (Z.to_nat i) GUITAR_TUNING 0) fret) now;
         EnvelopeTriggerAttack i now].
Proof.
  unfold playNote.
  destruct (liveState (engine w)) as [st|]; [|left; reflexivity].
  destruct (_ || _); [left; reflexivity|].
  destruct (voiceAt (voices st) i) as [voice|]; [|left; reflexivity].
  destruct (JsNum.ltb _ _); [left; reflexivity|].
  destruct (_ <? 0); [left; reflexivity|].
  destruct (isMuted (store w)); [left; reflexivity|].
  right. eexists. reflexivity.
Qed.

(** C10: when AI correction is not active, or the override notes do not
    cover the struck string, the event carries fret 0, and the note
    triggered, if any, is the open-string pitch of the struck string. *)
Theorem fallback_fret_is_open_string :
  forall (p : Point3D) (ts now : Q) (w : World) (ev : StrumEvent),
    snd (strum p ts now w) = Some ev ->
    correctionActive (store w) = false \/
      Z.of_nat (length (overrideNotes (store w))) <= stringIndex ev ->
    fretIndex ev = 0 /\
    (tone (fst (strum p ts now w)) = tone w \/
     exists g,
       tone (fst (strum p ts now w)) =
         tone w ++
           [GainSetValueAtTime (stringIndex ev) g now;
            SynthTriggerAttack (stringIndex ev)
              (nth (Z.to_nat (stringIndex ev)) GUITAR_TUNING 0) now;
            EnvelopeTriggerAttack (stringIndex ev) now]).
Proof.
  intros p ts now w ev Hev Hoff.
  destruct (strum_inversion _ _ _ _ _ Hev)
    as (st & lastPos & _ & _ & _ & _ & _ & Heq & Hfst).
  cbv zeta in *.
  assert (fretIndex ev = 0) as Hfret.
  { rewrite Heq in Hoff |- *. cbn in *. unfold resolveFret.
    destruct Hoff as [-> | Hlen]; [reflexivity|].
    apply Z.ltb_ge in Hlen. rewrite Hlen, andb_false_r. reflexivity. }
  split; [exact Hfret|].
  rewrite Hfst, Hfret.
  match goal with
  | |- context [playNote js_pow ?i 0 ?v now ?w0] =>
      destruct (playNote_tone i 0 v now w0) as [H | [g H]]
  end.
  - left. exact H.
  - right. exists g. rewrite H. cbn [tone].
    unfold getFrettedMidi. change (0 <? 0) with false. cbv iota.
    rewrite Z.add_0_r. reflexivity.
Qed.

End StrumProperties.


(** The same strum, with the store in its default state: correction is not
    active and the fret is 0. *)
Lemma fallback_fret_is_open_string_witness :
  snd (processStrumMovement sqrt_exact pow_unit Sample.p1 1100 1
         Sample.seededWorld) = Some Sample.ev1 /\
  correctionActive (store Sample.seededWorld) = false /\
  fretIndex Sample.ev1 = 0 /\
  exists g,
    (g == 72 # 100)%Q /\
    tone (fst (processStrumMovement sqrt_exact pow_unit Sample.p1 1100 1
                 Sample.seededWorld)) =
      [GainSetValueAtTime 1 g 1;
       SynthTriggerAttack 1 45 1; EnvelopeTriggerAttack 1 1].
Proof.
  assert (snd (processStrumMovement sqrt_exact pow_unit Sample.p1 1100 1
                 Sample.seededWorld) = Some Sample.ev1) as Hev
    by (vm_compute; reflexivity).
  split; [exact Hev|]. split; [reflexivity|].
  split.
  - exact (proj1 (fallback_fret_is_open_string sqrt_exact pow_unit
                    Sample.p1 1100 1 Sample.seededWorld Sample.ev1 Hev
                    (or_introl eq_refl))).
  - eexists. split; [|vm_compute; reflexivity]. reflexivity.
Defined.

(** ** Strum events in double arithmetic *)

Section DoubleStrum.

Variable fl : Q -> Q.
Variable js_sqrt : Q -> Q.
Variable js_pow : Q -> Q -> Q.

Local Notation "'strum'" := (Double.processStrumMovement fl js_sqrt js_pow).

(** What the sample computes on the way to an event. *)
Local Notation "'elapsed' ts st" :=
  (fl (fl (ts - lastTimestamp (strumState st)) / 1000))
  (at level 10, ts at level 9, st at level 9).
Local Notation "'speedOf' p lastPos ts st" :=
  (fl (Double.magnitude fl js_sqrt (Double.subtract fl p lastPos)
       / elapsed ts st))
  (at level 10, p at level 9, lastPos at level 9, ts at level 9,
   st at level 9).

(** An event is emitted only by a sample that finds the hand seen before,
    time advanced, the speed above the threshold and the debounce interval
    over, and its fields are computed from the sample as follows. *)
Lemma double_strum_inversion p ts now w ev :
  snd (strum p ts now w) = Some ev ->
  exists st lastPos,
    state (engine w) = Some st /\
    lastPosition (strumState st) = Some lastPos /\
    (0 < elapsed ts st)%Q /\
    (fl STRUM_SPEED_THRESHOLD < speedOf p lastPos ts st)%Q /\
    (STRUM_DEBOUNCE_MS <= fl (ts - lastStrumTime (engine w)))%Q /\
    ev = mkStrumEvent ts
           (clampZ (JsNum.floor (fl (fl (1 - py p) * 6))) 0 5)
           (resolveFret (store w)
              (clampZ (JsNum.floor (fl (fl (1 - py p) * 6))) 0 5))
           (clamp (fl (speedOf p lastPos ts st / fl STRUM_SPEED_MAX)) 0 1)
           (if JsNum.ltb 0 (fl (py p - py lastPos)) then down else up).
Proof.
  unfold Double.processStrumMovement.
  destruct (state (engine w)) as [st|] eqn:Hst; [|discriminate].
  destruct (lastPosition (strumState st)) as [lastPos|] eqn:Hlast;
    [|discriminate].
  destruct (JsNum.leb _ 0) eqn:Hdt; [discriminate|].
  destruct (JsNum.ltb (fl STRUM_SPEED_THRESHOLD) _) eqn:Hspeed;
    [|discriminate].
  destruct (JsNum.ltb _ STRUM_DEBOUNCE_MS) eqn:Hdeb; [discriminate|].
  cbn [fst snd]. intros [= <-].
  exists st, lastPos.
  split; [reflexivity|]. split; [exact Hlast|].
  split; [apply JsNumFacts.leb_gt, Hdt|].
  split; [apply JsNumFacts.ltb_lt, Hspeed|].
  split; [apply JsNumFacts.ltb_ge, Hdeb|].
  reflexivity.
Qed.

(** A qualifying sample does emit an event. *)
Lemma double_strum_qualifying p ts now w st lastPos :
  state (engine w) = Some st ->
  lastPosition (strumState st) = Some lastPos ->
  (0 < elapsed ts st)%Q ->
  (fl STRUM_SPEED_THRESHOLD < speedOf p lastPos ts st)%Q ->
  (STRUM_DEBOUNCE_MS <= fl (ts - lastStrumTime (engine w)))%Q ->
  exists ev, snd (strum p ts now w) = Some ev.
Proof.
  intros Hst Hlast Hdt Hspeed Hdeb. unfold Double.processStrumMovement.
  rewrite Hst, Hlast.
  apply JsNumFacts.leb_gt in Hdt. rewrite Hdt.
  apply JsNumFacts.ltb_lt in Hspeed. rewrite Hspeed.
  apply JsNumFacts.ltb_ge in Hdeb. rewrite Hdeb.
  eexists. reflexivity.
Qed.

(** C8: in double arithmetic, with [fl] the rounding of each operation.  A
    qualifying sample (the hand seen before, the elapsed time positive, the
    speed as computed above the threshold, the debounce interval over)
    emits an event.  Every emitted event carries the time stamp of the
    sample and the velocity [clamp(speed / STRUM_SPEED_MAX, 0, 1)]: the
    ratio as computed when that lies in [0,1], 1 when it is larger and 0
    when it is negative, so within [0,1] in every case.  Its string index
    is the floor of the position scaled to six bands, [(1 - y) * 6] as
    computed, clamped to [0,5]: string [k] when the scaled position lies in
    [[k, k+1)], string 0 below and string 5 above.  Its direction is [down]
    when the vertical displacement since the previous sample, as computed,
    is positive, and [up] otherwise. *)
Theorem strum_event_velocity_string_direction :
  forall (p : Point3D) (ts now : Q) (w : World),
    (forall st lastPos,
       state (engine w) = Some st ->
       lastPosition (strumState st) = Some lastPos ->
       (0 < elapsed ts st)%Q ->
       (fl STRUM_SPEED_THRESHOLD < speedOf p lastPos ts st)%Q ->
       (STRUM_DEBOUNCE_MS <= fl (ts - lastStrumTime (engine w)))%Q ->
       exists ev, snd (strum p ts now w) = Some ev)
    /\
    (forall ev,
       snd (strum p ts now w) = Some ev ->
       exists st lastPos,
         state (engine w) = Some st /\
         lastPosition (strumState st) = Some lastPos /\
         let speed := speedOf p lastPos ts st in
         let ratio := fl (speed / fl STRUM_SPEED_MAX) in
         let scaled := fl (fl (1 - py p) * 6) in
         let dy := fl (py p - py lastPos) in
         (fl STRUM_SPEED_THRESHOLD < speed)%Q /\
         timestamp ev = ts /\
         velocity ev = clamp ratio 0 1 /\
         (0 <= velocity ev)%Q /\ (velocity ev <= 1)%Q /\
         ((ratio <= 0)%Q -> (velocity ev == 0)%Q) /\
         ((0 <= ratio)%Q -> (ratio <= 1)%Q -> (velocity ev == ratio)%Q) /\
         ((1 <= ratio)%Q -> (velocity ev == 1)%Q) /\
         stringIndex ev = clampZ (JsNum.floor scaled) 0 5 /\
         0 <= stringIndex ev <= 5 /\
         (forall k, 0 <= k <= 5 ->
            (inject_Z k <= scaled)%Q -> (scaled < inject_Z (k + 1))%Q ->
            stringIndex ev = k) /\
         ((scaled < 0)%Q -> stringIndex ev = 0) /\
         ((6 <= scaled)%Q -> stringIndex ev = 5) /\
         (direction ev = down <-> (0 < dy)%Q) /\
         (direction ev = up <-> (dy <= 0)%Q)).
Proof.
  intros p ts now w. split.
  - intros st lastPos. apply double_strum_qualifying.
  - intros ev Hev.
    destruct (double_strum_inversion _ _ _ _ _ Hev)
      as (st & lastPos & Hst & Hlast & _ & Hspeed & _ & Heq).
    exists st, lastPos. split; [exact Hst|]. split; [exact Hlast|].
    cbv zeta. split; [exact Hspeed|]. subst ev. cbn.
    split; [reflexivity|]. split; [reflexivity|].
    split; [apply JsNumFacts.clamp_bounds; discriminate|].
    split; [apply JsNumFacts.clamp_bounds; discriminate|].
    split; [apply clamp_unit|]. split; [apply clamp_unit|].
    split; [apply clamp_unit|].
    split; [reflexivity|].
    split; [apply JsNumFacts.clampZ_bounds; lia|].
    split; [intros k; apply string_band|].
    split; [apply string_band_below|]. split; [apply string_band_above|].
    destruct (JsNum.ltb 0 (fl (py p - py lastPos))) eqn:E.
    + apply JsNumFacts.ltb_lt in E. split; split; try tauto; try discriminate.
      intros H. apply Qlt_not_le in E. contradiction.
    + apply JsNumFacts.ltb_ge in E. split; split; try tauto; try discriminate.
      intros H. apply Qlt_not_le in H. contradiction.
Qed.

End DoubleStrum.

(** Without rounding the engine on doubles is the engine on exact
    numbers. *)
Lemma double_without_rounding js_sqrt js_pow p ts now w :
  Double.processStrumMovement (fun x => x) js_sqrt js_pow p ts now w
  = processStrumMovement js_sqrt js_pow p ts now w.
Proof. reflexivity. Qed.

(** [Binary64.round] at the constants of the engine: [0.15] and [0.8] are
    not doubles, [0.25] and [1000] are. *)
Lemma binary64_constants :
  Binary64.round STRUM_SPEED_THRESHOLD
    = 5404319552844595 # 36028797018963968 /\
  Binary64.round STRUM_SPEED_MAX = 3602879701896397 # 4503599627370496 /\
  Binary64.round (1 # 4) = 1 # 4 /\ Binary64.round 1000 = 1000%Q.
Proof. repeat split; vm_compute; reflexivity. Qed.

(** Rounding decides at the edge of a band.  For the double [y] just above
    1/6, the exact [(1 - y) * 6] lies just below 5, in the band of string 4;
    computed in doubles it is 5, and the string struck is string 5. *)
Lemma rounding_decides_at_band_edge :
  let y := 750599937895083 # 4503599627370496 in
  Binary64.round y = y /\
  ((1 - y) * 6 < 5)%Q /\
  clampZ (JsNum.floor ((1 - y) * 6)) 0 5 = 4 /\
  (Binary64.round (Binary64.round (1 - y) * 6) == 5)%Q /\
  clampZ (JsNum.floor (Binary64.round (Binary64.round (1 - y) * 6))) 0 5 = 5.
Proof. cbv zeta. repeat split; vm_compute; reflexivity. Qed.

(** A strum in doubles: from [p0] (height 0.5) at 1000 ms to height 0.75 at
    2000 ms.  The speed is 0.25, above the threshold; the event has velocity
    [0.25 / 0.8], which is the double 0.3125, string 1 (scaled position
    1.5) and direction [down]. *)
Lemma strum_event_velocity_string_direction_witness :
  exists ev,
    snd (Double.processStrumMovement Binary64.round sqrt_exact pow_unit
           (mkPoint 0 (3 # 4) 0) 2000 2 Sample.seededWorld) = Some ev /\
    timestamp ev = 2000%Q /\
    (velocity ev == 5 # 16)%Q /\
    stringIndex ev = 1 /\
    direction ev = down.
Proof.
  destruct (strum_event_velocity_string_direction Binary64.round sqrt_exact
              pow_unit (mkPoint 0 (3 # 4) 0) 2000 2 Sample.seededWorld)
    as [Hemit Hfields].
  destruct (Hemit _ Sample.p0 eq_refl eq_refl) as [ev Hev];
    [vm_compute; reflexivity | vm_compute; reflexivity
    | vm_compute; discriminate |].
  destruct (Hfields ev Hev)
    as (st & lastPos & Hst & Hlast & _ & Hts & _ & _ & _ & _ & Hin & _ & _
          & _ & Hband & _ & _ & Hdown & _).
  change (state (engine Sample.seededWorld)) with
    (Some (withStrumState (mkStrumState (Some Sample.p0) 1000 0 false)
             Sample.readyState)) in Hst.
  injection Hst as <-. cbn in Hlast. injection Hlast as <-.
  exists ev. split; [exact Hev|]. split; [exact Hts|].
  split.
  { rewrite Hin; [vm_compute; reflexivity | vm_compute; discriminate
                 | vm_compute; discriminate]. }
  split.
  { apply Hband; [lia | vm_compute; discriminate | vm_compute; reflexivity]. }
  apply Hdown. vm_compute. reflexivity.
Defined.

(** ** Sessions: the debounce timer *)

Section DebounceProperties.

Variable js_sqrt : Q -> Q.
Variable js_pow : Q -> Q -> Q.

Local Notation "'strum'" := (processStrumMovement js_sqrt js_pow).

Lemma lastStrumTime_releaseNote i now w :
  lastStrumTime (engine (releaseNote i now w)) = lastStrumTime (engine w).
Proof. unfold releaseNote. repeat case_match; reflexivity. Qed.

Lemma lastStrumTime_release_all l now w :
  lastStrumTime
    (engine (fold_left (fun acc i => releaseNote i now acc) l w))
  = lastStrumTime (engine w).
Proof.
  revert w. induction l as [|i l IH]; intros w; [reflexivity|].
  cbn [fold_left]. rewrite IH. apply lastStrumTime_releaseNote.
Qed.

Lemma lastStrumTime_stopAll now w :
  lastStrumTime (engine (stopAll now w)) = lastStrumTime (engine w).
Proof.
  unfold stopAll. case_match; [|reflexivity].
  cbn. apply lastStrumTime_release_all.
Qed.

Lemma lastStrumTime_playNote i fret v now w :
  lastStrumTime (engine (playNote js_pow i fret v now w))
  = lastStrumTime (engine w).
Proof. unfold playNote. repeat case_match; reflexivity. Qed.

(** [processStrumMovement] moves [lastStrumTime] only when it emits, and then
    to the time stamp of the event, which lies at least the debounce
    interval after the previous value. *)
Lemma lastStrumTime_strum p ts now w :
  match snd (strum p ts now w) with
  | None =>
      lastStrumTime (engine (fst (strum p ts now w)))
      = lastStrumTime (engine w)
  | Some ev =>
      timestamp ev = ts /\
      lastStrumTime (engine (fst (strum p ts now w))) = ts /\
      (STRUM_DEBOUNCE_MS <= ts - lastStrumTime (engine w))%Q
  end.
Proof.
  destruct (snd (strum p ts now w)) as [ev|] eqn:Hev.
  - destruct (strum_inversion js_sqrt js_pow _ _ _ _ _ Hev)
      as (st & lastPos & _ & _ & _ & _ & Hdeb & Heq & Hfst).
    cbv zeta in *. split; [rewrite Heq; reflexivity|].
    split; [|exact Hdeb].
    rewrite Hfst, lastStrumTime_playNote. reflexivity.
  - revert Hev. unfold processStrumMovement.
    repeat case_match; cbn; intros; try reflexivity; discriminate.
Qed.

Lemma lastStrumTime_step o a :
  match snd (step js_sqrt js_pow o a) with
  | None =>
      lastStrumTime (engine (world (fst (step js_sqrt js_pow o a))))
      = lastStrumTime (engine (world a))
  | Some ev =>
      lastStrumTime (engine (world (fst (step js_sqrt js_pow o a))))
      = timestamp ev /\
      (STRUM_DEBOUNCE_MS
         <= timestamp ev - lastStrumTime (engine (world a)))%Q
  end.
Proof.
  destruct o as [ started | now | i fret v now | i now | now | v | b | v
                | p ts now | constructed | | | m ]; cbn [step fst snd world].
  - unfold initialize. repeat case_match; reflexivity.
  - unfold dispose. case_match; [|reflexivity].
    cbn. apply lastStrumTime_stopAll.
  - apply lastStrumTime_playNote.
  - apply lastStrumTime_releaseNote.
  - apply lastStrumTime_stopAll.
  - unfold setVolume. case_match; reflexivity.
  - reflexivity.
  - reflexivity.
  - pose proof (lastStrumTime_strum p ts now (world a)) as H.
    destruct (strum p ts now (world a)) as [w' ev].
    cbn [fst snd world] in *. destruct ev as [ev|]; [|exact H].
    destruct H as (-> & -> & H). split; [reflexivity|exact H].
  - destruct (connect constructed (client a, store (world a))) as [c s].
    reflexivity.
  - reflexivity.
  - destruct (onclose (client a, store (world a))) as [[c s] d].
    reflexivity.
  - reflexivity.
Qed.

(** Every event of a session lies at least the debounce interval after the
    [lastStrumTime] the session started with, and the events are spaced. *)
Lemma run_events_spaced ops :
  forall a,
    let evs := snd (run js_sqrt js_pow ops a) in
    (forall e, In e evs ->
       (STRUM_DEBOUNCE_MS
          <= timestamp e - lastStrumTime (engine (world a)))%Q) /\
    (forall (i j : nat) e1 e2,
       (i < j)%nat -> evs !! i = Some e1 -> evs !! j = Some e2 ->
       (STRUM_DEBOUNCE_MS <= timestamp e2 - timestamp e1)%Q).
Proof.
  induction ops as [|o rest IH]; intros a; cbn [run].
  - cbn. split; [tauto|]. intros i j e1 e2 _ H. discriminate.
  - pose proof (lastStrumTime_step o a) as Hstep.
    destruct (step js_sqrt js_pow o a) as [a1 ev].
    specialize (IH a1). cbv zeta in IH.
    destruct (run js_sqrt js_pow rest a1) as [a2 evs].
    cbn [fst snd] in *. destruct IH as [IH1 IH2].
    destruct ev as [ev|].
    + destruct Hstep as [Hlast Hgap]. rewrite Hlast in IH1. split.
      * intros e [<-|Hin]; [exact Hgap|].
        specialize (IH1 e Hin). unfold STRUM_DEBOUNCE_MS in *. lra.
      * intros i j e1 e2 Hij H1 H2.
        destruct j as [|j]; [lia|]. cbn in H2.
        destruct i as [|i]; cbn in H1.
        -- injection H1 as <-. apply IH1.
           apply list_elem_of_In. eapply list_elem_of_lookup_2, H2.
        -- apply (IH2 i j); [lia|assumption|assumption].
    + rewrite Hstep in IH1. split; assumption.
Qed.

(** C5: whatever the session (any interleaving of samples of the strumming
    hand with the other callbacks, at any speed, from any state), the time
    stamps of two strum events of the session never differ by less than
    [STRUM_DEBOUNCE_MS] (50 ms); the later of the two comes at least 50 ms
    after the earlier one. *)
Theorem strum_events_respect_debounce :
  forall (ops : list Op) (a : App) (i j : nat) (e1 e2 : StrumEvent),
    i <> j ->
    snd (run js_sqrt js_pow ops a) !! i = Some e1 ->
    snd (run js_sqrt js_pow ops a) !! j = Some e2 ->
    (50 <= Qabs (timestamp e2 - timestamp e1))%Q /\
    ((i < j)%nat -> (50 <= timestamp e2 - timestamp e1)%Q).
Proof.
  intros ops a i j e1 e2 Hne H1 H2.
  pose proof (proj2 (run_events_spaced ops a)) as Hspaced. cbv zeta in Hspaced.
  change STRUM_DEBOUNCE_MS with 50%Q in Hspaced.
  destruct (Nat.lt_total i j) as [Hlt | [Heq | Hgt]]; [| contradiction |].
  - specialize (Hspaced i j e1 e2 Hlt H1 H2). split; [|intros _; exact Hspaced].
    eapply Qle_trans; [exact Hspaced | apply Qle_Qabs].
  - specialize (Hspaced j i e2 e1 Hgt H2 H1). split; [|lia].
    eapply Qle_trans; [exact Hspaced|].
    rewrite (Qabs_Qminus (timestamp e2) (timestamp e1)). apply Qle_Qabs.
Qed.

End DebounceProperties.

(** In [Sample.session] the events come at 1100 ms and 1200 ms. *)
Lemma strum_events_respect_debounce_witness :
  exists e1 e2,
    snd (run sqrt_exact pow_unit Sample.session Sample.readyApp) !! 0%nat
      = Some e1 /\
    snd (run sqrt_exact pow_unit Sample.session Sample.readyApp) !! 1%nat
      = Some e2 /\
    timestamp e1 = 1100%Q /\ timestamp e2 = 1200%Q /\
    (50 <= Qabs (timestamp e2 - timestamp e1))%Q.
Proof.
  eexists _, _.
  split; [vm_compute; reflexivity|].
  split; [vm_compute; reflexivity|].
  split; [reflexivity|]. split; [reflexivity|].
  apply (fun Hne H1 H2 =>
           proj1 (strum_events_respect_debounce sqrt_exact pow_unit
                    Sample.session Sample.readyApp 0 1 _ _ Hne H1 H2));
    [lia | vm_compute; reflexivity | vm_compute; reflexivity].
Defined.

(** ** The voice scheduler: [playNote] *)

Section VoiceProperties.

Variable js_pow : Q -> Q -> Q.

Lemma liveState_state e st : liveState e = Some st -> state e = Some st.
Proof.
  unfold liveState. destruct (state e) as [st'|]; [|discriminate].
  destruct (isInitialized st'); [congruence|discriminate].
Qed.

(** C6: on a well-formed engine, [playNote] with a string index outside
    [0,5], or with a negative (muted) fret, or within the debounce interval
    of the voice's own last trigger, or while the store is muted, changes
    nothing: the voices (playing flag, last trigger time, gain), the store,
    the calls issued to Tone.js and the timers all stay as they were. *)
Theorem playNote_rejected_is_noop :
  forall (w : World) (i fret : Z) (v now : Q),
    engineOk w ->
    (i < 0 \/ 5 < i) \/
    fret < 0 \/
    (exists st voice,
       liveState (engine w) = Some st /\
       voiceAt (voices st) i = Some voice /\
       (now - lastNoteTime voice < STRUM_DEBOUNCE_MS / 1000)%Q) \/
    isMuted (store w) = true ->
    playNote js_pow i fret v now w = w.
Proof.
  intros w i fret v now Hok Hrej. unfold playNote.
  destruct (liveState (engine w)) as [st|] eqn:Hlive; [|reflexivity].
  destruct (Hok st (liveState_state _ _ Hlive)) as [_ Hlen].
  change (length GUITAR_TUNING) with 6%nat in Hlen. rewrite Hlen.
  destruct ((i <? 0) || (Z.of_nat 6 <=? i)) eqn:Hrange; [reflexivity|].
  apply orb_false_iff in Hrange. destruct Hrange as [Hlo Hhi].
  apply Z.ltb_ge in Hlo. apply Z.leb_gt in Hhi.
  destruct (voiceAt (voices st) i) as [voice|] eqn:Hvoice; [|reflexivity].
  destruct (JsNum.ltb (now - lastNoteTime voice) _) eqn:Hdeb; [reflexivity|].
  destruct Hrej as [Hout | [Hfret | [Hrecent | Hmute]]].
  - lia.
  - unfold getFrettedMidi. apply Z.ltb_lt in Hfret. rewrite Hfret. reflexivity.
  - destruct Hrecent as (st' & voice' & [= <-] & Hv & Hlt).
    rewrite Hvoice in Hv. injection Hv as <-.
    apply JsNumFacts.ltb_lt in Hlt. congruence.
  - rewrite Hmute. repeat case_match; reflexivity.
Qed.

End VoiceProperties.

(** String 2 is struck at 1 s and again 10 ms later: the second trigger
    falls into the 50 ms debounce interval and changes nothing. *)
Lemma playNote_rejected_is_noop_witness :
  engineOk Sample.string2Sounding /\
  (exists voice,
     voiceAt (engineVoices Sample.string2Sounding) 2 = Some voice /\
     isPlaying voice = true /\ lastNoteTime voice = 1%Q) /\
  playNote pow_unit 2 0 1 (101 # 100) Sample.string2Sounding
    = Sample.string2Sounding.
Proof.
  assert (engineOk Sample.string2Sounding) as Hok.
  { intros st [= <-]. split; reflexivity. }
  split; [exact Hok|]. split.
  - eexists. split; [vm_compute; reflexivity|]. split; reflexivity.
  - apply (playNote_rejected_is_noop pow_unit Sample.string2Sounding 2 0 1
             (101 # 100) Hok).
    right. right. left. eexists _, _.
    split; [vm_compute; reflexivity|].
    split; [vm_compute; reflexivity|].
    vm_compute. reflexivity.
Defined.

(** ** The voice scheduler: reachable states *)

Section SchedulerInvariant.

Variable js_sqrt : Q -> Q.
Variable js_pow : Q -> Q -> Q.

Lemma soundingCount_le_length vs : (soundingCount vs <= length vs)%nat.
Proof. unfold soundingCount. apply length_filter. Qed.

(** Replacing the voice of a string that is already playing by a playing
    voice leaves the number of sounding voices as it was. *)
Lemma soundingCount_retrigger vs (n : nat) voice voice' :
  vs !! n = Some voice -> isPlaying voice = true -> isPlaying voice' = true ->
  soundingCount (<[n := voice']> vs) = soundingCount vs.
Proof.
  unfold soundingCount. revert n.
  induction vs as [|x vs IH]; intros n Hn Hp Hp'; [discriminate|].
  destruct n as [|n]; cbn in Hn.
  - injection Hn as ->.
    change (<[0%nat:=voice']> (voice :: vs)) with (voice' :: vs).
    rewrite !filter_cons, Hp, Hp'.
    do 2 (destruct (decide (true = true)); [|congruence]). reflexivity.
  - change (<[S n:=voice']> (x :: vs)) with (x :: <[n:=voice']> vs).
    rewrite !filter_cons. destruct (decide (isPlaying x = true));
      cbn [length]; rewrite (IH n Hn Hp Hp'); reflexivity.
Qed.

Lemma inv_withStore f w :
  (forall s, activeStrings (f s) ⊆ activeStrings s) ->
  schedulerInv w -> schedulerInv (withStore f w).
Proof.
  intros Hf [Hok Hact]. split; [exact Hok|].
  intros i Hi. apply Hact. cbn in Hi. apply (Hf (store w)), Hi.
Qed.

Lemma inv_releaseNote i now w :
  schedulerInv w -> schedulerInv (releaseNote i now w).
Proof.
  intros [Hok Hact]. unfold releaseNote.
  destruct (liveState (engine w)) as [st|] eqn:Hlive; [|split; assumption].
  destruct (voiceAt (voices st) i) as [voice|]; [|split; assumption].
  destruct (negb (isPlaying voice)); [split; assumption|].
  apply liveState_state in Hlive. destruct (Hok st Hlive) as [Hinit Hlen].
  split.
  - intros st' [= <-]. cbn. rewrite length_insert. split; assumption.
  - intros j Hj. cbn in Hj. apply Hact.
    apply elem_of_difference in Hj. apply Hj.
Qed.

Lemma inv_release_all l now w :
  schedulerInv w ->
  schedulerInv (fold_left (fun acc i => releaseNote i now acc) l w).
Proof.
  revert w. induction l as [|i l IH]; intros w Hw; [exact Hw|].
  cbn [fold_left]. apply IH, inv_releaseNote, Hw.
Qed.

Lemma inv_stopAll now w : schedulerInv w -> schedulerInv (stopAll now w).
Proof.
  intros Hw. unfold stopAll. case_match; [|exact Hw].
  apply inv_withStore; [intros s; cbn; set_solver|].
  apply inv_release_all, Hw.
Qed.

Lemma inv_playNote i fret v now w :
  schedulerInv w -> schedulerInv (playNote js_pow i fret v now w).
Proof.
  intros [Hok Hact]. unfold playNote.
  destruct (liveState (engine w)) as [st|] eqn:Hlive; [|split; assumption].
  apply liveState_state in Hlive. destruct (Hok st Hlive) as [Hinit Hlen].
  destruct (_ || _) eqn:Hrange; [split; assumption|].
  destruct (voiceAt (voices st) i) as [voice|]; [|split; assumption].
  destruct (JsNum.ltb (now - lastNoteTime voice) _); [split; assumption|].
  destruct (getFrettedMidi _ fret <? 0); [split; assumption|].
  destruct (isMuted (store w)); [split; assumption|].
  apply orb_false_iff in Hrange. destruct Hrange as [Hlo Hhi].
  apply Z.ltb_ge in Hlo. apply Z.leb_gt in Hhi.
  rewrite Hlen in Hhi. change (Z.of_nat (length GUITAR_TUNING)) with 6 in Hhi.
  split.
  - intros st' [= <-]. cbn. rewrite length_insert. split; assumption.
  - intros j Hj. cbn in Hj. apply elem_of_union in Hj as [Hj|Hj].
    + apply Hact, Hj.
    + apply elem_of_singleton in Hj. lia.
Qed.

Lemma inv_strum p ts now w :
  schedulerInv w ->
  schedulerInv (fst (processStrumMovement js_sqrt js_pow p ts now w)).
Proof.
  intros Hw. pose proof Hw as [Hok Hact]. unfold processStrumMovement.
  destruct (state (engine w)) as [st|] eqn:Hst; [|exact Hw].
  destruct (Hok st Hst) as [Hinit Hlen].
  assert (forall ss t s,
            activeStrings s = activeStrings (store w) ->
            schedulerInv
              (mkWorld (mkEngine (Some (withStrumState ss st)) t) s
                 (tone w) (timers w))) as Hupd.
  { intros ss t s Hs. split.
    - intros st' [= <-]. split; assumption.
    - intros i Hi. cbn in Hi. rewrite Hs in Hi. apply Hact, Hi. }
  destruct (lastPosition (strumState st)); [|apply Hupd; reflexivity].
  destruct (JsNum.leb _ 0); [exact Hw|].
  destruct (JsNum.ltb STRUM_SPEED_THRESHOLD _); [|apply Hupd; reflexivity].
  destruct (JsNum.ltb _ STRUM_DEBOUNCE_MS); [apply Hupd; reflexivity|].
  cbn [fst]. apply inv_playNote. apply Hupd. reflexivity.
Qed.

Lemma inv_step o a :
  schedulerInv (world a) ->
  schedulerInv (world (fst (step js_sqrt js_pow o a))).
Proof.
  intros Hw.
  destruct o as [ started | now | i fret v now | i now | now | v | b | v
                | p ts now | constructed | | | m ]; cbn [step fst snd world].
  - destruct (initialize_cases started (world a)) as [-> | [_ ->]];
      [exact Hw|].
    destruct Hw as [_ Hact]. split.
    + intros st [= <-]. split; reflexivity.
    + exact Hact.
  - unfold dispose. case_match; [|exact Hw].
    destruct (inv_stopAll now _ Hw) as [_ Hact]. split; [|exact Hact].
    intros st. discriminate.
  - apply inv_playNote, Hw.
  - apply inv_releaseNote, Hw.
  - apply inv_stopAll, Hw.
  - unfold setVolume. destruct (liveState _) as [st|] eqn:Hlive; [|exact Hw].
    destruct Hw as [Hok Hact]. split; [|exact Hact].
    intros st' [= <-]. apply (Hok st), liveState_state, Hlive.
  - apply inv_withStore; [reflexivity | exact Hw].
  - apply inv_withStore; [reflexivity | exact Hw].
  - pose proof (inv_strum p ts now _ Hw) as H.
    destruct (processStrumMovement _ _ _ _ _ _). exact H.
  - destruct Hw as [Hok Hact].
    destruct (connect_cases constructed (client a) (store (world a)))
      as [-> | [-> | ->]]; (split; [exact Hok|]); intros i Hi; apply Hact, Hi.
  - destruct Hw as [Hok Hact]. split; [exact Hok|].
    intros i Hi. apply Hact, Hi.
  - destruct (onclose (client a, store (world a))) as [[c s] d] eqn:E.
    cbn [fst world]. destruct Hw as [Hok Hact]. split; [exact Hok|].
    intros i Hi. cbn in Hi. apply Hact.
    unfold onclose in E. case_match; injection E as <- <- <-; exact Hi.
  - apply inv_withStore; [|exact Hw].
    intros s. destruct m as [r| |]; cbn; [|reflexivity..].
    destruct (override_notes r); reflexivity.
Qed.

Lemma inv_run ops :
  forall a, schedulerInv (world a) ->
            schedulerInv (world (fst (run js_sqrt js_pow ops a))).
Proof.
  induction ops as [|o rest IH]; intros a Hw; [exact Hw|].
  cbn [run]. pose proof (inv_step o a Hw) as H1.
  destruct (step js_sqrt js_pow o a) as [a1 ev].
  specialize (IH a1 H1).
  destruct (run js_sqrt js_pow rest a1) as [a2 evs]. exact IH.
Qed.

Lemma inv_initial : schedulerInv initialWorld.
Proof.
  split.
  - intros st. discriminate.
  - intros i Hi. cbn in Hi. set_solver.
Qed.

Lemma activeOk_size w : activeOk w -> (size (activeStrings (store w)) <= 6)%nat.
Proof.
  intros Hact.
  assert (activeStrings (store w) ⊆ list_to_set [0; 1; 2; 3; 4; 5]) as Hsub.
  { intros i Hi. specialize (Hact i Hi). rewrite elem_of_list_to_set.
    rewrite !elem_of_cons. lia. }
  apply subseteq_size in Hsub. etransitivity; [exact Hsub|].
  rewrite size_list_to_set; [reflexivity|].
  repeat (apply NoDup_cons; split; [rewrite ?elem_of_cons, elem_of_nil; lia|]).
  apply NoDup_nil_2.
Qed.

Lemma voiceAt_insert_ne vs i j voice :
  0 <= i -> j <> i ->
  voiceAt (<[Z.to_nat i := voice]> vs) j = voiceAt vs j.
Proof.
  intros Hi Hne. unfold voiceAt. destruct (j <? 0) eqn:Hj; [reflexivity|].
  apply Z.ltb_ge in Hj. apply list_lookup_insert_ne. lia.
Qed.

(** C7: in every state reachable from the initial one there is at most one
    voice per string: the engine holds no more than six voices, no more than
    six of them sound, and no more than six strings are marked active.  A
    trigger on a string that is already sounding leaves the number of voices
    and the number of sounding voices as they were and does not touch the
    other strings: when it is accepted, the same voice is attacked again in
    place, and the calls issued are the gain, the synth attack and the
    envelope attack of that string, with no release among them. *)
Theorem voices_bounded_and_retrigger_in_place :
  forall (ops : list Op),
    let w := world (fst (run js_sqrt js_pow ops initialApp)) in
    (length (engineVoices w) <= 6)%nat /\
    (soundingCount (engineVoices w) <= 6)%nat /\
    (size (activeStrings (store w)) <= 6)%nat /\
    forall (i fret : Z) (v now : Q) (voice : StringVoice),
      voiceAt (engineVoices w) i = Some voice ->
      isPlaying voice = true ->
      let w' := playNote js_pow i fret v now w in
      length (engineVoices w') = length (engineVoices w) /\
      soundingCount (engineVoices w') = soundingCount (engineVoices w) /\
      (exists voice',
         voiceAt (engineVoices w') i = Some voice' /\
         isPlaying voice' = true) /\
      (forall j, j <> i ->
         voiceAt (engineVoices w') j = voiceAt (engineVoices w) j) /\
      (w' = w \/
       exists g,
         tone w' =
           tone w ++
             [GainSetValueAtTime i g now;
              SynthTriggerAttack i
                (getFrettedMidi (nth (Z.to_nat i) GUITAR_TUNING 0) fret) now;
              EnvelopeTriggerAttack i now]).
Proof.
  intros ops w.
  assert (schedulerInv w) as [Hok Hact]
    by (apply (inv_run ops initialApp), inv_initial).
  assert (length (engineVoices w) <= 6)%nat as Hlen.
  { unfold engineVoices. destruct (state (engine w)) as [st|] eqn:Hst.
    - destruct (Hok st Hst) as [_ ->]. reflexivity.
    - cbn. lia. }
  split; [exact Hlen|].
  split; [etransitivity; [apply soundingCount_le_length | exact Hlen]|].
  split; [apply activeOk_size, Hact|].
  intros i fret v now voice Hvoice Hplaying. cbv zeta.
  assert (forall P : World -> Prop, P w ->
            (forall st g,
               state (engine w) = Some st ->
               voiceAt (voices st) i = Some voice -> 0 <= i ->
               P (mkWorld
                    (mkEngine
                       (Some (withVoices
                                (<[Z.to_nat i := mkVoice true now g]>
                                   (voices st)) st))
                       (lastStrumTime (engine w)))
                    (addActiveString i (store w))
                    (tone w ++
                       [GainSetValueAtTime i g now;
                        SynthTriggerAttack i
                          (getFrettedMidi
                             (nth (Z.to_nat i) GUITAR_TUNING 0) fret) now;
                        EnvelopeTriggerAttack i now])
                    (timers w ++ [AutoRelease i 1500]))) ->
            P (playNote js_pow i fret v now w)) as Hcases.
  { intros P Hsame Hnew. unfold playNote.
    destruct (liveState (engine w)) as [st|] eqn:Hlive; [|exact Hsame].
    apply liveState_state in Hlive.
    destruct (_ || _) eqn:Hrange; [exact Hsame|].
    apply orb_false_iff in Hrange. destruct Hrange as [Hlo _].
    apply Z.ltb_ge in Hlo.
    unfold engineVoices in Hvoice. rewrite Hlive in Hvoice. rewrite Hvoice.
    destruct (JsNum.ltb (now - lastNoteTime voice) _); [exact Hsame|].
    destruct (getFrettedMidi _ fret <? 0); [exact Hsame|].
    destruct (isMuted (store w)); [exact Hsame|].
    apply Hnew; assumption. }
  apply Hcases.
  - split; [reflexivity|]. split; [reflexivity|].
    split; [exists voice; split; assumption|].
    split; [reflexivity|]. left. reflexivity.
  - intros st g Hst Hv Hi. unfold engineVoices. rewrite Hst. cbn.
    assert (voices st !! Z.to_nat i = Some voice) as Hlook.
    { unfold voiceAt in Hv. destruct (i <? 0); [discriminate|exact Hv]. }
    split; [apply length_insert|].
    split; [eapply soundingCount_retrigger; eauto|].
    split.
    { exists (mkVoice true now g). split; [|reflexivity]. unfold voiceAt.
      destruct (i <? 0) eqn:E; [apply Z.ltb_lt in E; lia|].
      apply list_lookup_insert_eq. eapply lookup_lt_Some, Hlook. }
    split; [intros j Hj; apply voiceAt_insert_ne; assumption|].
    right. exists g. reflexivity.
Qed.

End SchedulerInvariant.

(** String 2 is sounding and is struck again one second later, at fret 3:
    the voice count stays at one and the same voice is attacked again. *)
Lemma voices_bounded_and_retrigger_in_place_witness :
  let w := world (fst (run sqrt_exact pow_unit Sample.strikeString2
                         initialApp)) in
  let w' := playNote pow_unit 2 3 1 2 w in
  (exists voice,
     voiceAt (engineVoices w) 2 = Some voice /\ isPlaying voice = true) /\
  soundingCount (engineVoices w) = 1%nat /\
  length (engineVoices w') = length (engineVoices w) /\
  soundingCount (engineVoices w') = soundingCount (engineVoices w) /\
  (w' = w \/
   exists g,
     tone w' =
       tone w ++
         [GainSetValueAtTime 2 g 2; SynthTriggerAttack 2 53 2;
          EnvelopeTriggerAttack 2 2]).
Proof.
  cbv zeta.
  destruct (voices_bounded_and_retrigger_in_place sqrt_exact pow_unit
              Sample.strikeString2) as (_ & _ & _ & Hre).
  assert (exists voice,
            voiceAt
              (engineVoices
                 (world (fst (run sqrt_exact pow_unit Sample.strikeString2
                                initialApp)))) 2 = Some voice /\
            isPlaying voice = true) as Hsounding
    by (eexists; split; [vm_compute; reflexivity | reflexivity]).
  split; [exact Hsounding|].
  destruct Hsounding as (voice & Hvoice & Hplaying).
  destruct (Hre 2 3 1%Q 2%Q voice Hvoice Hplaying)
    as (Hlen & Hcount & _ & _ & Htone).
  split; [vm_compute; reflexivity|].
  split; [exact Hlen|]. split; [exact Hcount|]. exact Htone.
Defined.

(** C7, as stated, fails: a new note on a string that is sounding is not
    preceded by a release.  String 2 sounds since 1 s; a new note (fret 3)
    triggered on it at 2 s is accepted, and the calls made on the string
    are two attacks in a row, with no [triggerRelease] between them. *)
Lemma retrigger_issues_no_release :
  let w := world (fst (run sqrt_exact pow_unit Sample.strikeString2
                         initialApp)) in
  let w' := playNote pow_unit 2 3 1 2 w in
  w = Sample.string2Sounding /\
  (exists voice,
     voiceAt (engineVoices w) 2 = Some voice /\ isPlaying voice = true) /\
  (exists g g',
     tone w' =
       [GainSetValueAtTime 2 g 1; SynthTriggerAttack 2 50 1;
        EnvelopeTriggerAttack 2 1;
        GainSetValueAtTime 2 g' 2; SynthTriggerAttack 2 53 2;
        EnvelopeTriggerAttack 2 2]) /\
  existsb (isReleaseOf 2) (tone w') = false.
Proof.
  cbv zeta. split; [reflexivity|].
  split; [eexists; split; [vm_compute; reflexivity | reflexivity]|].
  split; [eexists _, _; vm_compute; reflexivity|].
  vm_compute. reflexivity.
Defined.

(** ** Arbitration: which fret a strum plays *)

Section ArbitrationProperties.

Variable js_sqrt : Q -> Q.
Variable js_pow : Q -> Q -> Q.

Lemma resolveFret_inactive s i : correctionActive s = false -> resolveFret s i = 0.
Proof. intros H. unfold resolveFret. rewrite H. reflexivity. Qed.

(** The fret resolved for a string, spelled out. *)
Lemma resolveFret_spec s i :
  resolveFret s i =
    if correctionActive s && (i <? Z.of_nat (length (overrideNotes s)))
    then Z.max 0 (nth (Z.to_nat i) (overrideNotes s) 0
                  - nth (Z.to_nat i) GUITAR_TUNING 0)
    else 0.
Proof. reflexivity. Qed.

Lemma aiState_releaseNote i now w :
  aiState (store (releaseNote i now w)) = aiState (store w).
Proof. unfold releaseNote. repeat case_match; reflexivity. Qed.

Lemma aiState_release_all l now w :
  aiState (store (fold_left (fun acc i => releaseNote i now acc) l w))
  = aiState (store w).
Proof.
  revert w. induction l as [|i l IH]; intros w; [reflexivity|].
  cbn [fold_left]. rewrite IH. apply aiState_releaseNote.
Qed.

Lemma aiState_stopAll now w :
  aiState (store (stopAll now w)) = aiState (store w).
Proof.
  unfold stopAll. case_match; [|reflexivity].
  match goal with
  | |- aiState (store (withStore _ ?x)) = _ =>
      transitivity (aiState (store x));
        [reflexivity | apply aiState_release_all]
  end.
Qed.

Lemma aiState_playNote i fret v now w :
  aiState (store (playNote js_pow i fret v now w)) = aiState (store w).
Proof. unfold playNote. repeat case_match; reflexivity. Qed.

Lemma aiState_strum p ts now w :
  aiState (store (fst (processStrumMovement js_sqrt js_pow p ts now w)))
  = aiState (store w).
Proof.
  unfold processStrumMovement.
  repeat case_match; cbn [fst]; rewrite ?aiState_playNote; reflexivity.
Qed.

(** Only an [inference_result] message writes what the recognizer said. *)
Lemma aiState_step o a :
  isResultMessage o = false ->
  aiState (store (world (fst (step js_sqrt js_pow o a))))
  = aiState (store (world a)).
Proof.
  intros Ho.
  destruct o as [ started | now | i fret v now | i now | now | v | b | v
                | p ts now | constructed | | | m ]; cbn [step fst snd world].
  - destruct (initialize_cases started (world a)) as [-> | [_ ->]];
      reflexivity.
  - unfold dispose. case_match; [|reflexivity].
    cbn [withState store]. apply aiState_stopAll.
  - apply aiState_playNote.
  - apply aiState_releaseNote.
  - apply aiState_stopAll.
  - unfold setVolume. case_match; reflexivity.
  - reflexivity.
  - reflexivity.
  - pose proof (aiState_strum p ts now (world a)) as H.
    destruct (processStrumMovement _ _ _ _ _ _). exact H.
  - destruct (connect_cases constructed (client a) (store (world a)))
      as [-> | [-> | ->]]; reflexivity.
  - reflexivity.
  - destruct (onclose (client a, store (world a))) as [[c s] d] eqn:E.
    cbn. unfold onclose in E. case_match; injection E as <- <- <-; reflexivity.
  - destruct m as [r| |]; [discriminate | reflexivity | reflexivity].
Qed.

(** A result received from the recognizer sets the store as [onmessage]
    says, whatever the store held. *)
Lemma onmessage_result r s :
  correctionActive (onmessage (inference_result r) s) = correction_active r /\
  lastInferenceResult (onmessage (inference_result r) s) = Some r /\
  currentChord (onmessage (inference_result r) s) = chord_id r /\
  overrideNotes (onmessage (inference_result r) s)
    = match override_notes r with
      | Some notes => notes
      | None => overrideNotes s
      end.
Proof. cbn. destruct (override_notes r); repeat split; reflexivity. Qed.

(** The fret an emitted event carries is the one resolved from the store
    the strum found. *)
Lemma strum_event_fret p ts now w ev :
  snd (processStrumMovement js_sqrt js_pow p ts now w) = Some ev ->
  fretIndex ev = resolveFret (store w) (stringIndex ev) /\
  0 <= stringIndex ev <= 5.
Proof.
  intros Hev.
  destruct (strum_inversion js_sqrt js_pow _ _ _ _ _ Hev)
    as (st & lastPos & _ & _ & _ & _ & _ & Heq & _).
  cbv zeta in Heq. rewrite Heq. cbn. split; [reflexivity|].
  apply JsNumFacts.clampZ_bounds. lia.
Qed.

Lemma step_event_resolved o a ev :
  snd (step js_sqrt js_pow o a) = Some ev ->
  fretIndex ev = resolveFret (store (world a)) (stringIndex ev).
Proof.
  destruct o as [ started | now | i fret v now | i now | now | v | b | v
                | p ts now | constructed | | | m ]; cbn [step snd];
    try discriminate.
  - destruct (processStrumMovement js_sqrt js_pow p ts now (world a))
      as [w' e] eqn:E.
    cbn. intros ->. apply (strum_event_fret p ts now).
    rewrite E. reflexivity.
  - destruct (connect _ _). discriminate.
  - destruct (onclose (client a, store (world a))) as [[c s] d]. discriminate.
Qed.

(** The flag a step leaves, when the step does not activate correction. *)
Lemma correctionActive_step o a :
  activatesCorrection o = false ->
  correctionActive (store (world a)) = false ->
  correctionActive (store (world (fst (step js_sqrt js_pow o a)))) = false.
Proof.
  intros Ho Hoff. destruct (isResultMessage o) eqn:Hres.
  - destruct o as [ | | | | | | | | | | | | [r| |]]; try discriminate.
    cbn [step fst world withStore store].
    destruct (onmessage_result r (store (world a))) as [-> _]. exact Ho.
  - pose proof (aiState_step o a Hres) as H. unfold aiState in H.
    injection H as H _ _ _. rewrite H. exact Hoff.
Qed.

Lemma run_without_activation ops :
  forall a,
    Forall (fun o => activatesCorrection o = false) ops ->
    correctionActive (store (world a)) = false ->
    correctionActive (store (world (fst (run js_sqrt js_pow ops a)))) = false
    /\ Forall (fun ev => fretIndex ev = 0) (snd (run js_sqrt js_pow ops a)).
Proof.
  induction ops as [|o rest IH]; intros a Hops Hoff; cbn [run].
  - split; [exact Hoff | constructor].
  - apply Forall_cons in Hops as [Ho Hrest].
    pose proof (correctionActive_step o a Ho Hoff) as Hkeep.
    pose proof (step_event_resolved o a) as Hfret.
    destruct (step js_sqrt js_pow o a) as [a1 ev]. cbn [fst snd] in *.
    destruct (IH a1 Hrest Hkeep) as [IH1 IH2].
    destruct (run js_sqrt js_pow rest a1) as [a2 evs]. cbn [fst snd] in *.
    split; [exact IH1|].
    destruct ev as [ev|]; [|exact IH2].
    constructor; [|exact IH2].
    rewrite (Hfret ev eq_refl). apply resolveFret_inactive, Hoff.
Qed.

(** What a step does to the last result and to the override notes. *)
Lemma ai_fields_step o a :
  let s := store (world a) in
  let s' := store (world (fst (step js_sqrt js_pow o a))) in
  lastInferenceResult s' = latestResultAfter (lastInferenceResult s) [o] /\
  overrideNotes s' = latestNotesAfter (overrideNotes s) [o] /\
  (correctionActive s
     = match lastInferenceResult s with
       | Some r => correction_active r
       | None => false
       end ->
   correctionActive s'
     = match lastInferenceResult s' with
       | Some r => correction_active r
       | None => false
       end).
Proof.
  cbv zeta. destruct (isResultMessage o) eqn:Hres.
  - destruct o as [ | | | | | | | | | | | | [r| |]]; try discriminate.
    cbn [step fst world withStore store latestResultAfter latestNotesAfter
         fold_left].
    destruct (onmessage_result r (store (world a))) as (-> & -> & _ & ->).
    auto.
  - pose proof (aiState_step o a Hres) as H. unfold aiState in H.
    injection H as H1 H2 _ H4. rewrite H1, H2, H4.
    destruct o as [ | | | | | | | | | | | | [r| |]]; try discriminate; auto.
Qed.

Lemma run_ai_fields ops :
  forall a,
    let s := store (world a) in
    let s' := store (world (fst (run js_sqrt js_pow ops a))) in
    lastInferenceResult s' = latestResultAfter (lastInferenceResult s) ops /\
    overrideNotes s' = latestNotesAfter (overrideNotes s) ops /\
    (correctionActive s
       = match lastInferenceResult s with
         | Some r => correction_active r
         | None => false
         end ->
     correctionActive s'
       = match lastInferenceResult s' with
         | Some r => correction_active r
         | None => false
         end).
Proof.
  induction ops as [|o rest IH]; intros a; cbv zeta; cbn [run].
  - auto.
  - destruct (ai_fields_step o a) as (H1 & H2 & H3). cbv zeta in *.
    destruct (step js_sqrt js_pow o a) as [a1 ev]. cbn [fst] in *.
    destruct (IH a1) as (I1 & I2 & I3). cbv zeta in *.
    destruct (run js_sqrt js_pow rest a1) as [a2 evs]. cbn [fst] in *.
    rewrite I1, I2, H1, H2. repeat split; auto.
    intros H. rewrite <- H1, <- I1. auto.
Qed.

(** C1, amended: the store always holds the recognition result received
    last (its correction flag, and the override notes of the last result
    that carried any), whatever its age.  In a session in which no result
    activates correction (in particular one in which the recognizer is never
    reached), the flag stays false and every strum event carries fret 0, the
    open string of the geometric fallback.  A strum processed after any
    session takes its fret from that store: fret 0 when no result has been
    received or the last one has the flag off; with the flag on and override
    notes covering the struck string, the note's offset from the open
    string, clamped at 0.  Neither the time stamp of the result nor that of
    the strum enters: there is no staleness window. *)
Theorem latest_result_decides_fret_whatever_its_age :
  forall (ops : list Op),
    let final := fst (run js_sqrt js_pow ops initialApp) in
    let s := store (world final) in
    lastInferenceResult s = latestResult ops /\
    overrideNotes s = latestNotes ops /\
    correctionActive s
      = match latestResult ops with
        | Some r => correction_active r
        | None => false
        end /\
    (Forall (fun o => activatesCorrection o = false) ops ->
       correctionActive s = false /\
       Forall (fun ev => fretIndex ev = 0)
         (snd (run js_sqrt js_pow ops initialApp))) /\
    (forall (p : Point3D) (ts now : Q) (ev : StrumEvent),
       snd (step js_sqrt js_pow (OpStrum p ts now) final) = Some ev ->
       (match latestResult ops with
        | Some r => correction_active r = false
        | None => True
        end -> fretIndex ev = 0) /\
       (forall r, latestResult ops = Some r ->
          correction_active r = true ->
          stringIndex ev < Z.of_nat (length (latestNotes ops)) ->
          fretIndex ev
          = Z.max 0 (nth (Z.to_nat (stringIndex ev)) (latestNotes ops) 0
                     - nth (Z.to_nat (stringIndex ev)) GUITAR_TUNING 0)) /\
       (forall r, latestResult ops = Some r ->
          correction_active r = true ->
          Z.of_nat (length (latestNotes ops)) <= stringIndex ev ->
          fretIndex ev = 0)).
Proof.
  intros ops. cbv zeta.
  destruct (run_ai_fields ops initialApp) as (H1 & H2 & H3). cbv zeta in *.
  change (lastInferenceResult (store (world initialApp))) with
    (@None InferenceResult) in *.
  change (overrideNotes (store (world initialApp))) with (@nil Z) in *.
  fold (latestResult ops) in H1. fold (latestNotes ops) in H2.
  specialize (H3 eq_refl). rewrite H1 in H3.
  split; [exact H1|]. split; [exact H2|]. split; [exact H3|].
  split.
  { intros Hops. apply run_without_activation; [exact Hops | reflexivity]. }
  intros p ts now ev Hev.
  pose proof (step_event_resolved _ _ _ Hev) as Hfret.
  rewrite Hfret, resolveFret_spec, H2, H3.
  split; [|split].
  - destruct (latestResult ops) as [r|]; [|reflexivity].
    intros ->. reflexivity.
  - intros r -> -> Hi. apply Z.ltb_lt in Hi. rewrite Hi. reflexivity.
  - intros r -> -> Hi. apply Z.ltb_ge in Hi. rewrite Hi. reflexivity.
Qed.

(** C2, amended: the client takes the correction flag from the result as
    it is received; it compares no confidence with a threshold, and reads
    neither the confidence nor the fingering map: two results that agree on
    the flag, the chord and the override notes leave the same flag, notes
    and frets.  With the flag on, the fret of a struck string is the offset
    of its override note from the open string, clamped at 0, when the notes
    in the store (those of this result, or of an earlier one when this
    result carries none) cover the string, and 0 otherwise; with the flag
    off it is 0.  The strum that follows carries that fret. *)
Theorem client_takes_flag_and_frets_from_result :
  forall (r : InferenceResult) (s : Store),
    let s' := onmessage (inference_result r) s in
    let notes := match override_notes r with
                 | Some ns => ns
                 | None => overrideNotes s
                 end in
    correctionActive s' = correction_active r /\
    lastInferenceResult s' = Some r /\
    overrideNotes s' = notes /\
    (forall i : Z,
       resolveFret s' i
       = if correction_active r && (i <? Z.of_nat (length notes))
         then Z.max 0 (nth (Z.to_nat i) notes 0
                       - nth (Z.to_nat i) GUITAR_TUNING 0)
         else 0) /\
    (forall (ts conf : Q) (fingering : list Z),
       let r2 := mkInferenceResult ts (chord_id r) conf fingering
                   (correction_active r) (override_notes r) in
       let s2 := onmessage (inference_result r2) s in
       correctionActive s2 = correctionActive s' /\
       overrideNotes s2 = overrideNotes s' /\
       currentChord s2 = currentChord s' /\
       forall i : Z, resolveFret s2 i = resolveFret s' i) /\
    (forall (p : Point3D) (ts now : Q) (w : World) (ev : StrumEvent),
       snd (processStrumMovement js_sqrt js_pow p ts now
              (withStore (fun _ => s') w)) = Some ev ->
       fretIndex ev
       = if correction_active r
            && (stringIndex ev <? Z.of_nat (length notes))
         then Z.max 0 (nth (Z.to_nat (stringIndex ev)) notes 0
                       - nth (Z.to_nat (stringIndex ev)) GUITAR_TUNING 0)
         else 0).
Proof.
  intros r s. cbv zeta.
  destruct (onmessage_result r s) as (Hflag & Hlast & Hchord & Hnotes).
  assert (forall i : Z,
            resolveFret (onmessage (inference_result r) s) i
            = if correction_active r
                 && (i <? Z.of_nat
                            (length match override_notes r with
                                    | Some ns => ns
                                    | None => overrideNotes s
                                    end))
              then Z.max 0
                     (nth (Z.to_nat i)
                        match override_notes r with
                        | Some ns => ns
                        | None => overrideNotes s
                        end 0
                      - nth (Z.to_nat i) GUITAR_TUNING 0)
              else 0) as Hfret.
  { intros i. rewrite resolveFret_spec, Hflag, Hnotes. reflexivity. }
  split; [exact Hflag|]. split; [exact Hlast|]. split; [exact Hnotes|].
  split; [exact Hfret|]. split.
  - intros ts conf fingering.
    destruct (onmessage_result
                (mkInferenceResult ts (chord_id r) conf fingering
                   (correction_active r) (override_notes r)) s)
      as (Hflag2 & _ & Hchord2 & Hnotes2).
    cbn [correction_active override_notes chord_id] in *.
    rewrite Hflag2, Hflag, Hnotes2, Hnotes, Hchord2, Hchord.
    repeat split. intros i.
    rewrite !resolveFret_spec, Hflag2, Hflag, Hnotes2, Hnotes. reflexivity.
  - intros p ts now w ev Hev.
    destruct (strum_event_fret _ _ _ _ _ Hev) as [-> _].
    apply Hfret.
Qed.

End ArbitrationProperties.

(** In [Sample.offlineSession] the socket never opens and no result arrives:
    the flag is off and both strum events play the open string.  In
    [Sample.minuteLater] the only result, stamped 0 ms, activates
    correction: a strum one minute later, when the result is stale by any
    window of an inference cycle, still plays the override note of string
    3, five frets above the open G. *)
Lemma latest_result_decides_fret_whatever_its_age_witness :
  (correctionActive
     (store (world (fst (run sqrt_exact pow_unit Sample.offlineSession
                           initialApp)))) = false /\
   map fretIndex
     (snd (run sqrt_exact pow_unit Sample.offlineSession initialApp))
   = [0; 0] /\
   Forall (fun ev => fretIndex ev = 0)
     (snd (run sqrt_exact pow_unit Sample.offlineSession initialApp))) /\
  (stale WS_CONFIG.inferenceThrottleMs (Sample.cMajor 0 (92 # 100) true)
     60000 = true /\
   exists ev,
     snd (step sqrt_exact pow_unit (OpStrum Sample.p0 60000 60)
            (fst (run sqrt_exact pow_unit Sample.minuteLater initialApp)))
     = Some ev /\
     stringIndex ev = 3 /\ fretIndex ev = 5).
Proof.
  split.
  - assert (Forall (fun o => activatesCorrection o = false)
              Sample.offlineSession) as Hops by (repeat constructor).
    destruct (latest_result_decides_fret_whatever_its_age sqrt_exact pow_unit
                Sample.offlineSession) as (_ & _ & _ & Hoff & _).
    destruct (Hoff Hops) as [Hflag Hfrets].
    split; [exact Hflag|]. split; [vm_compute; reflexivity | exact Hfrets].
  - split; [vm_compute; reflexivity|].
    destruct (latest_result_decides_fret_whatever_its_age sqrt_exact pow_unit
                Sample.minuteLater) as (_ & _ & _ & _ & Hnext).
    assert (exists ev,
              snd (step sqrt_exact pow_unit (OpStrum Sample.p0 60000 60)
                     (fst (run sqrt_exact pow_unit Sample.minuteLater
                             initialApp))) = Some ev /\
              stringIndex ev = 3) as (ev & Hev & Hidx).
    { eexists. split; vm_compute; reflexivity. }
    exists ev. split; [exact Hev|]. split; [exact Hidx|].
    destruct (Hnext _ _ _ _ Hev) as (_ & Hon & _).
    rewrite (Hon (Sample.cMajor 0 (92 # 100) true) eq_refl eq_refl);
      rewrite Hidx; [reflexivity | vm_compute; reflexivity].
Defined.

(** C1, as stated, fails for a stale result: a result stamped 0 ms that
    activated correction is still applied to strums at 1100 ms and 1200 ms,
    far beyond a staleness window of one inference cycle (200 ms).  The
    correction flag is still true and the struck string 1 plays fret 7 (the
    override note 52 over the open A, 45), not the open string. *)
Lemma stale_result_still_corrects :
  let result := Sample.cMajor 0 (92 # 100) true in
  let final := run sqrt_exact pow_unit Sample.lateSession initialApp in
  stale WS_CONFIG.inferenceThrottleMs result 1100 = true /\
  lastInferenceResult (store (world (fst final))) = Some result /\
  map timestamp (snd final) = [1100%Q; 1200%Q] /\
  map stringIndex (snd final) = [1; 1] /\
  map fretIndex (snd final) = [7; 7] /\
  correctionActive (store (world (fst final))) = true.
Proof.
  cbv zeta. repeat split; vm_compute; reflexivity.
Defined.

(** A result that activates correction and carries override notes: string 1
    plays the note 52, seven frets above the open A, in the strum that
    follows; the same result with another confidence or fingering map does
    the same. *)
Lemma client_takes_flag_and_frets_from_result_witness :
  let r := Sample.cMajor 0 (85 # 100) true in
  let s' := onmessage (inference_result r) defaultStore in
  correctionActive s' = true /\ resolveFret s' 1 = 7 /\
  exists ev,
    snd (processStrumMovement sqrt_exact pow_unit Sample.p1 1100 1
           (withStore (fun _ => s') Sample.seededWorld)) = Some ev /\
    stringIndex ev = 1 /\ fretIndex ev = 7.
Proof.
  cbv zeta.
  destruct (client_takes_flag_and_frets_from_result sqrt_exact pow_unit
              (Sample.cMajor 0 (85 # 100) true) defaultStore)
    as (Hflag & _ & _ & Hfret & _ & Hstrum).
  split; [exact Hflag|]. split; [rewrite Hfret; reflexivity|].
  assert (exists ev,
            snd (processStrumMovement sqrt_exact pow_unit Sample.p1 1100 1
                   (withStore
                      (fun _ => onmessage
                                  (inference_result
                                     (Sample.cMajor 0 (85 # 100) true))
                                  defaultStore)
                      Sample.seededWorld)) = Some ev /\
            stringIndex ev = 1) as (ev & Hev & Hidx).
  { eexists. split; vm_compute; reflexivity. }
  exists ev. split; [exact Hev|]. split; [exact Hidx|].
  rewrite (Hstrum _ _ _ _ _ Hev), Hidx. reflexivity.
Defined.

(** C2, as stated, fails for a result that activates correction without
    override notes: with confidence 0.85 and the flag on, the flag is stored
    but every string resolves to fret 0, and the strum on string 1 plays the
    open string although the fingering map of the result asks for fret 2. *)
Lemma active_result_without_notes_plays_open_strings :
  let r := mkInferenceResult 0 "G_Major" (85 # 100) [3; 2; 0; 0; 0; 3] true
             None in
  let w := withStore (onmessage (inference_result r)) Sample.seededWorld in
  (AI_CONFIG.confidenceThreshold <= confidence r)%Q /\
  correctionActive (store w) = true /\
  map (resolveFret (store w)) [0; 1; 2; 3; 4; 5] = [0; 0; 0; 0; 0; 0] /\
  nth 1 (fingering_map r) 0 = 2 /\
  exists ev,
    snd (processStrumMovement sqrt_exact pow_unit Sample.p1 1100 1 w)
    = Some ev /\
    stringIndex ev = 1 /\ fretIndex ev = 0.
Proof.
  cbv zeta. split; [vm_compute; discriminate|].
  split; [reflexivity|]. split; [reflexivity|]. split; [reflexivity|].
  eexists. split; [vm_compute; reflexivity|]. split; reflexivity.
Defined.

(** ** Reconnection: [ws.onclose] *)

Lemma connect_attempts constructed c s :
  reconnectAttempts (fst (connect constructed (c, s))) = reconnectAttempts c.
Proof.
  destruct (connect_cases constructed c s) as [-> | [-> | ->]]; reflexivity.
Qed.

(** What a run of losses schedules: the fixed [RECONNECT_DELAY] while
    attempts remain, then nothing. *)
Lemma consecutiveLosses_schedule n :
  forall c s,
    (reconnectAttempts c <= MAX_RECONNECT_ATTEMPTS)%nat ->
    snd (consecutiveLosses n (c, s)) =
      repeat (Some RECONNECT_DELAY)
        (Nat.min n (MAX_RECONNECT_ATTEMPTS - reconnectAttempts c))
      ++ repeat None (n - (MAX_RECONNECT_ATTEMPTS - reconnectAttempts c)).
Proof.
  induction n as [|n IH]; intros c s Hle; [reflexivity|].
  cbn [consecutiveLosses]. unfold onclose.
  destruct (reconnectAttempts c <? MAX_RECONNECT_ATTEMPTS)%nat eqn:E.
  - apply Nat.ltb_lt in E.
    specialize (IH (mkWsClient (Some CONNECTING) (S (reconnectAttempts c))
                      (Some RECONNECT_DELAY))
                   (setWsConnected false s)).
    cbn [reconnectAttempts] in IH. specialize (IH E).
    cbn [connect wsRef reconnectAttempts reconnectTimeout].
    destruct (consecutiveLosses n _) as [cs' rest]. cbn [snd] in *.
    rewrite IH.
    replace (MAX_RECONNECT_ATTEMPTS - reconnectAttempts c)%nat
      with (S (MAX_RECONNECT_ATTEMPTS - S (reconnectAttempts c)))%nat by lia.
    reflexivity.
  - apply Nat.ltb_ge in E.
    specialize (IH (mkWsClient None (reconnectAttempts c) (reconnectTimeout c))
                   (setError (Some offlineMessage) (setWsConnected false s))).
    cbn [reconnectAttempts] in IH. specialize (IH Hle).
    destruct (consecutiveLosses n _) as [cs' rest]. cbn [snd] in *.
    rewrite IH.
    replace (MAX_RECONNECT_ATTEMPTS - reconnectAttempts c)%nat with 0%nat
      by lia.
    rewrite Nat.min_0_r, !Nat.sub_0_r. reflexivity.
Qed.

(** Once the attempts are used up, a loss sets the offline error and
    schedules nothing, and the state is stable under further losses. *)
Lemma onclose_exhausted c s :
  reconnectAttempts c = MAX_RECONNECT_ATTEMPTS ->
  let '(c', s', scheduled) := onclose (c, s) in
  scheduled = None /\ error s' = Some offlineMessage /\
  wsRef c' = None /\ reconnectAttempts c' = MAX_RECONNECT_ATTEMPTS.
Proof.
  intros H. unfold onclose. cbv beta iota. rewrite H, Nat.ltb_irrefl.
  cbn. tauto.
Qed.

(** C3: three connection losses in a row schedule the reconnection after
    3000 ms each time; the delay neither starts at the configured base of
    1000 ms nor doubles, whereas exponential backoff from
    [WS_CONFIG.reconnectBaseDelay] capped at [WS_CONFIG.reconnectMaxDelay]
    waits 1000, 2000 and 4000 ms.  The number of attempts is bounded (five),
    and the sixth loss schedules nothing and sets the offline error. *)
Theorem reconnect_delay_does_not_double :
  snd (consecutiveLosses 3 (connect true (newWsClient, defaultStore)))
    = [Some 3000%Q; Some 3000%Q; Some 3000%Q] /\
  map (backoffDelay WS_CONFIG.reconnectBaseDelay WS_CONFIG.reconnectMaxDelay)
      [0%nat; 1%nat; 2%nat]
    = [1000%Q; 2000%Q; 4000%Q] /\
  snd (consecutiveLosses 7 (connect true (newWsClient, defaultStore)))
    = [Some 3000%Q; Some 3000%Q; Some 3000%Q; Some 3000%Q; Some 3000%Q;
       None; None] /\
  error
    (snd (fst (consecutiveLosses 7 (connect true (newWsClient, defaultStore)))))
    = Some offlineMessage.
Proof. repeat split; vm_compute; reflexivity. Qed.

(** ** Landmark smoothing: [processHand] and [onResults] *)

Section SmoothingProperties.

Variable js_sqrt : Q -> Q.

(** With the enum imported as a type only, naming one of its members
    throws. *)
Lemma member_unbound value :
  member HandTracker_LandmarkIndex value
  = throw (ReferenceError "LandmarkIndex").
Proof. reflexivity. Qed.

(** [processHand] names [LandmarkIndex.WRIST] before anything else. *)
Lemma processHand_throws lms handedness prev :
  processHand js_sqrt HandTracker_LandmarkIndex lms handedness prev
  = throw (ReferenceError "LandmarkIndex").
Proof. reflexivity. Qed.

(** What [onResults] does with a frame: without hands it clears the hands
    and the previous landmarks; with a hand it marks tracking on and is
    ended by the exception of the first [processHand], before a hand or
    previous landmarks are written. *)
Lemma onResults_frame frame prev s :
  onResults js_sqrt HandTracker_LandmarkIndex frame (prev, s) =
    if hasHand frame
    then (Some (ReferenceError "LandmarkIndex"), (prev, setIsTracking true s))
    else (None,
          (mkPrev None None,
           setIsTracking false (setRightHand None (setLeftHand None s)))).
Proof. destruct frame; reflexivity. Qed.

(** Frame after frame: the hands and the previous landmarks are cleared by
    the first frame without hands and are never set. *)
Lemma runFrames_frames frames :
  forall prev s,
    let out := runFrames js_sqrt HandTracker_LandmarkIndex frames (prev, s) in
    let lost := existsb (fun f => negb (hasHand f)) frames in
    fst out = map frameError frames /\
    leftHand (snd (snd out)) = (if lost then None else leftHand s) /\
    rightHand (snd (snd out)) = (if lost then None else rightHand s) /\
    fst (snd out) = (if lost then mkPrev None None else prev) /\
    isTracking (snd (snd out))
    = match frames with
      | [] => isTracking s
      | _ => hasHand (List.last frames [])
      end /\
    trackerFrame s (snd (snd out)).
Proof.
  induction frames as [|f rest IH]; intros prev s; cbv zeta.
  - cbn. repeat split.
  - cbn [runFrames]. rewrite onResults_frame.
    destruct (hasHand f) eqn:Hf.
    + specialize (IH prev (setIsTracking true s)). cbv zeta in IH.
      destruct (runFrames _ _ rest _) as [es [prev' s']].
      cbn [fst snd] in *. destruct IH as (He & Hl & Hr & Hp & Htr & Hfr).
      cbn [map existsb]. unfold frameError at 1. rewrite Hf. cbn [negb orb].
      split; [rewrite He; reflexivity|].
      split; [exact Hl|]. split; [exact Hr|]. split; [exact Hp|].
      split.
      * rewrite Htr. destruct rest as [|g rest']; [symmetry; exact Hf|].
        reflexivity.
      * unfold trackerFrame in *. cbn in *. exact Hfr.
    + specialize (IH (mkPrev None None)
                     (setIsTracking false
                        (setRightHand None (setLeftHand None s)))).
      cbv zeta in IH.
      destruct (runFrames _ _ rest _) as [es [prev' s']].
      cbn [fst snd] in *. destruct IH as (He & Hl & Hr & Hp & Htr & Hfr).
      cbn [map existsb]. unfold frameError at 1. rewrite Hf. cbn [negb orb].
      split; [rewrite He; reflexivity|].
      split; [rewrite Hl; destruct (existsb _ rest); reflexivity|].
      split; [rewrite Hr; destruct (existsb _ rest); reflexivity|].
      split; [rewrite Hp; destruct (existsb _ rest); reflexivity|].
      split.
      * rewrite Htr. destruct rest as [|g rest']; [symmetry; exact Hf|].
        reflexivity.
      * unfold trackerFrame in *. cbn in *. exact Hfr.
Qed.

End SmoothingProperties.

(** C4: [processHand] returns no smoothed vector at all.  It names
    [LandmarkIndex.WRIST] first, the enum is imported as a type only, and
    the call throws a [ReferenceError] whatever the landmarks, the hand and
    the previous landmarks are.  So for the hand seen in three frames with
    the fingertip at height 0, 1 and 1, each call of [onResults] is ended by
    that exception: tracking is marked on, and neither a hand nor previous
    landmarks are stored.  The same holds after every sequence of frames
    from the initial store. *)
Theorem processHand_throws_before_smoothing :
  (forall (js_sqrt : Q -> Q) (lms : list Point3D) (handedness : Handedness)
          (prev : option (list Point3D)),
     processHand js_sqrt HandTracker_LandmarkIndex lms handedness prev
     = throw (ReferenceError "LandmarkIndex")) /\
  runFrames sqrt_exact HandTracker_LandmarkIndex
    [Sample.frame 0; Sample.frame 1; Sample.frame 1]
    (mkPrev None None, defaultStore)
  = ([Some (ReferenceError "LandmarkIndex");
      Some (ReferenceError "LandmarkIndex");
      Some (ReferenceError "LandmarkIndex")],
     (mkPrev None None, setIsTracking true defaultStore)) /\
  (forall (js_sqrt : Q -> Q) (frames : list (list DetectedHand)),
     let out := runFrames js_sqrt HandTracker_LandmarkIndex frames
                  (mkPrev None None, defaultStore) in
     leftHand (snd (snd out)) = None /\
     rightHand (snd (snd out)) = None /\
     fst (snd out) = mkPrev None None).
Proof.
  split; [intros; reflexivity|]. split; [reflexivity|].
  intros js_sqrt frames. cbv zeta.
  destruct (runFrames_frames js_sqrt frames (mkPrev None None) defaultStore)
    as (_ & Hl & Hr & Hp & _).
  cbv zeta in *. rewrite Hl, Hr, Hp.
  destruct (existsb _ frames); repeat split.
Qed.

(** Were the enum imported as a value, the three frames would be processed,
    and the smoothed height of the fingertip would be 0, then 0.3, then 1:
    [onResults] keeps the normalized landmarks of the frame before, not the
    smoothed ones, so the third frame is smoothed against the raw height 1
    of the second ([0.3 * 1 + 0.7 * 1]), where smoothing against the
    previous output gives [0.3 * 1 + 0.7 * 0.3 = 0.51]. *)
Lemma value_import_smooths_against_previous_raw :
  let start := (mkPrev None None, defaultStore) in
  let after n :=
    leftHand
      (snd (snd (runFrames sqrt_exact ValueImport
                   (firstn n [Sample.frame 0; Sample.frame 1; Sample.frame 1])
                   start))) in
  let height h := nth Sample.tipY (normalized h) 0%Q in
  exists h1 h2 h3,
    after 1%nat = Some h1 /\ after 2%nat = Some h2 /\ after 3%nat = Some h3 /\
    (height h1 == 0)%Q /\
    (height h2 == 3 # 10)%Q /\
    (height h3 == 1)%Q /\
    (EMA_ALPHA * 1 + (1 - EMA_ALPHA) * height h2 == 51 # 100)%Q /\
    ~ (height h3 == EMA_ALPHA * 1 + (1 - EMA_ALPHA) * height h2)%Q.
Proof.
  cbv zeta. eexists _, _, _.
  split; [vm_compute; reflexivity|].
  split; [vm_compute; reflexivity|].
  split; [vm_compute; reflexivity|].
  repeat split; vm_compute; congruence.
Qed.

(** * Further properties of the engine, the socket hook and the tracker *)

(** ** [playNote] and [releaseNote], voice by voice *)

Section VoiceOperations.

Variable js_pow : Q -> Q -> Q.

Lemma tuning_nonneg n : 0 <= nth n GUITAR_TUNING 0.
Proof. do 7 (destruct n as [|n]; [cbn; lia|]). cbn. destruct n; lia. Qed.

Lemma voiceAt_range vs i voice :
  voiceAt vs i = Some voice -> 0 <= i < Z.of_nat (length vs).
Proof.
  unfold voiceAt. destruct (i <? 0) eqn:E; [discriminate|].
  apply Z.ltb_ge in E. intros H. apply lookup_lt_Some in H. lia.
Qed.

Lemma voiceAt_insert_eq vs i voice voice' :
  voiceAt vs i = Some voice ->
  voiceAt (<[Z.to_nat i := voice']> vs) i = Some voice'.
Proof.
  intros H. pose proof (voiceAt_range _ _ _ H) as Hr. unfold voiceAt in *.
  destruct (i <? 0); [discriminate|].
  apply list_lookup_insert_eq. eapply lookup_lt_Some, H.
Qed.

Lemma liveState_initialized e st :
  liveState e = Some st -> isInitialized st = true.
Proof.
  unfold liveState. destruct (state e) as [st'|]; [|discriminate].
  destruct (isInitialized st') eqn:E; [|discriminate]. intros [= <-]. exact E.
Qed.

Lemma liveState_intro e st :
  state e = Some st -> isInitialized st = true -> liveState e = Some st.
Proof. intros H1 H2. unfold liveState. rewrite H1, H2. reflexivity. Qed.

(** The world [playNote] builds when it accepts a trigger. *)
Lemma playNote_accept i fret v now w st voice :
  liveState (engine w) = Some st ->
  voiceAt (voices st) i = Some voice ->
  (STRUM_DEBOUNCE_MS / 1000 <= now - lastNoteTime voice)%Q ->
  0 <= fret ->
  isMuted (store w) = false ->
  playNote js_pow i fret v now w =
    let g := (velocityToGain js_pow v AUDIO_CONFIG.minGain AUDIO_CONFIG.maxGain
                AUDIO_CONFIG.gainGamma * masterVolume (store w))%Q in
    mkWorld
      (mkEngine
         (Some (withVoices (<[Z.to_nat i := mkVoice true now g]> (voices st))
                  st))
         (lastStrumTime (engine w)))
      (addActiveString i (store w))
      (tone w ++
         [GainSetValueAtTime i g now;
          SynthTriggerAttack i (nth (Z.to_nat i) GUITAR_TUNING 0 + fret) now;
          EnvelopeTriggerAttack i now])
      (timers w ++ [AutoRelease i 1500]).
Proof.
  intros Hlive Hvoice Hdeb Hfret Hmute. unfold playNote.
  rewrite Hlive. pose proof (voiceAt_range _ _ _ Hvoice) as Hr.
  replace ((i <? 0) || (Z.of_nat (length (voices st)) <=? i)) with false
    by (symmetry; apply orb_false_iff; split;
        [apply Z.ltb_ge | apply Z.leb_gt]; lia).
  rewrite Hvoice. apply JsNumFacts.ltb_ge in Hdeb. rewrite Hdeb.
  unfold getFrettedMidi.
  replace (fret <? 0) with false by (symmetry; apply Z.ltb_ge; lia).
  pose proof (tuning_nonneg (Z.to_nat i)) as Ht.
  replace (nth (Z.to_nat i) GUITAR_TUNING 0 + fret <? 0) with false
    by (symmetry; apply Z.ltb_ge; lia).
  rewrite Hmute. reflexivity.
Qed.

(** Conversely, a trigger that changes anything met all the conditions. *)
Lemma playNote_changed i fret v now w :
  playNote js_pow i fret v now w <> w ->
  exists st voice,
    liveState (engine w) = Some st /\
    voiceAt (voices st) i = Some voice /\
    (STRUM_DEBOUNCE_MS / 1000 <= now - lastNoteTime voice)%Q /\
    0 <= fret /\
    isMuted (store w) = false.
Proof.
  unfold playNote.
  destruct (liveState (engine w)) as [st|]; [|congruence].
  destruct (_ || _); [congruence|].
  destruct (voiceAt (voices st) i) as [voice|] eqn:Hvoice; [|congruence].
  destruct (JsNum.ltb (now - lastNoteTime voice) _) eqn:Hdeb; [congruence|].
  destruct (getFrettedMidi _ fret <? 0) eqn:Hmidi; [congruence|].
  destruct (isMuted (store w)) eqn:Hmute; [congruence|].
  intros _. exists st, voice.
  split; [reflexivity|]. split; [exact Hvoice|].
  split; [apply JsNumFacts.ltb_ge, Hdeb|]. split; [|reflexivity].
  unfold getFrettedMidi in Hmidi. destruct (fret <? 0) eqn:E.
  - discriminate.
  - apply Z.ltb_ge, E.
Qed.

(** X1: on a well-formed engine, a trigger with a fret [>= 0] on a string
    whose voice is past its debounce interval, with the store not muted, is
    accepted: the voice of that string becomes playing with [now] as its
    last trigger time and [velocityToGain * masterVolume] as its gain, the
    string is added to the store's active strings, the synth is attacked at
    the open-string note plus [fret], an auto-release timer of 1500 ms is
    set, and the other voices, the strum state and [lastStrumTime] are
    untouched.  Conversely a trigger that changes the world met these
    conditions. *)
Theorem playNote_accepted_effect :
  forall (w : World) (st : AudioEngineState) (voice : StringVoice)
         (i fret : Z) (v now : Q),
    engineOk w ->
    liveState (engine w) = Some st ->
    voiceAt (voices st) i = Some voice ->
    let w' := playNote js_pow i fret v now w in
    ((STRUM_DEBOUNCE_MS / 1000 <= now - lastNoteTime voice)%Q ->
     0 <= fret ->
     isMuted (store w) = false ->
     exists g,
       g = (velocityToGain js_pow v AUDIO_CONFIG.minGain AUDIO_CONFIG.maxGain
              AUDIO_CONFIG.gainGamma * masterVolume (store w))%Q /\
       voiceAt (engineVoices w') i = Some (mkVoice true now g) /\
       (forall j, j <> i ->
          voiceAt (engineVoices w') j = voiceAt (engineVoices w) j) /\
       activeStrings (store w') = activeStrings (store w) ∪ {[ i ]} /\
       tone w' =
         tone w ++
           [GainSetValueAtTime i g now;
            SynthTriggerAttack i (nth (Z.to_nat i) GUITAR_TUNING 0 + fret) now;
            EnvelopeTriggerAttack i now] /\
       timers w' = timers w ++ [AutoRelease i 1500] /\
       lastStrumTime (engine w') = lastStrumTime (engine w) /\
       (exists st', state (engine w') = Some st' /\
                    strumState st' = strumState st /\
                    masterGain st' = masterGain st))
    /\
    (w' <> w ->
     (STRUM_DEBOUNCE_MS / 1000 <= now - lastNoteTime voice)%Q /\
     0 <= fret /\ isMuted (store w) = false /\ 0 <= i <= 5).
Proof.
  intros w st voice i fret v now Hok Hlive Hvoice w'. split.
  - intros Hdeb Hfret Hmute. subst w'.
    rewrite (playNote_accept _ _ _ _ _ _ _ Hlive Hvoice Hdeb Hfret Hmute).
    cbv zeta. eexists. split; [reflexivity|].
    pose proof (liveState_state _ _ Hlive) as Hst.
    unfold engineVoices. rewrite Hst. cbn.
    split; [eapply voiceAt_insert_eq, Hvoice|].
    split.
    { intros j Hj. apply voiceAt_insert_ne; [|exact Hj].
      apply (voiceAt_range _ _ _ Hvoice). }
    split; [reflexivity|]. split; [reflexivity|]. split; [reflexivity|].
    split; [reflexivity|]. eexists. split; [reflexivity|]. split; reflexivity.
  - intros Hchanged. subst w'.
    destruct (playNote_changed _ _ _ _ _ Hchanged)
      as (st' & voice' & Hlive' & Hvoice' & Hdeb & Hfret & Hmute).
    rewrite Hlive in Hlive'. injection Hlive' as <-.
    rewrite Hvoice in Hvoice'. injection Hvoice' as <-.
    split; [exact Hdeb|]. split; [exact Hfret|]. split; [exact Hmute|].
    pose proof (voiceAt_range _ _ _ Hvoice) as Hr.
    destruct (Hok st (liveState_state _ _ Hlive)) as [_ Hlen].
    rewrite Hlen in Hr. cbn in Hr. lia.
Qed.

End VoiceOperations.

(** ** [releaseNote] and [stopAll] *)

Section ReleaseOperations.

Variable js_pow : Q -> Q -> Q.

Lemma engineVoices_live w st :
  liveState (engine w) = Some st -> engineVoices w = voices st.
Proof.
  intros H. apply liveState_state in H. unfold engineVoices. rewrite H.
  reflexivity.
Qed.

Lemma releaseNote_sounding i now w st voice :
  liveState (engine w) = Some st ->
  voiceAt (voices st) i = Some voice ->
  isPlaying voice = true ->
  releaseNote i now w =
    mkWorld
      (mkEngine
         (Some (withVoices
                  (<[Z.to_nat i := mkVoice false (lastNoteTime voice)
                                     (gain voice)]> (voices st)) st))
         (lastStrumTime (engine w)))
      (removeActiveString i (store w))
      (tone w ++ [EnvelopeTriggerRelease i now])
      (timers w).
Proof.
  intros Hlive Hvoice Hplaying. unfold releaseNote.
  rewrite Hlive, Hvoice, Hplaying. reflexivity.
Qed.

Lemma releaseNote_idle i now w :
  (forall voice,
     voiceAt (engineVoices w) i = Some voice -> isPlaying voice = false) ->
  releaseNote i now w = w.
Proof.
  intros Hidle. unfold releaseNote.
  destruct (liveState (engine w)) as [st|] eqn:Hlive; [|reflexivity].
  rewrite (engineVoices_live _ _ Hlive) in Hidle.
  destruct (voiceAt (voices st) i) as [voice|]; [|reflexivity].
  rewrite (Hidle voice eq_refl). reflexivity.
Qed.

(** X2: [releaseNote] on a string that is not sounding (idle, out of range,
    or no engine state) changes nothing.  On a sounding string it clears the
    playing flag of that voice only, removes the string from the store's
    active strings and issues one envelope release; the voice keeps its last
    trigger time and gain, so a trigger that falls within the debounce
    interval of the last attack is still rejected after the release. *)
Theorem releaseNote_effect :
  forall (w : World) (i : Z) (now : Q),
    ((forall voice,
        voiceAt (engineVoices w) i = Some voice -> isPlaying voice = false) ->
     releaseNote i now w = w)
    /\
    (forall st voice,
       liveState (engine w) = Some st ->
       voiceAt (voices st) i = Some voice ->
       isPlaying voice = true ->
       let w' := releaseNote i now w in
       voiceAt (engineVoices w') i
         = Some (mkVoice false (lastNoteTime voice) (gain voice)) /\
       (forall j, j <> i ->
          voiceAt (engineVoices w') j = voiceAt (engineVoices w) j) /\
       activeStrings (store w') = activeStrings (store w) ∖ {[ i ]} /\
       tone w' = tone w ++ [EnvelopeTriggerRelease i now] /\
       timers w' = timers w /\
       (forall fret v now',
          (now' - lastNoteTime voice < STRUM_DEBOUNCE_MS / 1000)%Q ->
          playNote js_pow i fret v now' w' = w')).
Proof.
  intros w i now. split; [apply releaseNote_idle|].
  intros st voice Hlive Hvoice Hplaying. cbv zeta.
  rewrite (releaseNote_sounding _ _ _ _ _ Hlive Hvoice Hplaying).
  rewrite (engineVoices_live _ _ Hlive). unfold engineVoices. cbn [engine state voices withVoices store tone timers].
  pose proof (voiceAt_range _ _ _ Hvoice) as Hr.
  split; [eapply voiceAt_insert_eq, Hvoice|].
  split; [intros j Hj; apply voiceAt_insert_ne; [lia | exact Hj]|].
  split; [reflexivity|]. split; [reflexivity|]. split; [reflexivity|].
  intros fret v now' Hrecent. unfold playNote, liveState.
  cbn [engine state isInitialized withVoices voices].
  rewrite (liveState_initialized _ _ Hlive).
  unfold withVoices. cbn [voices]. rewrite length_insert.
  replace ((i <? 0) || (Z.of_nat (length (voices st)) <=? i)) with false
    by (symmetry; apply orb_false_iff; split;
        [apply Z.ltb_ge | apply Z.leb_gt]; lia).
  rewrite (voiceAt_insert_eq _ _ _ _ Hvoice). cbn [lastNoteTime].
  apply JsNumFacts.ltb_lt in Hrecent. rewrite Hrecent. reflexivity.
Qed.

(** *** [stopAll] *)

Lemma elem_of_playingFrom vs : forall k j,
  j ∈ playingFrom k vs <->
  k <= j /\ exists v, vs !! Z.to_nat (j - k) = Some v /\ isPlaying v = true.
Proof.
  induction vs as [|x vs IH]; intros k j; cbn [playingFrom].
  - split; [intros H; inversion H|]. intros (_ & v & H & _). discriminate.
  - assert (j ∈ playingFrom (k + 1) vs <->
            k < j /\ exists v, (x :: vs) !! Z.to_nat (j - k) = Some v
                               /\ isPlaying v = true) as Htail.
    { rewrite IH. split.
      - intros (Hk & v & Hv & Hp). split; [lia|]. exists v. split; [|exact Hp].
        replace (Z.to_nat (j - k)) with (S (Z.to_nat (j - (k + 1)))) by lia.
        exact Hv.
      - intros (Hk & v & Hv & Hp). split; [lia|]. exists v. split; [|exact Hp].
        replace (Z.to_nat (j - k)) with (S (Z.to_nat (j - (k + 1)))) in Hv
          by lia. exact Hv. }
    destruct (isPlaying x) eqn:Hx.
    + rewrite elem_of_cons, Htail. split.
      * intros [-> | (Hk & H)]; [|split; [lia|exact H]].
        split; [lia|]. exists x. rewrite Z.sub_diag. split; [reflexivity|exact Hx].
      * intros (Hk & v & Hv & Hp).
        destruct (Z.eq_dec j k) as [->|Hne]; [left; reflexivity|].
        right. split; [lia|]. exists v. split; assumption.
    + rewrite Htail. split.
      * intros (Hk & H). split; [lia|exact H].
      * intros (Hk & v & Hv & Hp).
        destruct (Z.eq_dec j k) as [->|Hne].
        -- rewrite Z.sub_diag in Hv. cbn in Hv. injection Hv as <-. congruence.
        -- split; [lia|]. exists v. split; assumption.
Qed.

Lemma NoDup_playingFrom vs : forall k, NoDup (playingFrom k vs).
Proof.
  induction vs as [|x vs IH]; intros k; cbn [playingFrom]; [constructor|].
  destruct (isPlaying x); [|apply IH].
  constructor; [|apply IH]. rewrite elem_of_playingFrom. lia.
Qed.

Lemma length_playingFrom vs : forall k,
  length (playingFrom k vs) = soundingCount vs.
Proof.
  unfold soundingCount.
  induction vs as [|x vs IH]; intros k; cbn [playingFrom]; [reflexivity|].
  rewrite filter_cons. destruct (isPlaying x) eqn:Hx.
  - destruct (decide (true = true)); [|congruence]. cbn. rewrite IH.
    reflexivity.
  - destruct (decide (false = true)); [discriminate|]. apply IH.
Qed.

Lemma elem_of_playingFrom_voiceAt vs j :
  j ∈ playingFrom 0 vs <->
  exists v, voiceAt vs j = Some v /\ isPlaying v = true.
Proof.
  rewrite elem_of_playingFrom, Z.sub_0_r. unfold voiceAt. split.
  - intros (Hj & v & Hv & Hp). exists v.
    replace (j <? 0) with false by (symmetry; apply Z.ltb_ge; lia).
    split; assumption.
  - intros (v & Hv & Hp). destruct (j <? 0) eqn:E; [discriminate|].
    apply Z.ltb_ge in E. split; [exact E|]. exists v. split; assumption.
Qed.

(** Releasing distinct sounding strings one after the other. *)
Lemma release_all_spec now l :
  forall w st,
    liveState (engine w) = Some st ->
    NoDup l ->
    (forall i, i ∈ l ->
       exists voice, voiceAt (voices st) i = Some voice
                     /\ isPlaying voice = true) ->
    exists st',
      liveState
        (engine (fold_left (fun acc i => releaseNote i now acc) l w))
        = Some st' /\
      length (voices st') = length (voices st) /\
      strumState st' = strumState st /\
      masterGain st' = masterGain st /\
      (forall j,
         voiceAt (voices st') j =
           (fun v => if decide (j ∈ l)
                     then mkVoice false (lastNoteTime v) (gain v) else v)
             <$> voiceAt (voices st) j) /\
      tone (fold_left (fun acc i => releaseNote i now acc) l w)
        = tone w ++ map (fun i => EnvelopeTriggerRelease i now) l /\
      timers (fold_left (fun acc i => releaseNote i now acc) l w) = timers w.
Proof.
  induction l as [|i l IH]; intros w st Hlive Hnodup Hall.
  - exists st. cbn [fold_left map]. rewrite app_nil_r.
    repeat (split; [try reflexivity; try exact Hlive|]); [|reflexivity].
    intros j. destruct (voiceAt (voices st) j); cbn; [|reflexivity].
    destruct (decide (j ∈ [])) as [H|_]; [inversion H|reflexivity].
  - apply NoDup_cons in Hnodup as [Hnotin Hnodup].
    destruct (Hall i) as (voice & Hvoice & Hplaying); [left|].
    cbn [fold_left]. rewrite (releaseNote_sounding _ _ _ _ _ Hlive Hvoice Hplaying).
    pose proof (voiceAt_range _ _ _ Hvoice) as Hr.
    set (st1 := withVoices
                  (<[Z.to_nat i := mkVoice false (lastNoteTime voice)
                                     (gain voice)]> (voices st)) st).
    set (w1 := mkWorld (mkEngine (Some st1) (lastStrumTime (engine w)))
                 (removeActiveString i (store w))
                 (tone w ++ [EnvelopeTriggerRelease i now]) (timers w)).
    assert (liveState (engine w1) = Some st1) as Hlive1.
    { apply liveState_intro; [reflexivity|].
      apply (liveState_initialized _ _ Hlive). }
    destruct (IH w1 st1 Hlive1 Hnodup) as (st' & H1 & H2 & H3 & H4 & H5 & H6 & H7).
    { intros j Hj. destruct (Hall j) as (vj & Hvj & Hpj); [right; exact Hj|].
      exists vj. split; [|exact Hpj]. subst st1. cbn [voices withVoices].
      rewrite voiceAt_insert_ne; [exact Hvj | lia |].
      intros ->. contradiction. }
    exists st'. split; [exact H1|].
    split; [rewrite H2; subst st1; cbn; apply length_insert|].
    split; [rewrite H3; reflexivity|]. split; [rewrite H4; reflexivity|].
    split.
    { intros j. rewrite H5. subst st1. cbn [voices withVoices].
      destruct (Z.eq_dec j i) as [->|Hne].
      - rewrite (voiceAt_insert_eq _ _ _ _ Hvoice), Hvoice. cbn.
        destruct (decide (i ∈ l)); [contradiction|].
        destruct (decide (i ∈ i :: l)) as [_|Hn]; [reflexivity|].
        exfalso. apply Hn. left.
      - rewrite voiceAt_insert_ne by (lia || exact Hne).
        destruct (voiceAt (voices st) j) as [vj|]; cbn; [|reflexivity].
        destruct (decide (j ∈ l)) as [Hin|Hout];
          destruct (decide (j ∈ i :: l)) as [Hin'|Hout']; try reflexivity.
        + exfalso. apply Hout'. right. exact Hin.
        + exfalso. apply elem_of_cons in Hin' as [->|Hin']; contradiction. }
    split; [|exact H7].
    rewrite H6. subst w1. cbn [tone map]. rewrite <- app_assoc. reflexivity.
Qed.

Lemma soundingCount_zero vs :
  (forall n v, vs !! n = Some v -> isPlaying v = false) ->
  soundingCount vs = 0%nat.
Proof.
  unfold soundingCount. induction vs as [|x vs IH]; intros H; [reflexivity|].
  rewrite filter_cons. rewrite (H 0%nat x eq_refl).
  destruct (decide (false = true)); [discriminate|].
  apply IH. intros k v Hk. apply (H (S k) v Hk).
Qed.

(** What [stopAll] does, with and without a live engine. *)
Lemma stopAll_spec :
  forall (w : World) (now : Q),
    (liveState (engine w) = None -> stopAll now w = w) /\
    (forall st,
       liveState (engine w) = Some st ->
       let w' := stopAll now w in
       soundingCount (engineVoices w') = 0%nat /\
       length (engineVoices w') = length (voices st) /\
       activeStrings (store w') = ∅ /\
       (forall j voice',
          voiceAt (engineVoices w') j = Some voice' ->
          isPlaying voice' = false /\
          exists voice,
            voiceAt (voices st) j = Some voice /\
            lastNoteTime voice' = lastNoteTime voice /\
            gain voice' = gain voice) /\
       tone w' =
         tone w ++ map (fun i => EnvelopeTriggerRelease i now)
                       (playingFrom 0 (voices st)) /\
       length (playingFrom 0 (voices st)) = soundingCount (voices st) /\
       timers w' = timers w).
Proof.
  intros w now. split.
  { intros H. unfold stopAll. rewrite H. reflexivity. }
  intros st Hlive. cbv zeta. unfold stopAll. rewrite Hlive.
  destruct (release_all_spec now (playingFrom 0 (voices st)) w st Hlive
              (NoDup_playingFrom _ _))
    as (st' & H1 & H2 & _ & _ & H5 & H6 & H7).
  { intros i. apply elem_of_playingFrom_voiceAt. }
  set (w1 := fold_left (fun acc i => releaseNote i now acc)
               (playingFrom 0 (voices st)) w) in *.
  assert (engineVoices (withStore clearActiveStrings w1) = voices st') as Hv.
  { apply (engineVoices_live w1), H1. }
  rewrite Hv.
  assert (forall j voice',
            voiceAt (voices st') j = Some voice' ->
            isPlaying voice' = false /\
            exists voice,
              voiceAt (voices st) j = Some voice /\
              lastNoteTime voice' = lastNoteTime voice /\
              gain voice' = gain voice) as Hidle.
  { intros j voice' Hj. rewrite H5 in Hj.
    destruct (voiceAt (voices st) j) as [voice|] eqn:Hvj; [|discriminate].
    cbn in Hj. injection Hj as <-.
    destruct (decide (j ∈ playingFrom 0 (voices st))) as [Hin|Hout].
    - split; [reflexivity|]. exists voice. repeat split.
    - split; [|exists voice; repeat split].
      destruct (isPlaying voice) eqn:Hp; [|reflexivity].
      exfalso. apply Hout, elem_of_playingFrom_voiceAt. exists voice.
      split; assumption. }
  split.
  { apply soundingCount_zero. intros n v Hn.
    apply (Hidle (Z.of_nat n) v). unfold voiceAt.
    replace (Z.of_nat n <? 0) with false by (symmetry; apply Z.ltb_ge; lia).
    rewrite Nat2Z.id. exact Hn. }
  split; [exact H2|]. split; [reflexivity|]. split; [exact Hidle|].
  split; [exact H6|]. split; [apply length_playingFrom | exact H7].
Qed.

(** X3: [stopAll] on a live engine silences every voice: afterwards no voice
    is playing and the store's active strings are empty; one envelope
    release is issued per voice that was sounding, in string order, and
    every voice keeps its last trigger time and gain.  Without a live engine
    [stopAll] does nothing. *)
Theorem stopAll_silences_every_voice :
  forall (w : World) (now : Q),
    (liveState (engine w) = None -> stopAll now w = w) /\
    (forall st,
       liveState (engine w) = Some st ->
       let w' := stopAll now w in
       soundingCount (engineVoices w') = 0%nat /\
       length (engineVoices w') = length (voices st) /\
       activeStrings (store w') = ∅ /\
       (forall j voice',
          voiceAt (engineVoices w') j = Some voice' ->
          isPlaying voice' = false /\
          exists voice,
            voiceAt (voices st) j = Some voice /\
            lastNoteTime voice' = lastNoteTime voice /\
            gain voice' = gain voice) /\
       tone w' =
         tone w ++ map (fun i => EnvelopeTriggerRelease i now)
                       (playingFrom 0 (voices st)) /\
       length (playingFrom 0 (voices st)) = soundingCount (voices st) /\
       timers w' = timers w).
Proof. exact stopAll_spec. Qed.

End ReleaseOperations.

(** ** The store's active strings and the engine's voices *)

Section ActiveStrings.

Variable js_sqrt : Q -> Q.
Variable js_pow : Q -> Q -> Q.

Lemma playNote_elim (P : World -> Prop) i fret v now w :
  P w ->
  (forall st voice g,
     liveState (engine w) = Some st ->
     voiceAt (voices st) i = Some voice ->
     P (mkWorld
          (mkEngine
             (Some (withVoices (<[Z.to_nat i := mkVoice true now g]> (voices st))
                      st))
             (lastStrumTime (engine w)))
          (addActiveString i (store w))
          (tone w ++
             [GainSetValueAtTime i g now;
              SynthTriggerAttack i
                (getFrettedMidi (nth (Z.to_nat i) GUITAR_TUNING 0) fret) now;
              EnvelopeTriggerAttack i now])
          (timers w ++ [AutoRelease i 1500]))) ->
  P (playNote js_pow i fret v now w).
Proof.
  intros Hsame Hnew. unfold playNote.
  destruct (liveState (engine w)) as [st|] eqn:Hlive; [|exact Hsame].
  destruct (_ || _); [exact Hsame|].
  destruct (voiceAt (voices st) i) as [voice|] eqn:Hvoice; [|exact Hsame].
  destruct (JsNum.ltb (now - lastNoteTime voice) _); [exact Hsame|].
  destruct (getFrettedMidi _ fret <? 0); [exact Hsame|].
  destruct (isMuted (store w)); [exact Hsame|].
  eapply Hnew; [reflexivity | exact Hvoice].
Qed.

Lemma releaseNote_elim (P : World -> Prop) i now w :
  P w ->
  (forall st voice,
     liveState (engine w) = Some st ->
     voiceAt (voices st) i = Some voice ->
     isPlaying voice = true ->
     P (mkWorld
          (mkEngine
             (Some (withVoices
                      (<[Z.to_nat i := mkVoice false (lastNoteTime voice)
                                         (gain voice)]> (voices st)) st))
             (lastStrumTime (engine w)))
          (removeActiveString i (store w))
          (tone w ++ [EnvelopeTriggerRelease i now])
          (timers w))) ->
  P (releaseNote i now w).
Proof.
  intros Hsame Hnew. unfold releaseNote.
  destruct (liveState (engine w)) as [st|] eqn:Hlive; [|exact Hsame].
  destruct (voiceAt (voices st) i) as [voice|] eqn:Hvoice; [|exact Hsame].
  destruct (isPlaying voice) eqn:Hp; [|exact Hsame].
  cbn [negb]. eapply Hnew; [reflexivity | exact Hvoice | exact Hp].
Qed.

Lemma mirror_same w w' :
  engineVoices w' = engineVoices w ->
  activeStrings (store w') = activeStrings (store w) ->
  activeMirrorsVoices w -> activeMirrorsVoices w'.
Proof. intros Hv Ha H i. rewrite Hv, Ha. apply H. Qed.

(** Writing the flag of string [i] and updating the set accordingly. *)
Lemma mirror_update w st voice i (b : bool) voice' a' t ts tm :
  liveState (engine w) = Some st ->
  voiceAt (voices st) i = Some voice ->
  isPlaying voice' = b ->
  (forall j, j ∈ a' <-> (j = i /\ b = true)
                        \/ (j <> i /\ j ∈ activeStrings (store w))) ->
  activeMirrorsVoices w ->
  activeMirrorsVoices
    (mkWorld
       (mkEngine (Some (withVoices (<[Z.to_nat i := voice']> (voices st)) st))
          t)
       (withActiveStrings a' (store w)) ts tm).
Proof.
  intros Hlive Hvoice Hb Ha Hm j. specialize (Hm j).
  pose proof (voiceAt_range _ _ _ Hvoice) as Hr.
  rewrite (engineVoices_live _ _ Hlive) in Hm.
  unfold engineVoices. cbn. rewrite Ha.
  destruct (Z.eq_dec j i) as [->|Hne].
  - rewrite (voiceAt_insert_eq _ _ _ _ Hvoice). split.
    + intros [[_ Hbt] | [Hn _]]; [|contradiction].
      exists voice'. split; [reflexivity | congruence].
    + intros (v & [= <-] & Hp). left. split; [reflexivity | congruence].
  - rewrite voiceAt_insert_ne by (lia || exact Hne). rewrite <- Hm. split.
    + intros [[Hj _] | [_ Hj]]; [contradiction | exact Hj].
    + intros Hj. right. split; assumption.
Qed.

Lemma mirror_playNote i fret v now w :
  activeMirrorsVoices w -> activeMirrorsVoices (playNote js_pow i fret v now w).
Proof.
  intros Hm. apply playNote_elim; [exact Hm|].
  intros st voice g Hlive Hvoice.
  apply (mirror_update w st voice i true); try assumption; [reflexivity|].
  intros j. rewrite elem_of_union, elem_of_singleton.
  destruct (Z.eq_dec j i); tauto.
Qed.

Lemma mirror_releaseNote i now w :
  activeMirrorsVoices w -> activeMirrorsVoices (releaseNote i now w).
Proof.
  intros Hm. apply releaseNote_elim; [exact Hm|].
  intros st voice Hlive Hvoice Hp.
  apply (mirror_update w st voice i false); try assumption; [reflexivity|].
  intros j. rewrite elem_of_difference, elem_of_singleton.
  split; intros H.
  - right. tauto.
  - destruct H as [[_ H]|H]; [discriminate | tauto].
Qed.

Lemma engineOk_live w st :
  engineOk w -> state (engine w) = Some st -> liveState (engine w) = Some st.
Proof. intros Hok Hst. apply liveState_intro; [exact Hst | apply (Hok st Hst)]. Qed.

Lemma mirror_stopAll now w :
  activeMirrorsVoices w -> activeMirrorsVoices (stopAll now w).
Proof.
  intros Hm.
  destruct (liveState (engine w)) as [st|] eqn:Hlive.
  - destruct (proj2 (stopAll_spec w now) st Hlive)
      as (_ & _ & Hempty & Hidle & _).
    intros i. rewrite Hempty. split; [intros H; set_solver|].
    intros (voice & Hv & Hp). destruct (Hidle i voice Hv) as [Hf _].
    congruence.
  - rewrite (proj1 (stopAll_spec w now) Hlive). exact Hm.
Qed.

Lemma mirror_no_state (w' : World) :
  state (engine w') = None -> activeStrings (store w') = ∅ ->
  activeMirrorsVoices w'.
Proof.
  intros Hst Ha i. rewrite Ha. unfold engineVoices. rewrite Hst. split.
  - intros H. set_solver.
  - intros (v & Hv & _). unfold voiceAt in Hv.
    destruct (i <? 0); discriminate.
Qed.

Lemma mirror_strum p ts now w :
  activeMirrorsVoices w ->
  activeMirrorsVoices (fst (processStrumMovement js_sqrt js_pow p ts now w)).
Proof.
  intros Hm. unfold processStrumMovement.
  destruct (state (engine w)) as [st|] eqn:Hst; [|exact Hm].
  assert (forall ss t s,
            activeStrings s = activeStrings (store w) ->
            activeMirrorsVoices
              (mkWorld (mkEngine (Some (withStrumState ss st)) t) s
                 (tone w) (timers w))) as Hupd.
  { intros ss t s Hs. eapply mirror_same; [| |exact Hm]; [|exact Hs].
    unfold engineVoices. rewrite Hst. reflexivity. }
  destruct (lastPosition (strumState st)); [|apply Hupd; reflexivity].
  destruct (JsNum.leb _ 0); [exact Hm|].
  destruct (JsNum.ltb STRUM_SPEED_THRESHOLD _); [|apply Hupd; reflexivity].
  destruct (JsNum.ltb _ STRUM_DEBOUNCE_MS); [apply Hupd; reflexivity|].
  cbn [fst]. apply mirror_playNote. apply Hupd. reflexivity.
Qed.

Lemma mirror_step o a :
  schedulerInv (world a) ->
  activeMirrorsVoices (world a) ->
  activeMirrorsVoices (world (fst (step js_sqrt js_pow o a))).
Proof.
  intros [Hok _] Hm.
  destruct o as [ started | now | i fret v now | i now | now | v | b | v
                | p ts now | constructed | | | m ]; cbn [step fst snd world].
  - destruct (initialize_cases started (world a)) as [-> | [Hlive ->]];
      [exact Hm|].
    destruct (state (engine (world a))) as [st|] eqn:Hst.
    { rewrite (engineOk_live _ _ Hok Hst) in Hlive. discriminate. }
    intros i. cbn. split.
    + intros Hi. apply Hm in Hi as (voice & Hv & _).
      unfold engineVoices in Hv. rewrite Hst in Hv. unfold voiceAt in Hv.
      destruct (i <? 0); discriminate.
    + intros (voice & Hv & Hp). unfold voiceAt in Hv.
      destruct (i <? 0); [discriminate|].
      apply list_elem_of_lookup_2 in Hv.
      repeat (apply elem_of_cons in Hv as [->|Hv]; [discriminate|]).
      inversion Hv.
  - unfold dispose.
    destruct (state (engine (world a))) as [st|] eqn:Hst; [|exact Hm].
    apply mirror_no_state; [reflexivity|].
    pose proof (engineOk_live _ _ Hok Hst) as Hlive.
    apply (proj2 (stopAll_spec (world a) now) st Hlive).
  - apply mirror_playNote, Hm.
  - apply mirror_releaseNote, Hm.
  - apply mirror_stopAll, Hm.
  - unfold setVolume.
    destruct (liveState (engine (world a))) as [st|] eqn:Hlive; [|exact Hm].
    eapply mirror_same; [| |exact Hm]; [|reflexivity].
    rewrite (engineVoices_live _ _ Hlive). reflexivity.
  - eapply mirror_same; [| |exact Hm]; reflexivity.
  - eapply mirror_same; [| |exact Hm]; reflexivity.
  - pose proof (mirror_strum p ts now _ Hm) as H.
    destruct (processStrumMovement _ _ _ _ _ _). exact H.
  - destruct (connect_cases constructed (client a) (store (world a)))
      as [-> | [-> | ->]]; (eapply mirror_same; [| |exact Hm]; reflexivity).
  - eapply mirror_same; [| |exact Hm]; reflexivity.
  - destruct (onclose (client a, store (world a))) as [[c s] d] eqn:E.
    cbn [fst world]. eapply mirror_same; [| |exact Hm]; [reflexivity|].
    unfold onclose in E. case_match; injection E as <- <- <-; reflexivity.
  - eapply mirror_same; [| |exact Hm]; [reflexivity|].
    destruct m as [r| |]; cbn; [|reflexivity..].
    destruct (override_notes r); reflexivity.
Qed.

(** X4: in every state reachable from the initial one, the store's active
    strings are exactly the strings whose voice is playing: [playNote],
    [releaseNote], [stopAll], [dispose] and [initialize] keep the set the
    HUD and the string glow read in step with the engine's voices. *)
Theorem active_strings_mirror_playing_voices :
  forall (ops : list Op),
    activeMirrorsVoices (world (fst (run js_sqrt js_pow ops initialApp))).
Proof.
  intros ops.
  assert (forall a,
            schedulerInv (world a) -> activeMirrorsVoices (world a) ->
            activeMirrorsVoices (world (fst (run js_sqrt js_pow ops a))))
    as Hrun.
  { induction ops as [|o rest IH]; intros a Hinv Hm; [exact Hm|].
    cbn [run]. pose proof (inv_step js_sqrt js_pow o a Hinv) as H1.
    pose proof (mirror_step o a Hinv Hm) as H2.
    destruct (step js_sqrt js_pow o a) as [a1 ev].
    specialize (IH a1 H1 H2).
    destruct (run js_sqrt js_pow rest a1) as [a2 evs]. exact IH. }
  apply Hrun; [apply inv_initial|].
  apply mirror_no_state; reflexivity.
Qed.

End ActiveStrings.

(** ** What the engine leaves alone *)

Section EngineFrame.

Variable js_sqrt : Q -> Q.
Variable js_pow : Q -> Q -> Q.

Lemma engineFrame_refl s : engineFrame s s.
Proof. repeat split. Qed.

Lemma engineFrame_trans s1 s2 s3 :
  engineFrame s1 s2 -> engineFrame s2 s3 -> engineFrame s1 s3.
Proof.
  unfold engineFrame. intros H1 H2.
  destruct H1 as (?&?&?&?&?&?&?&?&?&?&?), H2 as (?&?&?&?&?&?&?&?&?&?&?).
  repeat split; congruence.
Qed.

Lemma frame_playNote i fret v now w :
  engineFrame (store w) (store (playNote js_pow i fret v now w)).
Proof.
  apply (playNote_elim js_pow (fun w' => engineFrame (store w) (store w'))).
  - apply engineFrame_refl.
  - intros. repeat split.
Qed.

Lemma frame_releaseNote i now w :
  engineFrame (store w) (store (releaseNote i now w)).
Proof.
  apply (releaseNote_elim (fun w' => engineFrame (store w) (store w'))).
  - apply engineFrame_refl.
  - intros. repeat split.
Qed.

Lemma frame_release_all l now :
  forall w,
    engineFrame (store w)
      (store (fold_left (fun acc i => releaseNote i now acc) l w)).
Proof.
  induction l as [|i l IH]; intros w; [apply engineFrame_refl|].
  cbn [fold_left]. eapply engineFrame_trans; [apply frame_releaseNote|].
  apply IH.
Qed.

Lemma frame_stopAll now w : engineFrame (store w) (store (stopAll now w)).
Proof.
  unfold stopAll. case_match; [|apply engineFrame_refl].
  eapply engineFrame_trans; [apply frame_release_all|]. repeat split.
Qed.

Lemma frame_strum p ts now w :
  engineFrame (store w)
    (store (fst (processStrumMovement js_sqrt js_pow p ts now w))).
Proof.
  unfold processStrumMovement.
  destruct (state (engine w)) as [st|]; [|apply engineFrame_refl].
  destruct (lastPosition (strumState st)); [|repeat split].
  destruct (JsNum.leb _ 0); [apply engineFrame_refl|].
  destruct (JsNum.ltb STRUM_SPEED_THRESHOLD _); [|repeat split].
  destruct (JsNum.ltb _ STRUM_DEBOUNCE_MS); [repeat split|].
  cbn [fst]. eapply engineFrame_trans; [|apply frame_playNote]. repeat split.
Qed.

Lemma frame_step o a :
  isEngineOp o = true ->
  engineFrame (store (world a))
    (store (world (fst (step js_sqrt js_pow o a)))).
Proof.
  destruct o as [ started | now | i fret v now | i now | now | v | b | v
                | p ts now | constructed | | | m ];
    cbn [step fst snd world isEngineOp]; try discriminate; intros _.
  - destruct (initialize_cases started (world a)) as [-> | [_ ->]];
      [apply engineFrame_refl|]. repeat split.
  - unfold dispose. case_match; [|apply engineFrame_refl].
    eapply engineFrame_trans; [apply frame_stopAll|]. repeat split.
  - apply frame_playNote.
  - apply frame_releaseNote.
  - apply frame_stopAll.
  - unfold setVolume. case_match; [|apply engineFrame_refl]. repeat split.
  - pose proof (frame_strum p ts now (world a)) as H.
    destruct (processStrumMovement _ _ _ _ _ _). exact H.
Qed.

(** X5: the audio engine writes only three fields of the store (the active
    strings, the last strum event and the initialized flag): whatever
    sequence of [initialize], [dispose], [playNote], [releaseNote],
    [stopAll], [setVolume] and [processStrumMovement] runs, from any state,
    the hands, the mute flag, the master volume, the AI correction fields,
    the connection flag and the error of the store are as before. *)
Theorem engine_never_writes_foreign_store_fields :
  forall (ops : list Op) (a : App),
    Forall (fun o => isEngineOp o = true) ops ->
    engineFrame (store (world a))
      (store (world (fst (run js_sqrt js_pow ops a)))).
Proof.
  induction ops as [|o rest IH]; intros a Hops; [apply engineFrame_refl|].
  apply Forall_cons in Hops as [Ho Hrest]. cbn [run].
  pose proof (frame_step o a Ho) as H1.
  destruct (step js_sqrt js_pow o a) as [a1 ev].
  specialize (IH a1 Hrest).
  destruct (run js_sqrt js_pow rest a1) as [a2 evs].
  eapply engineFrame_trans; eassumption.
Qed.

End EngineFrame.

(** ** [initialize] and [dispose] *)

Section Lifecycle.

Variable js_sqrt : Q -> Q.
Variable js_pow : Q -> Q -> Q.

Lemma liveState_none_ops w :
  liveState (engine w) = None ->
  (forall i fret v n, playNote js_pow i fret v n w = w) /\
  (forall i n, releaseNote i n w = w) /\
  (forall n, stopAll n w = w) /\
  (forall v, setVolume v w = w) /\
  (forall f v, playChord f v w = []).
Proof.
  intros H. unfold playNote, releaseNote, stopAll, setVolume, playChord.
  rewrite H. repeat split.
Qed.

(** X6: [dispose] leaves the engine without a state, whatever it was:
    afterwards [playNote], [releaseNote], [stopAll], [setVolume] and
    [playChord] do nothing and [processStrumMovement] returns no event and
    records nothing.  A well-formed engine is silenced on the way (no active
    strings remain).  [lastStrumTime] and the store's initialized flag
    survive: since the flag stays true, the guarded [initialize] the hook
    exposes does not bring the engine back. *)
Theorem dispose_disables_engine :
  forall (w : World) (now : Q),
    let w' := dispose now w in
    state (engine w') = None /\
    lastStrumTime (engine w') = lastStrumTime (engine w) /\
    audioInitialized (store w') = audioInitialized (store w) /\
    (forall i fret v n, playNote js_pow i fret v n w' = w') /\
    (forall i n, releaseNote i n w' = w') /\
    (forall n, stopAll n w' = w') /\
    (forall v, setVolume v w' = w') /\
    (forall f v, playChord f v w' = []) /\
    (forall p ts n,
       processStrumMovement js_sqrt js_pow p ts n w' = (w', None)) /\
    (engineOk w -> forall st, state (engine w) = Some st ->
       activeStrings (store w') = ∅) /\
    (audioInitialized (store w) = true ->
     forall toneStarts, hookInitialize toneStarts w' = w').
Proof.
  intros w now w'.
  assert (state (engine w') = None) as Hnone.
  { subst w'. unfold dispose. destruct (state (engine w)) eqn:E; [reflexivity|exact E]. }
  assert (liveState (engine w') = None) as Hdead
    by (unfold liveState; rewrite Hnone; reflexivity).
  assert (audioInitialized (store w') = audioInitialized (store w)) as Hflag.
  { subst w'. unfold dispose. destruct (state (engine w)); [|reflexivity].
    cbn. unfold stopAll. case_match; [|reflexivity]. cbn.
    clear. generalize (playingFrom 0 (voices a0)) as l. intros l. revert w.
    induction l as [|i l IH]; intros w; [reflexivity|].
    cbn [fold_left]. rewrite IH.
    apply (releaseNote_elim
             (fun x => audioInitialized (store x) = audioInitialized (store w)));
      reflexivity. }
  split; [exact Hnone|].
  split.
  { subst w'. unfold dispose. destruct (state (engine w)); [|reflexivity].
    cbn. apply lastStrumTime_stopAll. }
  split; [exact Hflag|].
  destruct (liveState_none_ops w' Hdead) as (H1 & H2 & H3 & H4 & H5).
  split; [exact H1|]. split; [exact H2|]. split; [exact H3|].
  split; [exact H4|]. split; [exact H5|].
  split; [intros p ts n; apply strum_without_state, Hnone|].
  split.
  - intros Hok st Hst. subst w'. unfold dispose. rewrite Hst. cbn.
    apply (proj2 (stopAll_spec w now) st).
    apply liveState_intro; [exact Hst | apply (Hok st Hst)].
  - intros Hinit toneStarts. unfold hookInitialize.
    rewrite Hflag, Hinit. reflexivity.
Qed.

(** Operations that keep the store's initialized flag and neither create
    nor drop the engine state. *)
Lemma kept_refl w : engineKept w w.
Proof. split; [reflexivity | tauto]. Qed.

Lemma kept_trans w1 w2 w3 :
  engineKept w1 w2 -> engineKept w2 w3 -> engineKept w1 w3.
Proof. unfold engineKept. intros [H1 H2] [H3 H4]. split; [congruence|tauto]. Qed.

Lemma kept_playNote i fret v now w :
  engineKept w (playNote js_pow i fret v now w).
Proof.
  apply playNote_elim; [apply kept_refl|].
  intros st voice g Hlive _. apply liveState_state in Hlive.
  split; [reflexivity|]. cbn. rewrite Hlive. split; discriminate.
Qed.

Lemma kept_releaseNote i now w : engineKept w (releaseNote i now w).
Proof.
  apply releaseNote_elim; [apply kept_refl|].
  intros st voice Hlive _ _. apply liveState_state in Hlive.
  split; [reflexivity|]. cbn. rewrite Hlive. split; discriminate.
Qed.

Lemma kept_release_all l now :
  forall w, engineKept w (fold_left (fun acc i => releaseNote i now acc) l w).
Proof.
  induction l as [|i l IH]; intros w; [apply kept_refl|].
  cbn [fold_left]. eapply kept_trans; [apply kept_releaseNote | apply IH].
Qed.

Lemma kept_stopAll now w : engineKept w (stopAll now w).
Proof.
  unfold stopAll. case_match; [|apply kept_refl].
  eapply kept_trans; [apply kept_release_all|]. split; [reflexivity|].
  cbn. tauto.
Qed.

Lemma kept_strum p ts now w :
  engineKept w (fst (processStrumMovement js_sqrt js_pow p ts now w)).
Proof.
  unfold processStrumMovement.
  destruct (state (engine w)) as [st|] eqn:Hst; [|apply kept_refl].
  assert (forall ss t s,
            audioInitialized s = audioInitialized (store w) ->
            engineKept w
              (mkWorld (mkEngine (Some (withStrumState ss st)) t) s
                 (tone w) (timers w))) as Hupd.
  { intros ss t s Hs. split; [exact Hs|]. cbn. rewrite Hst.
    split; discriminate. }
  destruct (lastPosition (strumState st)); [|apply Hupd; reflexivity].
  destruct (JsNum.leb _ 0); [apply kept_refl|].
  destruct (JsNum.ltb STRUM_SPEED_THRESHOLD _); [|apply Hupd; reflexivity].
  destruct (JsNum.ltb _ STRUM_DEBOUNCE_MS); [apply Hupd; reflexivity|].
  cbn [fst]. eapply kept_trans; [|apply kept_playNote].
  apply Hupd. reflexivity.
Qed.

(** Every callback other than [initialize] and [dispose] keeps the flag and
    the presence of the engine state. *)
Lemma kept_step o a :
  (forall started, o <> OpInitialize started) ->
  (forall now, o <> OpDispose now) ->
  engineKept (world a) (world (fst (step js_sqrt js_pow o a))).
Proof.
  intros Hinit Hdisp.
  destruct o as [ started | now | i fret v now | i now | now | v | b | v
                | p ts now | constructed | | | m ]; cbn [step fst snd world].
  - destruct (Hinit started eq_refl).
  - destruct (Hdisp now eq_refl).
  - apply kept_playNote.
  - apply kept_releaseNote.
  - apply kept_stopAll.
  - unfold setVolume. destruct (liveState _) as [st|] eqn:Hl;
      [|apply kept_refl].
    apply liveState_state in Hl. split; [reflexivity|].
    cbn. rewrite Hl. split; discriminate.
  - split; [reflexivity | cbn; tauto].
  - split; [reflexivity | cbn; tauto].
  - pose proof (kept_strum p ts now (world a)) as H.
    destruct (processStrumMovement _ _ _ _ _ _). exact H.
  - destruct (connect_cases constructed (client a) (store (world a)))
      as [-> | [-> | ->]]; (split; [reflexivity | cbn; tauto]).
  - split; [reflexivity | cbn; tauto].
  - destruct (onclose (client a, store (world a))) as [[c s] d] eqn:E.
    unfold onclose in E.
    case_match; injection E as <- <- <-; (split; [reflexivity | cbn; tauto]).
  - split; [|cbn; tauto]. cbn.
    destruct m as [r| |]; cbn; [|reflexivity..].
    destruct (override_notes r); reflexivity.
Qed.

(** A live engine has been announced to the store. *)
Lemma announced_step o a :
  engineAnnounced (world a) ->
  engineAnnounced (world (fst (step js_sqrt js_pow o a))).
Proof.
  intros H.
  assert (engineKept (world a) (world (fst (step js_sqrt js_pow o a))) ->
          engineAnnounced (world (fst (step js_sqrt js_pow o a)))) as Hkept.
  { intros [Hf Hs]. unfold engineAnnounced in *. rewrite Hf.
    intros Hlive. apply H. rewrite <- Hs. exact Hlive. }
  destruct o as [ started | now | | | | | | | | | | | ];
    try (apply Hkept, kept_step; intros ?; discriminate).
  - cbn [step fst world].
    destruct (initialize_cases started (world a)) as [-> | [_ ->]];
      [exact H|]. intros _. reflexivity.
  - cbn [step fst world]. unfold dispose.
    destruct (state (engine (world a))) eqn:E; [|exact H].
    intros Hlive. cbn in Hlive. congruence.
Qed.

(** Without an engine state no callback but a successful [initialize]
    touches the engine, the Tone.js nodes, the timers or the notes shown. *)
Lemma inert_step o a :
  engineInert (world a) ->
  startsEngine o = false ->
  engineInert (world (fst (step js_sqrt js_pow o a))) /\
  snd (step js_sqrt js_pow o a) = None.
Proof.
  intros (Hst & Hflag & Htone & Htimers & Hact & Hev) Ho.
  assert (liveState (engine (world a)) = None) as Hlive
    by (unfold liveState; rewrite Hst; reflexivity).
  destruct (liveState_none_ops (world a) Hlive)
    as (Hplay & Hrel & Hstop & Hvol & _).
  assert (engineInert (world a)) as Hinert by (repeat split; assumption).
  destruct o as [ started | now | i fret v now | i now | now | v | b | v
                | p ts now | constructed | | | m ]; cbn [step fst snd world].
  - destruct started; [discriminate|].
    unfold initialize. rewrite Hlive. split; [exact Hinert | reflexivity].
  - unfold dispose. rewrite Hst. split; [exact Hinert | reflexivity].
  - rewrite Hplay. split; [exact Hinert | reflexivity].
  - rewrite Hrel. split; [exact Hinert | reflexivity].
  - rewrite Hstop. split; [exact Hinert | reflexivity].
  - rewrite Hvol. split; [exact Hinert | reflexivity].
  - split; [repeat split; assumption | reflexivity].
  - split; [repeat split; assumption | reflexivity].
  - rewrite (strum_without_state js_sqrt js_pow p ts now (world a) Hst).
    split; [exact Hinert | reflexivity].
  - destruct (connect_cases constructed (client a) (store (world a)))
      as [-> | [-> | ->]]; (split; [repeat split; assumption | reflexivity]).
  - split; [repeat split; assumption | reflexivity].
  - destruct (onclose (client a, store (world a))) as [[c s] d] eqn:E.
    unfold onclose in E.
    case_match; injection E as <- <- <-;
      (split; [repeat split; assumption | reflexivity]).
  - split; [|reflexivity]. unfold engineInert.
    destruct m as [r| |]; cbn; [|repeat split; assumption..].
    destruct (override_notes r); cbn; repeat split; assumption.
Qed.

(** X7: the engine is inert until [initialize] succeeds, and a live engine
    is always announced.  In every state reachable from the initial one, an
    engine state goes with the store's initialized flag set.  As long as no
    [initialize] has found [Tone.start()] to succeed (however many have
    failed), whatever callbacks run, there is no engine state, the flag is
    off, no Tone.js call has been made, no timer set, no string marked
    active and no strum event emitted or stored.  [initialize] itself
    resolves to [true] exactly when the engine is live afterwards; it never
    resets a live engine, and a failed start changes nothing. *)
Theorem engine_is_inert_until_initialize_succeeds :
  forall (ops : list Op),
    let final := run js_sqrt js_pow ops initialApp in
    engineAnnounced (world (fst final)) /\
    (Forall (fun o => startsEngine o = false) ops ->
       engineInert (world (fst final)) /\ snd final = []) /\
    (forall (toneStarts : bool) (w : World),
       (fst (initialize toneStarts w) = true <->
        liveState (engine (snd (initialize toneStarts w))) <> None) /\
       (liveState (engine w) <> None -> initialize toneStarts w = (true, w)) /\
       (toneStarts = false -> snd (initialize toneStarts w) = w)).
Proof.
  intros ops. cbv zeta. split; [|split].
  - assert (forall a, engineAnnounced (world a) ->
                      engineAnnounced (world (fst (run js_sqrt js_pow ops a))))
      as Hrun.
    { induction ops as [|o rest IH]; intros a H; [exact H|].
      cbn [run]. pose proof (announced_step o a H) as H1.
      destruct (step js_sqrt js_pow o a) as [a1 ev].
      specialize (IH a1 H1).
      destruct (run js_sqrt js_pow rest a1) as [a2 evs]. exact IH. }
    apply Hrun. intros H. destruct H. reflexivity.
  - assert (forall a, engineInert (world a) ->
                      Forall (fun o => startsEngine o = false) ops ->
                      engineInert (world (fst (run js_sqrt js_pow ops a))) /\
                      snd (run js_sqrt js_pow ops a) = []) as Hrun.
    { induction ops as [|o rest IH]; intros a H Hops;
        [split; [exact H | reflexivity]|].
      apply Forall_cons in Hops as [Ho Hrest]. cbn [run].
      destruct (inert_step o a H Ho) as [H1 H2].
      destruct (step js_sqrt js_pow o a) as [a1 ev]. cbn [fst snd] in *.
      destruct (IH a1 H1 Hrest) as [H3 H4].
      destruct (run js_sqrt js_pow rest a1) as [a2 evs]. cbn [fst snd] in *.
      subst ev evs. split; [exact H3 | reflexivity]. }
    apply Hrun. repeat split.
  - intros toneStarts w. unfold initialize.
    destruct (liveState (engine w)) as [st|] eqn:Hlive.
    + cbn [fst snd]. rewrite Hlive.
      repeat split; try congruence; try discriminate.
    + destruct toneStarts; cbn [fst snd].
      * repeat split; try congruence; try discriminate.
      * rewrite Hlive. repeat split; try congruence; try discriminate.
Qed.

(** X8: a sample that arrives after the hand has been seen, with time
    advanced, always moves the strum state to the new position, time and
    speed, whether it emits an event, is debounced, or is too slow.  Only an
    emitted event changes [lastStrumEvent] and [lastStrumTime]; its fret is
    never negative. *)
Theorem strum_sample_updates_state :
  forall (w : World) (st : AudioEngineState) (lastPos p : Point3D)
         (ts now : Q),
    state (engine w) = Some st ->
    lastPosition (strumState st) = Some lastPos ->
    (0 < ts - lastTimestamp (strumState st))%Q ->
    let w' := fst (processStrumMovement js_sqrt js_pow p ts now w) in
    let speed :=
      (magnitude js_sqrt (subtract p lastPos)
         / ((ts - lastTimestamp (strumState st)) / 1000))%Q in
    (exists st',
       state (engine w') = Some st' /\
       strumState st' =
         mkStrumState (Some p) ts speed (isStrumming (strumState st))) /\
    match snd (processStrumMovement js_sqrt js_pow p ts now w) with
    | None =>
        lastStrumEvent (store w') = lastStrumEvent (store w) /\
        lastStrumTime (engine w') = lastStrumTime (engine w) /\
        tone w' = tone w /\ timers w' = timers w /\
        engineVoices w' = engineVoices w
    | Some ev =>
        lastStrumEvent (store w') = Some ev /\
        lastStrumTime (engine w') = ts /\
        0 <= fretIndex ev
    end.
Proof.
  intros w st lastPos p ts now Hst Hlast Hdt. cbv zeta.
  unfold processStrumMovement. rewrite Hst, Hlast.
  destruct (JsNum.leb _ 0) eqn:E.
  { apply JsNumFacts.seconds_nonpos in E. apply Qlt_not_le in Hdt.
    contradiction. }
  assert (engineVoices w = voices st) as Hv
    by (unfold engineVoices; rewrite Hst; reflexivity).
  destruct (JsNum.ltb STRUM_SPEED_THRESHOLD _);
    [|cbn; split; [eexists; split; reflexivity|];
      unfold engineVoices; rewrite Hst; repeat split].
  destruct (JsNum.ltb _ STRUM_DEBOUNCE_MS);
    [cbn; split; [eexists; split; reflexivity|];
      unfold engineVoices; rewrite Hst; repeat split|].
  cbn [fst snd].
  match goal with
  | |- context [playNote js_pow ?i ?f ?v now ?w0] =>
      apply (playNote_elim js_pow
               (fun x =>
                  (exists st',
                     state (engine x) = Some st' /\
                     strumState st' = strumState
                       (withStrumState
                          (mkStrumState (Some p) ts
                             (magnitude js_sqrt (subtract p lastPos)
                                / ((ts - lastTimestamp (strumState st)) / 1000))
                             (isStrumming (strumState st))) st)) /\
                  lastStrumEvent (store x) = lastStrumEvent (store w0) /\
                  lastStrumTime (engine x) = ts /\
                  0 <= f) i f v now w0)
  end.
  - split; [eexists; split; reflexivity|]. split; [reflexivity|].
    split; [reflexivity|]. unfold resolveFret. case_match; lia.
  - intros st0 voice g Hlive _. apply liveState_state in Hlive.
    cbn in Hlive. injection Hlive as <-.
    split; [eexists; split; reflexivity|]. split; [reflexivity|].
    split; [reflexivity|]. unfold resolveFret. case_match; lia.
Qed.

(** X9: while the store is muted a strum is still detected (the event is
    emitted and recorded, and the debounce timer restarts) but it makes no
    sound: no call reaches Tone.js, no timer is set, and no voice or active
    string changes. *)
Theorem muted_strum_is_silent :
  forall (w : World) (p : Point3D) (ts now : Q),
    isMuted (store w) = true ->
    let w' := fst (processStrumMovement js_sqrt js_pow p ts now w) in
    tone w' = tone w /\ timers w' = timers w /\
    engineVoices w' = engineVoices w /\
    activeStrings (store w') = activeStrings (store w) /\
    forall ev,
      snd (processStrumMovement js_sqrt js_pow p ts now w) = Some ev ->
      lastStrumEvent (store w') = Some ev /\
      lastStrumTime (engine w') = ts.
Proof.
  intros w p ts now Hmute. cbv zeta.
  assert (forall i f v w0,
            isMuted (store w0) = true -> playNote js_pow i f v now w0 = w0)
    as Hrej.
  { intros i f v w0 H. unfold playNote. repeat case_match; try reflexivity.
    congruence. }
  unfold processStrumMovement.
  destruct (state (engine w)) as [st|] eqn:Hst;
    [|repeat split; discriminate].
  assert (engineVoices w = voices st) as Hv
    by (unfold engineVoices; rewrite Hst; reflexivity).
  destruct (lastPosition (strumState st));
    [|cbn; rewrite Hv; repeat split; discriminate].
  destruct (JsNum.leb _ 0); [repeat split; discriminate|].
  destruct (JsNum.ltb STRUM_SPEED_THRESHOLD _);
    [|cbn; rewrite Hv; repeat split; discriminate].
  destruct (JsNum.ltb _ STRUM_DEBOUNCE_MS);
    [cbn; rewrite Hv; repeat split; discriminate|].
  cbn [fst snd]. rewrite Hrej by exact Hmute.
  cbn. rewrite Hv. repeat split; injection H as <-; reflexivity.
Qed.

End Lifecycle.

(** ** Invariants of the engine state *)

Section StatePredicates.

Variable js_sqrt : Q -> Q.
Variable js_pow : Q -> Q -> Q.

(** A property of the engine state that depends neither on the voices nor
    on the position, time and speed of the strum state. *)
Variable P : AudioEngineState -> Prop.
Hypothesis P_voices : forall vs st, P st -> P (withVoices vs st).
Hypothesis P_strum :
  forall pos ts sp st,
    P st ->
    P (withStrumState (mkStrumState pos ts sp (isStrumming (strumState st))) st).

Local Notation "'holdsOfState'" := (holdsOfEngineState P).

Lemma holds_playNote i fret v now w :
  holdsOfState w -> holdsOfState (playNote js_pow i fret v now w).
Proof.
  intros H. apply playNote_elim; [exact H|].
  intros st voice g Hlive _ st' [= <-].
  apply P_voices, H, liveState_state, Hlive.
Qed.

Lemma holds_releaseNote i now w :
  holdsOfState w -> holdsOfState (releaseNote i now w).
Proof.
  intros H. apply releaseNote_elim; [exact H|].
  intros st voice Hlive _ _ st' [= <-].
  apply P_voices, H, liveState_state, Hlive.
Qed.

Lemma holds_release_all l now :
  forall w, holdsOfState w ->
            holdsOfState (fold_left (fun acc i => releaseNote i now acc) l w).
Proof.
  induction l as [|i l IH]; intros w H; [exact H|].
  cbn [fold_left]. apply IH, holds_releaseNote, H.
Qed.

Lemma holds_stopAll now w : holdsOfState w -> holdsOfState (stopAll now w).
Proof.
  intros H. unfold stopAll. case_match; [|exact H].
  intros st Hst. cbn in Hst. exact (holds_release_all _ now w H st Hst).
Qed.

Lemma holds_strum p ts now w :
  holdsOfState w ->
  holdsOfState (fst (processStrumMovement js_sqrt js_pow p ts now w)).
Proof.
  intros H. unfold processStrumMovement.
  destruct (state (engine w)) as [st|] eqn:Hst; [|exact H].
  assert (forall pos t sp tl s,
            holdsOfState
              (mkWorld
                 (mkEngine
                    (Some (withStrumState
                             (mkStrumState pos t sp
                                (isStrumming (strumState st))) st)) tl)
                 s (tone w) (timers w))) as Hupd.
  { intros pos t sp tl s st' [= <-]. apply P_strum, H, Hst. }
  destruct (lastPosition (strumState st)); [|apply Hupd].
  destruct (JsNum.leb _ 0); [exact H|].
  destruct (JsNum.ltb STRUM_SPEED_THRESHOLD _); [|apply Hupd].
  destruct (JsNum.ltb _ STRUM_DEBOUNCE_MS); [apply Hupd|].
  cbn [fst]. apply holds_playNote, Hupd.
Qed.

Hypothesis P_fresh :
  P (mkEngineState true freshVoices AUDIO_CONFIG.maxGain
       (mkStrumState None 0 0 false)).
Hypothesis P_volume :
  forall v st,
    P st ->
    P (mkEngineState (isInitialized st) (voices st) (clamp v 0 1)
         (strumState st)).

Lemma holds_step o a :
  holdsOfState (world a) ->
  holdsOfState (world (fst (step js_sqrt js_pow o a))).
Proof.
  intros H.
  destruct o as [ started | now | i fret v now | i now | now | v | b | v
                | p ts now | constructed | | | m ]; cbn [step fst snd world];
    try exact H.
  - destruct (initialize_cases started (world a)) as [-> | [_ ->]];
      [exact H|].
    intros st [= <-]. exact P_fresh.
  - unfold dispose. case_match; [|exact H]. intros st. discriminate.
  - apply holds_playNote, H.
  - apply holds_releaseNote, H.
  - apply holds_stopAll, H.
  - unfold setVolume. destruct (liveState _) as [st|] eqn:Hl; [|exact H].
    intros st' [= <-]. apply P_volume, H, liveState_state, Hl.
  - pose proof (holds_strum p ts now _ H) as H'.
    destruct (processStrumMovement _ _ _ _ _ _). exact H'.
  - destruct (connect _ _) as [c s]. exact H.
  - destruct (onclose (client a, store (world a))) as [[c s] d]. exact H.
Qed.

Lemma holds_run ops :
  forall a, holdsOfState (world a) ->
            holdsOfState (world (fst (run js_sqrt js_pow ops a))).
Proof.
  induction ops as [|o rest IH]; intros a H; [exact H|].
  cbn [run]. pose proof (holds_step o a H) as H1.
  destruct (step js_sqrt js_pow o a) as [a1 ev].
  specialize (IH a1 H1).
  destruct (run js_sqrt js_pow rest a1) as [a2 evs]. exact IH.
Qed.

End StatePredicates.

Section ReachableState.

Variable js_sqrt : Q -> Q.
Variable js_pow : Q -> Q -> Q.

(** X10: the [isStrumming] flag of the strum state is never set: in every
    state reachable from the initial one it is false.  Strum detection is
    purely edge-triggered; no operation records a strum in progress. *)
Theorem isStrumming_is_never_set :
  forall (ops : list Op),
    holdsOfEngineState (fun st => isStrumming (strumState st) = false)
      (world (fst (run js_sqrt js_pow ops initialApp))).
Proof.
  intros ops.
  apply (holds_run js_sqrt js_pow
           (fun st => isStrumming (strumState st) = false)).
  - intros vs st H. exact H.
  - intros pos ts sp st H. exact H.
  - reflexivity.
  - intros v st H. exact H.
  - intros st. discriminate.
Qed.

Lemma inUnit_clamp v : inUnit (clamp v 0 1).
Proof. apply JsNumFacts.clamp_bounds. discriminate. Qed.

Lemma masterVolume_step o a :
  inUnit (masterVolume (store (world a))) ->
  inUnit (masterVolume (store (world (fst (step js_sqrt js_pow o a))))).
Proof.
  intros H. destruct (isEngineOp o) eqn:Ho.
  - destruct (frame_step js_sqrt js_pow o a Ho) as (_&_&_&_&Hv&_).
    rewrite Hv. exact H.
  - destruct o as [ started | now | i fret v now | i now | now | v | b | v
                  | p ts now | constructed | | | m ]; try discriminate;
      cbn [step fst snd world].
    + exact H.
    + apply inUnit_clamp.
    + destruct (connect_cases constructed (client a) (store (world a)))
        as [-> | [-> | ->]]; exact H.
    + exact H.
    + destruct (onclose (client a, store (world a))) as [[c s] d] eqn:E.
      cbn. unfold onclose in E.
      case_match; injection E as <- <- <-; exact H.
    + destruct m as [r| |]; cbn; [|exact H..].
      destruct (override_notes r); exact H.
Qed.

(** X11: the master volume of the store and the master gain of the engine
    stay within [0,1] in every state reachable from the initial one:
    [setMasterVolume] and [setVolume] clamp whatever they are given, and
    nothing else writes them. *)
Theorem volumes_stay_in_unit_interval :
  forall (ops : list Op),
    let w := world (fst (run js_sqrt js_pow ops initialApp)) in
    inUnit (masterVolume (store w)) /\
    holdsOfEngineState (fun st => inUnit (masterGain st)) w.
Proof.
  intros ops. cbv zeta. split.
  - assert (forall a, inUnit (masterVolume (store (world a))) ->
              inUnit (masterVolume
                        (store (world (fst (run js_sqrt js_pow ops a))))))
      as Hrun.
    { induction ops as [|o rest IH]; intros a H; [exact H|].
      cbn [run]. pose proof (masterVolume_step o a H) as H1.
      destruct (step js_sqrt js_pow o a) as [a1 ev].
      specialize (IH a1 H1).
      destruct (run js_sqrt js_pow rest a1) as [a2 evs]. exact IH. }
    apply Hrun. split; discriminate.
  - apply (holds_run js_sqrt js_pow (fun st => inUnit (masterGain st))).
    + intros vs st H. exact H.
    + intros pos ts sp st H. exact H.
    + split; discriminate.
    + intros v st _. apply inUnit_clamp.
    + intros st. discriminate.
Qed.

End ReachableState.

(** ** [playChord] *)

Section ChordProperties.

Variable js_pow : Q -> Q -> Q.

Lemma elem_of_chordCalls f v : forall k c,
  c ∈ chordCalls k f v <->
  exists n fret,
    f !! n = Some fret /\ 0 <= fret /\
    c = mkChordCall (k + Z.of_nat n) fret v (inject_Z (k + Z.of_nat n) * 20).
Proof.
  induction f as [|x f IH]; intros k c; cbn [chordCalls].
  - split; [intros H; inversion H|]. intros (n & fret & H & _). discriminate.
  - assert (c ∈ chordCalls (k + 1) f v <->
            exists n fret,
              (x :: f) !! S n = Some fret /\ 0 <= fret /\
              c = mkChordCall (k + Z.of_nat (S n)) fret v
                    (inject_Z (k + Z.of_nat (S n)) * 20)) as Htail.
    { rewrite IH. split; intros (n & fret & H1 & H2 & ->);
        exists n, fret; (split; [exact H1|]); (split; [exact H2|]);
        replace (k + 1 + Z.of_nat n) with (k + Z.of_nat (S n)) by lia;
        reflexivity. }
    destruct (0 <=? x) eqn:Hx.
    + apply Z.leb_le in Hx. rewrite elem_of_cons, Htail. split.
      * intros [-> | (n & fret & H)].
        -- exists 0%nat, x. rewrite Z.add_0_r. repeat split. exact Hx.
        -- exists (S n), fret. exact H.
      * intros (n & fret & H1 & H2 & ->). destruct n as [|n].
        -- left. cbn in H1. injection H1 as ->. rewrite Z.add_0_r.
           reflexivity.
        -- right. exists n, fret. repeat split; assumption.
    + apply Z.leb_gt in Hx. rewrite Htail. split.
      * intros (n & fret & H). exists (S n), fret. exact H.
      * intros (n & fret & H1 & H2 & ->). destruct n as [|n].
        -- cbn in H1. injection H1 as ->. lia.
        -- exists n, fret. repeat split; assumption.
Qed.

(** The timers of a chord are set in increasing string order. *)
Lemma chordCalls_strings_above f v : forall k c,
  c ∈ chordCalls k f v -> k <= callString c.
Proof.
  intros k c H. apply elem_of_chordCalls in H as (n & fret & _ & _ & ->).
  cbn. lia.
Qed.

Lemma chordCalls_length f v : forall k,
  (length (chordCalls k f v) <= length f)%nat.
Proof.
  induction f as [|x f IH]; intros k; cbn [chordCalls length]; [lia|].
  specialize (IH (k + 1)). destruct (0 <=? x); cbn [length]; lia.
Qed.

Lemma chordCalls_all_muted f v : forall k,
  Forall (fun fret => fret < 0) f -> chordCalls k f v = [].
Proof.
  induction f as [|x f IH]; intros k Hall; [reflexivity|].
  apply Forall_cons in Hall as [Hx Hf]. cbn [chordCalls].
  replace (0 <=? x) with false by (symmetry; apply Z.leb_gt; exact Hx).
  apply IH, Hf.
Qed.

(** X12: [playChord] sets one timer per entry of the fingering whose fret
    is not negative, for the string of that entry, with the entry's fret,
    the given velocity and a delay of 20 ms times the string index; muted
    entries set none, and without a live engine nothing is set at all. *)
Theorem playChord_schedules_fretted_strings :
  forall (fingering : list Z) (v : Q) (w : World),
    (liveState (engine w) = None -> playChord fingering v w = []) /\
    (forall st, liveState (engine w) = Some st ->
       (forall c,
          c ∈ playChord fingering v w <->
          exists n fret,
            fingering !! n = Some fret /\ 0 <= fret /\
            c = mkChordCall (Z.of_nat n) fret v (inject_Z (Z.of_nat n) * 20))
       /\ (length (playChord fingering v w) <= length fingering)%nat
       /\ (Forall (fun fret => fret < 0) fingering ->
           playChord fingering v w = [])).
Proof.
  intros fingering v w. unfold playChord. split.
  { intros H. rewrite H. reflexivity. }
  intros st Hlive. rewrite Hlive. split; [|split].
  - intros c. rewrite elem_of_chordCalls. reflexivity.
  - apply chordCalls_length.
  - apply chordCalls_all_muted.
Qed.

Lemma playNote_no_voice i fret v now w :
  voiceAt (engineVoices w) i = None -> playNote js_pow i fret v now w = w.
Proof.
  intros H. unfold playNote.
  destruct (liveState (engine w)) as [st|] eqn:Hlive; [|reflexivity].
  rewrite (engineVoices_live _ _ Hlive) in H. rewrite H.
  destruct (_ || _); reflexivity.
Qed.

Lemma NoDup_chordCalls f v : forall k,
  NoDup (map callString (chordCalls k f v)).
Proof.
  induction f as [|x f IH]; intros k; cbn [chordCalls map]; [constructor|].
  destruct (0 <=? x); [|apply IH]. cbn [map callString].
  constructor; [|apply IH].
  intros Hin. apply list_elem_of_fmap in Hin as (c & Hc & Hin).
  apply chordCalls_strings_above in Hin. cbn in Hc. lia.
Qed.

(** Firing timers for distinct strings, each past its debounce interval. *)
Lemma fireChord_spec times calls :
  forall w st,
    liveState (engine w) = Some st ->
    isMuted (store w) = false ->
    NoDup (map callString calls) ->
    (forall c, c ∈ calls -> 0 <= callFret c) ->
    (forall c voice,
       c ∈ calls -> voiceAt (voices st) (callString c) = Some voice ->
       (STRUM_DEBOUNCE_MS / 1000
          <= times (callString c) - lastNoteTime voice)%Q) ->
    exists st',
      liveState (engine (fireChord js_pow times calls w)) = Some st' /\
      (forall i, (forall c, c ∈ calls -> callString c <> i) ->
         voiceAt (voices st') i = voiceAt (voices st) i) /\
      (forall c voice,
         c ∈ calls -> voiceAt (voices st) (callString c) = Some voice ->
         (exists g,
            voiceAt (voices st') (callString c)
              = Some (mkVoice true (times (callString c)) g)) /\
         callString c ∈ activeStrings (store (fireChord js_pow times calls w))
         /\
         SynthTriggerAttack (callString c)
           (nth (Z.to_nat (callString c)) GUITAR_TUNING 0 + callFret c)
           (times (callString c))
           ∈ tone (fireChord js_pow times calls w)) /\
      activeStrings (store w)
        ⊆ activeStrings (store (fireChord js_pow times calls w)) /\
      (forall x, x ∈ tone w -> x ∈ tone (fireChord js_pow times calls w)).
Proof.
  induction calls as [|c calls IH]; intros w st Hlive Hmute Hnodup Hfret Hdeb.
  - exists st. cbn. split; [exact Hlive|]. split; [reflexivity|].
    split; [intros c voice Hc; inversion Hc|]. split; [reflexivity|auto].
  - cbn [map] in Hnodup. apply NoDup_cons in Hnodup as [Hnotin Hnodup].
    unfold fireChord. cbn [fold_left].
    fold (fireChord js_pow times calls
            (playNote js_pow (callString c) (callFret c) (callVelocity c)
               (times (callString c)) w)).
    assert (forall c', c' ∈ calls -> callString c' <> callString c) as Hother.
    { intros c' Hc' Heq. apply Hnotin. rewrite <- Heq.
      apply list_elem_of_fmap. exists c'. split; [reflexivity|exact Hc']. }
    destruct (voiceAt (voices st) (callString c)) as [voice|] eqn:Hvoice.
    + pose proof (voiceAt_range _ _ _ Hvoice) as Hr.
      rewrite (playNote_accept js_pow _ _ _ _ _ _ _ Hlive Hvoice
                 (Hdeb c voice ltac:(left) Hvoice)
                 (Hfret c ltac:(left)) Hmute).
      cbv zeta.
      set (g := (velocityToGain js_pow (callVelocity c) AUDIO_CONFIG.minGain
                   AUDIO_CONFIG.maxGain AUDIO_CONFIG.gainGamma
                 * masterVolume (store w))%Q).
      set (st1 := withVoices
                    (<[Z.to_nat (callString c)
                       := mkVoice true (times (callString c)) g]> (voices st))
                    st).
      match goal with
      | |- context [fireChord js_pow times calls ?x] => set (w1 := x)
      end.
      assert (liveState (engine w1) = Some st1) as Hlive1.
      { apply liveState_intro; [reflexivity|].
        apply (liveState_initialized _ _ Hlive). }
      assert (forall i, i <> callString c ->
                voiceAt (voices st1) i = voiceAt (voices st) i) as Hsame.
      { intros i Hi. subst st1. unfold withVoices. cbn [voices].
        apply voiceAt_insert_ne; [lia|exact Hi]. }
      destruct (IH w1 st1 Hlive1 Hmute Hnodup) as (st' & H1 & H2 & H3 & H4 & H5).
      { intros c' Hc'. apply Hfret. right. exact Hc'. }
      { intros c' voice' Hc' Hv'. rewrite Hsame in Hv' by (apply Hother, Hc').
        apply Hdeb; [right; exact Hc'|exact Hv']. }
      exists st'. split; [exact H1|]. split.
      { intros i Hi. rewrite H2.
        - apply Hsame. intros ->. apply (Hi c); [left|reflexivity].
        - intros c' Hc'. apply Hi. right. exact Hc'. }
      split.
      { intros c' voice' Hc' Hv'. apply elem_of_cons in Hc' as [->|Hc'].
        - split; [|split].
          + exists g. rewrite H2 by exact Hother. subst st1.
            unfold withVoices. cbn [voices].
            apply (voiceAt_insert_eq _ _ _ _ Hvoice).
          + apply H4. subst w1. cbn. apply elem_of_union. right.
            apply elem_of_singleton. reflexivity.
          + apply H5. subst w1. cbn. rewrite elem_of_app. right.
            rewrite !elem_of_cons. right. left. reflexivity.
        - apply (H3 c' voice' Hc'). rewrite Hsame by (apply Hother, Hc').
          exact Hv'. }
      split.
      { etransitivity; [|exact H4]. subst w1. cbn. intros x Hx.
        apply elem_of_union. left. exact Hx. }
      intros x Hx. apply H5. subst w1. cbn. rewrite elem_of_app. left. exact Hx.
    + rewrite playNote_no_voice
        by (rewrite (engineVoices_live _ _ Hlive); exact Hvoice).
      destruct (IH w st Hlive Hmute Hnodup) as (st' & H1 & H2 & H3 & H4 & H5).
      { intros c' Hc'. apply Hfret. right. exact Hc'. }
      { intros c' voice' Hc' Hv'. apply Hdeb; [right; exact Hc'|exact Hv']. }
      exists st'. split; [exact H1|]. split.
      { intros i Hi. apply H2. intros c' Hc'. apply Hi. right. exact Hc'. }
      split; [|split; assumption].
      intros c' voice' Hc' Hv'. apply elem_of_cons in Hc' as [->|Hc'].
      * congruence.
      * apply (H3 c' voice' Hc' Hv').
Qed.

(** X13: a chord strummed on a live, unmuted engine whose voices are all
    past their debounce interval when their timers fire: once the timers of
    [playChord] have fired, every string whose fingering entry is a fret
    [>= 0] is playing, was last triggered when its timer fired, is marked
    active and was attacked at its open-string note plus the fret; every
    other string (muted entry, or beyond the fingering) has the voice it had
    before. *)
Theorem chord_sounds_exactly_the_fretted_strings :
  forall (fingering : list Z) (v : Q) (w : World) (st : AudioEngineState)
         (times : Z -> Q),
    liveState (engine w) = Some st ->
    isMuted (store w) = false ->
    (forall i voice,
       voiceAt (voices st) i = Some voice ->
       (STRUM_DEBOUNCE_MS / 1000 <= times i - lastNoteTime voice)%Q) ->
    let w' := fireChord js_pow times (playChord fingering v w) w in
    forall (i : Z) (voice : StringVoice),
      voiceAt (voices st) i = Some voice ->
      (forall fret,
         fingering !! Z.to_nat i = Some fret -> 0 <= fret ->
         (exists g,
            voiceAt (engineVoices w') i = Some (mkVoice true (times i) g)) /\
         i ∈ activeStrings (store w') /\
         SynthTriggerAttack i (nth (Z.to_nat i) GUITAR_TUNING 0 + fret)
           (times i) ∈ tone w') /\
      ((forall fret, fingering !! Z.to_nat i = Some fret -> fret < 0) ->
       voiceAt (engineVoices w') i = Some voice).
Proof.
  intros fingering v w st times Hlive Hmute Hdeb w' i voice Hvoice.
  subst w'. unfold playChord. rewrite Hlive.
  destruct (fireChord_spec times (chordCalls 0 fingering v) w st Hlive Hmute
              (NoDup_chordCalls _ _ _))
    as (st' & H1 & H2 & H3 & _).
  { intros c Hc. apply elem_of_chordCalls in Hc as (n & fret & _ & Hf & ->).
    exact Hf. }
  { intros c voice' _ Hv. apply Hdeb, Hv. }
  rewrite (engineVoices_live _ _ H1).
  pose proof (voiceAt_range _ _ _ Hvoice) as Hr. split.
  - intros fret Hlook Hfret.
    assert (mkChordCall i fret v (inject_Z i * 20)
              ∈ chordCalls 0 fingering v) as Hin.
    { apply elem_of_chordCalls. exists (Z.to_nat i), fret.
      split; [exact Hlook|]. split; [exact Hfret|].
      rewrite Z.add_0_l, Z2Nat.id by lia. reflexivity. }
    exact (H3 _ voice Hin Hvoice).
  - intros Hmuted. rewrite H2; [exact Hvoice|].
    intros c Hc Heq. apply elem_of_chordCalls in Hc as (n & fret & Hl & Hf & ->).
    cbn in Heq. subst i. rewrite Z.add_0_l, Nat2Z.id in Hmuted.
    specialize (Hmuted fret Hl). lia.
Qed.

End ChordProperties.

(** ** The socket hook: [connect], [disconnect], [sendInference] *)

Lemma consecutiveLosses_final n :
  forall c s,
    (reconnectAttempts c <= MAX_RECONNECT_ATTEMPTS)%nat ->
    let c' := fst (fst (consecutiveLosses n (c, s))) in
    let s' := snd (fst (consecutiveLosses n (c, s))) in
    reconnectAttempts c'
      = Nat.min MAX_RECONNECT_ATTEMPTS (reconnectAttempts c + n) /\
    ((MAX_RECONNECT_ATTEMPTS - reconnectAttempts c < n)%nat ->
       error s' = Some offlineMessage /\ wsRef c' = None) /\
    ((0 < n <= MAX_RECONNECT_ATTEMPTS - reconnectAttempts c)%nat ->
       wsRef c' = Some CONNECTING /\ error s' = error s).
Proof.
  unfold MAX_RECONNECT_ATTEMPTS.
  induction n as [|n IH]; intros c s Hle; cbv zeta.
  - cbn [consecutiveLosses fst snd]. split; [lia|]. split; intros; lia.
  - cbn [consecutiveLosses]. unfold onclose, MAX_RECONNECT_ATTEMPTS.
    destruct (reconnectAttempts c <? 5)%nat eqn:E.
    + apply Nat.ltb_lt in E.
      pose proof (IH (mkWsClient (Some CONNECTING) (S (reconnectAttempts c))
                        (Some RECONNECT_DELAY))
                     (setWsConnected false s)) as IH'.
      cbn [reconnectAttempts] in IH'.
      specialize (IH' E). cbv zeta in IH'.
      cbn [connect wsRef reconnectAttempts reconnectTimeout].
      destruct (consecutiveLosses n
                  (mkWsClient (Some CONNECTING) (S (reconnectAttempts c))
                     (Some RECONNECT_DELAY),
                   setWsConnected false s)) as [[c' s'] rest] eqn:Erun.
      cbn [fst snd] in *.
      destruct IH' as (H1 & H3 & H4). split; [rewrite H1; lia|].
      split; [intros Hgt; apply H3; lia|].
      intros Hrange. destruct n as [|n].
      * cbn in Erun. injection Erun as <- <- _. split; reflexivity.
      * destruct H4 as [H4 H5]; [lia|]. split; [exact H4|exact H5].
    + apply Nat.ltb_ge in E.
      pose proof (IH (mkWsClient None (reconnectAttempts c) (reconnectTimeout c))
                     (setError (Some offlineMessage) (setWsConnected false s)))
        as IH'.
      cbn [reconnectAttempts] in IH'. specialize (IH' Hle). cbv zeta in IH'.
      destruct (consecutiveLosses n
                  (mkWsClient None (reconnectAttempts c) (reconnectTimeout c),
                   setError (Some offlineMessage) (setWsConnected false s)))
        as [[c' s'] rest] eqn:Erun.
      cbn [fst snd] in *.
      destruct IH' as (H1 & H3 & H4). split; [rewrite H1; lia|].
      split; [|intros Hrange; lia].
      intros _. destruct n as [|n].
      * cbn in Erun. injection Erun as <- <- _. split; reflexivity.
      * apply H3. lia.
Qed.

(** X14: however many times in a row the connection is lost, at most
    [MAX_RECONNECT_ATTEMPTS] (5) reconnections are scheduled in all, each
    after [RECONNECT_DELAY] (3000 ms); the losses beyond the budget schedule
    nothing, set the offline error and leave the client without a socket.
    While the budget lasts the client is left connecting and the error
    untouched. *)
Theorem reconnect_budget_is_bounded :
  forall (n : nat) (c : WsClient) (s : Store),
    (reconnectAttempts c <= MAX_RECONNECT_ATTEMPTS)%nat ->
    let left := (MAX_RECONNECT_ATTEMPTS - reconnectAttempts c)%nat in
    let c' := fst (fst (consecutiveLosses n (c, s))) in
    let s' := snd (fst (consecutiveLosses n (c, s))) in
    snd (consecutiveLosses n (c, s))
      = repeat (Some RECONNECT_DELAY) (Nat.min n left)
        ++ repeat None (n - left) /\
    (reconnectAttempts c' <= MAX_RECONNECT_ATTEMPTS)%nat /\
    ((left < n)%nat -> error s' = Some offlineMessage /\ wsRef c' = None) /\
    ((0 < n <= left)%nat -> wsRef c' = Some CONNECTING /\ error s' = error s).
Proof.
  intros n c s Hle. cbv zeta.
  destruct (consecutiveLosses_final n c s Hle) as (H1 & H3 & H4).
  split; [apply consecutiveLosses_schedule, Hle|].
  split; [rewrite H1; lia|]. split; assumption.
Qed.

(** X15: a successful open restores the whole reconnection budget and
    clears the error: whatever happened before, after [ws.onopen] the store
    is connected with no error, and a new run of losses is again granted
    five reconnections of 3000 ms. *)
Theorem onopen_restores_reconnect_budget :
  forall (c : WsClient) (s : Store) (n : nat),
    let c1 := fst (onopen (c, s)) in
    let s1 := snd (onopen (c, s)) in
    reconnectAttempts c1 = 0%nat /\
    wsConnected s1 = true /\ error s1 = None /\
    aiState s1 = aiState s /\
    snd (consecutiveLosses n (c1, s1))
      = repeat (Some RECONNECT_DELAY) (Nat.min n MAX_RECONNECT_ATTEMPTS)
        ++ repeat None (n - MAX_RECONNECT_ATTEMPTS).
Proof.
  intros c s n. cbv zeta. cbn [onopen fst snd].
  split; [reflexivity|]. split; [reflexivity|]. split; [reflexivity|].
  split; [reflexivity|].
  rewrite consecutiveLosses_schedule by (cbn; unfold MAX_RECONNECT_ATTEMPTS; lia).
  cbn [reconnectAttempts]. rewrite Nat.sub_0_r. reflexivity.
Qed.

(** X16: [connect] never touches the attempt counter or the pending
    timer.  A socket that is open or connecting is kept, with the store as
    it was.  Otherwise, when the socket can be constructed it is installed
    connecting and the store is untouched; when the constructor throws, the
    refs stay as they were and only the error of the store is written, so
    nothing is scheduled and no socket is left whose close could schedule a
    reconnection.  A second [connect] with the same outcome changes nothing.
    [sendInference] hands a request to the socket only when it is open:
    right after [connect] that is the case exactly when it was open
    before. *)
Theorem connect_keeps_socket_and_budget :
  forall (constructed : bool) (c : WsClient) (s : Store),
    let c' := fst (connect constructed (c, s)) in
    let s' := snd (connect constructed (c, s)) in
    reconnectAttempts c' = reconnectAttempts c /\
    reconnectTimeout c' = reconnectTimeout c /\
    (wsRef c = Some OPEN \/ wsRef c = Some CONNECTING -> c' = c /\ s' = s) /\
    (wsRef c <> Some OPEN -> wsRef c <> Some CONNECTING ->
       if constructed
       then wsRef c' = Some CONNECTING /\ s' = s
       else c' = c /\ error s' = Some connectionFailedMessage /\
            wsConnected s' = wsConnected s /\ aiState s' = aiState s) /\
    connect constructed (c', s') = (c', s') /\
    forall (request : list Q),
      sendInference request c' = Some request <-> wsRef c = Some OPEN.
Proof.
  intros constructed c s.
  destruct c as [[[| | |]|] k t], constructed; cbn;
    repeat split; try reflexivity; try congruence; intros; try tauto;
    try discriminate;
    try (destruct H as [H|H]; discriminate).
Qed.

(** X17: [disconnect] drops the socket and the pending reconnect timer and
    marks the store disconnected, after which [sendInference] sends nothing;
    it is idempotent.  It does not touch the attempt counter: when the close
    event of the dropped socket is delivered afterwards, [ws.onclose]
    schedules a reconnection again unless the attempts are used up. *)
Theorem disconnect_drops_socket_but_not_reconnection :
  forall (c : WsClient) (s : Store),
    let c' := fst (disconnect (c, s)) in
    let s' := snd (disconnect (c, s)) in
    wsRef c' = None /\ reconnectTimeout c' = None /\
    reconnectAttempts c' = reconnectAttempts c /\
    wsConnected s' = false /\ aiState s' = aiState s /\
    (forall request : list Q, sendInference request c' = None) /\
    disconnect (c', s') = (c', s') /\
    snd (onclose (c', s'))
      = (if (reconnectAttempts c <? MAX_RECONNECT_ATTEMPTS)%nat
         then Some RECONNECT_DELAY else None).
Proof.
  intros c s. cbv zeta. cbn [disconnect fst snd wsRef reconnectTimeout
                             reconnectAttempts].
  repeat split. unfold onclose. cbn [reconnectAttempts].
  destruct (reconnectAttempts c <? MAX_RECONNECT_ATTEMPTS)%nat; reflexivity.
Qed.

(** ** Recognition results in the store *)

Section ResultProperties.

Variable js_sqrt : Q -> Q.
Variable js_pow : Q -> Q -> Q.

Lemma aiState_frame s s' : engineFrame s s' -> aiState s' = aiState s.
Proof.
  unfold engineFrame, aiState. intros (_&_&_&_&_&H1&H2&H3&_&H4&_).
  rewrite H1, H2, H3, H4. reflexivity.
Qed.

(** X18: what the recognizer last said (correction flag, override notes,
    current chord, last result) is written by [inference_result] messages
    only.  Through any session without such a message, from any state, it
    stays as it was: losing the connection, exhausting the reconnection
    attempts, receiving [inference_error] messages and every engine
    operation leave an active correction active. *)
Theorem ai_state_survives_everything_but_a_result :
  forall (ops : list Op) (a : App),
    Forall (fun o => isResultMessage o = false) ops ->
    aiState (store (world (fst (run js_sqrt js_pow ops a))))
    = aiState (store (world a)).
Proof.
  induction ops as [|o rest IH]; intros a Hops; [reflexivity|].
  apply Forall_cons in Hops as [Ho Hrest]. cbn [run].
  pose proof (aiState_step js_sqrt js_pow o a Ho) as H1.
  destruct (step js_sqrt js_pow o a) as [a1 ev].
  specialize (IH a1 Hrest).
  destruct (run js_sqrt js_pow rest a1) as [a2 evs]. cbn [fst] in *.
  congruence.
Qed.

End ResultProperties.

(** X19: a later result supersedes an earlier one in the correction flag,
    the chord and the last result, but the override notes are replaced only
    when the later result carries notes.  So when a result that activates
    correction comes without notes after one that carried notes, the frets
    of the next strum are still resolved from the earlier notes. *)
Theorem later_result_keeps_earlier_notes :
  forall (r1 r2 : InferenceResult) (s : Store) (notes1 : list Z) (i : Z),
    override_notes r1 = Some notes1 ->
    override_notes r2 = None ->
    let s2 := onmessage (inference_result r2)
                (onmessage (inference_result r1) s) in
    correctionActive s2 = correction_active r2 /\
    currentChord s2 = chord_id r2 /\
    lastInferenceResult s2 = Some r2 /\
    overrideNotes s2 = notes1 /\
    (correction_active r2 = true ->
     0 <= i < Z.of_nat (length notes1) ->
     resolveFret s2 i
     = Z.max 0 (nth (Z.to_nat i) notes1 0 - nth (Z.to_nat i) GUITAR_TUNING 0)).
Proof.
  intros r1 r2 s notes1 i H1 H2. cbv zeta. cbn. rewrite H1, H2. cbn.
  repeat split. intros Hact Hi. unfold resolveFret. cbn. rewrite Hact.
  replace (i <? Z.of_nat (length notes1)) with true
    by (symmetry; apply Z.ltb_lt; lia).
  reflexivity.
Qed.

(** ** The tracker: [onResults] frame by frame *)

Section TrackerProperties.

Variable js_sqrt : Q -> Q.
Variable js_pow : Q -> Q -> Q.


(** X25: the strum detector is never fed by the tracker.  The effect of
    [useAudioEngine] calls [processStrumMovement] only when the store holds
    a right hand; no frame stores one, so after any frames the effect does
    nothing: no event, and the engine, the Tone.js calls and the timers are
    as they were. *)
Theorem tracker_never_feeds_strum_detection :
  forall (frames : list (list DetectedHand)) (prev : PrevLandmarks)
         (w : World) (ts now : Q),
    rightHand (store w) = None ->
    let s' := snd (snd (runFrames js_sqrt HandTracker_LandmarkIndex frames
                          (prev, store w))) in
    let w' := withStore (fun _ => s') w in
    rightHand s' = None /\
    strumEffect js_sqrt js_pow ts now w' = (w', None) /\
    engine w' = engine w /\ tone w' = tone w /\ timers w' = timers w.
Proof.
  intros frames prev w ts now Hnone. cbv zeta.
  destruct (runFrames_frames js_sqrt frames prev (store w))
    as (_ & _ & Hr & _).
  cbv zeta in Hr.
  assert (rightHand
            (snd (snd (runFrames js_sqrt HandTracker_LandmarkIndex frames
                         (prev, store w)))) = None) as Hright.
  { rewrite Hr, Hnone. destruct (existsb _ frames); reflexivity. }
  split; [exact Hright|]. split; [|repeat split].
  unfold strumEffect. cbn [withStore store]. rewrite Hright.
  destruct (negb _); reflexivity.
Qed.

End TrackerProperties.

(** ** The HUD: chord fingering and keys *)

Lemma CHORD_DATABASE_wellformed :
  map_Forall
    (fun _ entry =>
       length (fst entry) = 6%nat /\ length (snd entry) = 6%nat /\
       Forall (fun fret => -1 <= fret <= NUM_FRETS) (fst entry))
    CHORD_DATABASE.
Proof.
  apply map_Forall_to_list. unfold CHORD_DATABASE.
  rewrite map_to_list_to_map.
  - unfold NUM_FRETS.
    repeat (apply Forall_cons; split;
            [cbn; repeat split; repeat (apply Forall_cons; split; [lia|]);
             apply Forall_nil_2 |]).
    apply Forall_nil_2.
  - cbn. repeat (apply NoDup_cons; split;
                 [rewrite ?elem_of_cons, elem_of_nil; intros H;
                  repeat (destruct H as [H|H]; [discriminate|]); exact H|]).
    apply NoDup_nil_2.
Qed.

(** X26: whatever chord name the store holds, the fingering the HUD draws
    has exactly six entries, each the mute mark -1 or a fret from 0 to
    [NUM_FRETS]; a name the chord table does not know (such as ['unknown']
    or a seventh chord) is drawn as six open strings. *)
Theorem hud_fingering_is_always_drawable :
  forall (chord : string),
    length (hudFingering chord) = 6%nat /\
    Forall (fun fret => -1 <= fret <= NUM_FRETS) (hudFingering chord) /\
    (CHORD_DATABASE !! chord = None ->
     hudFingering chord = [0; 0; 0; 0; 0; 0]).
Proof.
  intros chord. unfold hudFingering.
  destruct (CHORD_DATABASE !! chord) as [[fingering notes]|] eqn:E.
  - destruct (CHORD_DATABASE_wellformed chord _ E) as (H1 & _ & H3).
    split; [exact H1|]. split; [exact H3|discriminate].
  - split; [reflexivity|]. split; [|reflexivity].
    unfold NUM_FRETS. repeat constructor; lia.
Qed.


(** ** The further properties at concrete inputs *)

Lemma readyWorld_ok : engineOk Sample.readyWorld.
Proof. intros st [= <-]. split; reflexivity. Defined.

(** String 2 of a fresh engine is struck at fret 3 one second in. *)
Lemma playNote_accepted_effect_witness :
  exists g,
    voiceAt (engineVoices (playNote pow_unit 2 3 1 1 Sample.readyWorld)) 2
      = Some (mkVoice true 1 g) /\
    activeStrings (store (playNote pow_unit 2 3 1 1 Sample.readyWorld))
      = activeStrings (store Sample.readyWorld) ∪ {[ 2 ]} /\
    tone (playNote pow_unit 2 3 1 1 Sample.readyWorld)
      = tone Sample.readyWorld ++
          [GainSetValueAtTime 2 g 1; SynthTriggerAttack 2 (50 + 3) 1;
           EnvelopeTriggerAttack 2 1].
Proof.
  destruct (proj1 (playNote_accepted_effect pow_unit Sample.readyWorld
                     Sample.readyState Scenario.idleVoice 2 3 1 1
                     readyWorld_ok eq_refl eq_refl))
    as (g & _ & Hv & _ & Ha & Ht & _);
    [vm_compute; discriminate | lia | reflexivity |].
  exists g. split; [exact Hv|]. split; [exact Ha | exact Ht].
Defined.

(** String 2 sounds since 1 s and is released at 1.01 s; a trigger at
    1.02 s is still within the debounce interval of the attack. *)
Lemma releaseNote_effect_witness :
  let w' := releaseNote 2 (101 # 100) Sample.string2Sounding in
  tone w' = tone Sample.string2Sounding
            ++ [EnvelopeTriggerRelease 2 (101 # 100)] /\
  playNote pow_unit 2 0 1 (102 # 100) w' = w'.
Proof.
  cbv zeta.
  destruct (proj2 (releaseNote_effect pow_unit Sample.string2Sounding 2
                     (101 # 100))
              (mkEngineState true
                 (<[2%nat := mkVoice true 1
                      (velocityToGain pow_unit 1 AUDIO_CONFIG.minGain
                         AUDIO_CONFIG.maxGain AUDIO_CONFIG.gainGamma
                       * masterVolume defaultStore)%Q]> freshVoices)
                 AUDIO_CONFIG.maxGain (mkStrumState None 0 0 false))
              (mkVoice true 1
                 (velocityToGain pow_unit 1 AUDIO_CONFIG.minGain
                    AUDIO_CONFIG.maxGain AUDIO_CONFIG.gainGamma
                  * masterVolume defaultStore)%Q)
              eq_refl eq_refl eq_refl)
    as (_ & _ & _ & Ht & _ & Hrej).
  split; [exact Ht|]. apply Hrej. vm_compute. reflexivity.
Defined.

(** With string 2 sounding, [stopAll] issues one release and leaves no
    voice playing. *)
Lemma stopAll_silences_every_voice_witness :
  soundingCount (engineVoices Sample.string2Sounding) = 1%nat /\
  soundingCount (engineVoices (stopAll 3 Sample.string2Sounding)) = 0%nat /\
  activeStrings (store (stopAll 3 Sample.string2Sounding)) = ∅ /\
  tone (stopAll 3 Sample.string2Sounding)
    = tone Sample.string2Sounding ++ [EnvelopeTriggerRelease 2 3].
Proof.
  split; [vm_compute; reflexivity|].
  destruct (proj2 (stopAll_silences_every_voice Sample.string2Sounding 3)
              _ eq_refl) as (H1 & _ & H3 & _ & H5 & _).
  split; [exact H1|]. split; [exact H3 | exact H5].
Defined.

(** The engine session leaves the correction received before in place. *)
Lemma engine_never_writes_foreign_store_fields_witness :
  engineFrame (store (world Scenario.correctedApp))
    (store (world (fst (run sqrt_exact pow_unit Scenario.engineSession
                          Scenario.correctedApp)))).
Proof.
  apply (engine_never_writes_foreign_store_fields sqrt_exact pow_unit).
  repeat constructor.
Defined.

(** After [dispose] a trigger does nothing and the hook cannot
    re-initialize the engine. *)
Lemma dispose_disables_engine_witness :
  let w' := dispose 5 Sample.string2Sounding in
  state (engine w') = None /\
  activeStrings (store w') = ∅ /\
  playNote pow_unit 2 0 1 6 w' = w' /\
  hookInitialize true w' = w'.
Proof.
  cbv zeta.
  destruct (dispose_disables_engine sqrt_exact pow_unit Sample.string2Sounding 5)
    as (H1 & _ & _ & H4 & _ & _ & _ & _ & _ & H10 & H11).
  split; [exact H1|]. split.
  - apply (H10 ltac:(intros st [= <-]; split; reflexivity) _ eq_refl).
  - split; [apply H4 | apply H11; reflexivity].
Defined.

(** A slow sample (0.01 in 100 ms) moves the strum state and emits
    nothing. *)
Lemma strum_sample_updates_state_witness :
  let r := processStrumMovement sqrt_exact pow_unit
             (mkPoint 0 (51 # 100) 0) 1100 1 Sample.seededWorld in
  snd r = None /\
  exists st',
    state (engine (fst r)) = Some st' /\
    lastPosition (strumState st') = Some (mkPoint 0 (51 # 100) 0) /\
    lastTimestamp (strumState st') = 1100%Q.
Proof.
  cbv zeta. split; [vm_compute; reflexivity|].
  destruct (strum_sample_updates_state sqrt_exact pow_unit Sample.seededWorld
              _ Sample.p0 (mkPoint 0 (51 # 100) 0) 1100 1 eq_refl eq_refl)
    as [(st' & H1 & H2) _]; [vm_compute; reflexivity|].
  exists st'. split; [exact H1|]. rewrite H2. split; reflexivity.
Defined.

(** The strum of [Sample.ev1] on a muted store: detected, recorded, and
    silent. *)
Lemma muted_strum_is_silent_witness :
  let r := processStrumMovement sqrt_exact pow_unit Sample.p1 1100 1
             Scenario.mutedWorld in
  snd r = Some Sample.ev1 /\
  tone (fst r) = tone Scenario.mutedWorld /\
  lastStrumEvent (store (fst r)) = Some Sample.ev1 /\
  lastStrumTime (engine (fst r)) = 1100%Q.
Proof.
  cbv zeta.
  assert (snd (processStrumMovement sqrt_exact pow_unit Sample.p1 1100 1
                 Scenario.mutedWorld) = Some Sample.ev1) as Hev
    by (vm_compute; reflexivity).
  destruct (muted_strum_is_silent sqrt_exact pow_unit Scenario.mutedWorld
              Sample.p1 1100 1 eq_refl) as (Ht & _ & _ & _ & Hrec).
  destruct (Hrec _ Hev) as [H1 H2].
  split; [exact Hev|]. split; [exact Ht|]. split; [exact H1 | exact H2].
Defined.

(** D major on a fresh engine sets four timers, for strings 2 to 5. *)
Lemma playChord_schedules_fretted_strings_witness :
  map callString (playChord Scenario.dMajor 1 Sample.readyWorld)
    = [2; 3; 4; 5] /\
  (length (playChord Scenario.dMajor 1 Sample.readyWorld)
     <= length Scenario.dMajor)%nat /\
  playChord [-1; -1] 1 Sample.readyWorld = [].
Proof.
  destruct (proj2 (playChord_schedules_fretted_strings Scenario.dMajor 1
                     Sample.readyWorld) _ eq_refl) as (_ & Hlen & _).
  split; [reflexivity|]. split; [exact Hlen|].
  apply (proj2 (playChord_schedules_fretted_strings [-1; -1] 1
                  Sample.readyWorld) _ eq_refl).
  repeat constructor.
Defined.

(** D major strummed on a fresh engine: string 3 sounds at fret 2 (MIDI
    57), the muted string 0 keeps its idle voice. *)
Lemma chord_sounds_exactly_the_fretted_strings_witness :
  let w' := fireChord pow_unit Scenario.strumTimes
              (playChord Scenario.dMajor 1 Sample.readyWorld)
              Sample.readyWorld in
  (exists g,
     voiceAt (engineVoices w') 3
       = Some (mkVoice true (Scenario.strumTimes 3) g)) /\
  3 ∈ activeStrings (store w') /\
  SynthTriggerAttack 3 (55 + 2) (Scenario.strumTimes 3) ∈ tone w' /\
  voiceAt (engineVoices w') 0 = Some Scenario.idleVoice.
Proof.
  cbv zeta.
  pose proof (chord_sounds_exactly_the_fretted_strings pow_unit
                Scenario.dMajor 1 Sample.readyWorld Sample.readyState
                Scenario.strumTimes eq_refl eq_refl) as H.
  assert (forall i voice,
            voiceAt (voices Sample.readyState) i = Some voice ->
            (STRUM_DEBOUNCE_MS / 1000
               <= Scenario.strumTimes i - lastNoteTime voice)%Q) as Hdeb.
  { intros i voice Hv. pose proof (voiceAt_range _ _ _ Hv) as Hr.
    cbn in Hr.
    assert (i = 0 \/ i = 1 \/ i = 2 \/ i = 3 \/ i = 4 \/ i = 5) as Hi by lia.
    destruct Hi as [->|[->|[->|[->|[->| ->]]]]];
      cbn in Hv; injection Hv as <-; vm_compute; discriminate. }
  specialize (H Hdeb). cbv zeta in H.
  destruct (H 3 Scenario.idleVoice eq_refl) as [H3 _].
  destruct (H3 2 eq_refl ltac:(lia)) as (Hv & Ha & Ht).
  destruct (H 0 Scenario.idleVoice eq_refl) as [_ H0].
  split; [exact Hv|]. split; [exact Ha|]. split; [exact Ht|].
  apply H0. intros fret [= <-]. lia.
Defined.

(** Seven losses in a row from a fresh client: five reconnections, then
    two losses that schedule nothing. *)
Lemma reconnect_budget_is_bounded_witness :
  snd (consecutiveLosses 7 (connect true (newWsClient, defaultStore)))
    = repeat (Some RECONNECT_DELAY) 5 ++ repeat None 2 /\
  error
    (snd (fst (consecutiveLosses 7 (connect true (newWsClient, defaultStore)))))
    = Some offlineMessage.
Proof.
  change (connect true (newWsClient, defaultStore))
    with (mkWsClient (Some CONNECTING) 0 None, defaultStore).
  destruct (reconnect_budget_is_bounded 7 (mkWsClient (Some CONNECTING) 0 None)
              defaultStore)
    as (H1 & _ & H3 & _); [cbn; unfold MAX_RECONNECT_ATTEMPTS; lia|].
  split; [exact H1|].
  apply H3. cbn. unfold MAX_RECONNECT_ATTEMPTS. lia.
Defined.

(** A socket that is connecting is kept as it is; a socket that cannot be
    constructed leaves the client without one and the error set. *)
Lemma connect_keeps_socket_and_budget_witness :
  connect true (connect true (newWsClient, defaultStore))
    = connect true (newWsClient, defaultStore) /\
  wsRef (fst (connect false (newWsClient, defaultStore))) = None /\
  error (snd (connect false (newWsClient, defaultStore)))
    = Some connectionFailedMessage /\
  sendInference [1%Q] (fst (connect false (newWsClient, defaultStore))) = None.
Proof.
  destruct (connect_keeps_socket_and_budget true
              (mkWsClient (Some CONNECTING) 0 None) defaultStore)
    as (_ & _ & Hkeep & _).
  destruct (Hkeep (or_intror eq_refl)) as [Hc Hs].
  destruct (connect_keeps_socket_and_budget false newWsClient defaultStore)
    as (_ & _ & _ & Hfail & _).
  destruct Hfail as (Hc' & He & _); [discriminate | discriminate |].
  split.
  - change (connect true (newWsClient, defaultStore))
      with (mkWsClient (Some CONNECTING) 0 None, defaultStore).
    rewrite (surjective_pairing (connect true _)), Hc, Hs. reflexivity.
  - split; [rewrite Hc'; reflexivity|]. split; [exact He | reflexivity].
Defined.

(** Correction was activated; then the connection is lost for good and the
    player keeps strumming: the correction stays active. *)
Lemma ai_state_survives_everything_but_a_result_witness :
  aiState (store (world (fst (run sqrt_exact pow_unit Scenario.lossSession
                                Scenario.correctedApp))))
  = (true, Sample.cMajorNotes, "C_Major",
     Some (Sample.cMajor 0 (92 # 100) true)).
Proof.
  rewrite (ai_state_survives_everything_but_a_result sqrt_exact pow_unit
             Scenario.lossSession Scenario.correctedApp);
    [reflexivity | repeat constructor].
Defined.

(** C major with notes, then G major without: string 1 still plays fret 7
    of the C major notes. *)
Lemma later_result_keeps_earlier_notes_witness :
  let s2 := onmessage (inference_result Scenario.gMajorWithoutNotes)
              (onmessage
                 (inference_result (Sample.cMajor 0 (92 # 100) true))
                 defaultStore) in
  currentChord s2 = "G_Major" /\
  overrideNotes s2 = Sample.cMajorNotes /\
  resolveFret s2 1 = 7.
Proof.
  cbv zeta.
  destruct (later_result_keeps_earlier_notes
              (Sample.cMajor 0 (92 # 100) true) Scenario.gMajorWithoutNotes
              defaultStore Sample.cMajorNotes 1 eq_refl eq_refl)
    as (_ & Hc & _ & Hn & Hf).
  split; [exact Hc|]. split; [exact Hn|].
  rewrite Hf; [reflexivity | reflexivity | cbn; lia].
Defined.

(** A hand shown to an initialized engine, frame after frame, with a frame
    without hands in between: the store never holds a right hand and the
    effect never reaches the strum detector. *)
Lemma tracker_never_feeds_strum_detection_witness :
  let frames := [[mkDetectedHand (Sample.hand (1 # 2)) true]; [];
                 [mkDetectedHand (Sample.hand (8 # 10)) true]] in
  let s' := snd (snd (runFrames sqrt_exact HandTracker_LandmarkIndex frames
                        (mkPrev None None, store Sample.readyWorld))) in
  isTracking s' = true /\ rightHand s' = None /\
  strumEffect sqrt_exact pow_unit 1100 1
    (withStore (fun _ => s') Sample.readyWorld)
  = (withStore (fun _ => s') Sample.readyWorld, None).
Proof.
  cbv zeta.
  destruct (tracker_never_feeds_strum_detection sqrt_exact pow_unit
              [[mkDetectedHand (Sample.hand (1 # 2)) true]; [];
               [mkDetectedHand (Sample.hand (8 # 10)) true]]
              (mkPrev None None) Sample.readyWorld 1100 1 eq_refl)
    as (H1 & H2 & _).
  split; [reflexivity|]. split; [exact H1 | exact H2].
Defined.

(** An engine that fails to start twice while the player strums and the
    socket drops: nothing has happened.  A failed start on the fresh world
    resolves to [false]. *)
Lemma engine_is_inert_until_initialize_succeeds_witness :
  let ops := [OpInitialize false; OpStrum Sample.p0 1000 1; OpConnect false;
              OpStrum Sample.p1 1100 (11 # 10); OpInitialize false;
              OpPlayNote 2 0 1 2; OpWsClose] in
  engineInert (world (fst (run sqrt_exact pow_unit ops initialApp))) /\
  snd (run sqrt_exact pow_unit ops initialApp) = [] /\
  initialize false initialWorld = (false, initialWorld).
Proof.
  cbv zeta.
  destruct (engine_is_inert_until_initialize_succeeds sqrt_exact pow_unit
              [OpInitialize false; OpStrum Sample.p0 1000 1; OpConnect false;
               OpStrum Sample.p1 1100 (11 # 10); OpInitialize false;
               OpPlayNote 2 0 1 2; OpWsClose])
    as (_ & Hinert & _).
  destruct Hinert as [H1 H2]; [repeat constructor|].
  split; [exact H1|]. split; [exact H2 | reflexivity].
Defined.

